(** * syncrup_server: dependency graph store and change-impact analysis

    A shallow embedding of [GraphService] (the per-project graph store) and of
    [ImpactAnalyzer] (node resolution, reverse-dependency walk, semantic usage
    scan, deduplication, non-breaking short-circuit, severity) and of the push
    handling of [WebhookController], which calls the analyzer, followed by
    the properties of the specification that concern them and by further
    properties read off the code.

    Conventions of the embedding.
    - A JavaScript string is a [string]; each character stands for one code
      unit below 256, on which [toLowerCase], [trim] and the regular
      expression class [\w] are the functions written out below.
    - A JavaScript [Map] and [Set] keep insertion order, so they are lists:
      an association list for [Map], a duplicate-free list for [Set].
    - Exceptions are the [Throw] case of [Exc]; the [while] loop of the walker
      runs on fuel and is shown to finish within the fuel it is given.
    - What the code reads from its surroundings (the persisted documents, the
      classifier's reply, the working copies, the clock) is an explicit
      environment.
    - Paths are those of a POSIX system, written relative to the working
      directory of the process, which is taken not to be the root.
    - Data that reaches the code unchecked (a graph document on disk, the
      payload of a push) comes with the shapes on which the code throws or
      goes on without the values it expects; see [FileContent], [Commits],
      [Files] and [Entry]. *)

From Stdlib Require Import List String Ascii Bool Arith Lia DecimalString.
Import ListNotations.
Local Open Scope string_scope.
Local Open Scope list_scope.
Local Open Scope nat_scope.

(* ================================================================== *)
(** ** JavaScript strings *)

Module JsString.

Definition code (c : ascii) : nat := nat_of_ascii c.

(** [String.prototype.toLowerCase] on one code unit below 256: the ASCII
    capitals and the Latin-1 capitals (all of 0xC0..0xDE but the
    multiplication sign 0xD7) move up by 32. *)
Definition lowerChar (c : ascii) : ascii :=
  let n := code c in
  if ((65 <=? n) && (n <=? 90)) || ((192 <=? n) && (n <=? 222) && negb (n =? 215))
  then ascii_of_nat (n + 32) else c.

Fixpoint mapChars (f : ascii -> ascii) (s : string) : string :=
  match s with
  | EmptyString => EmptyString
  | String c r => String (f c) (mapChars f r)
  end.

Definition toLowerCase (s : string) : string := mapChars lowerChar s.

(** [s.replace(/x/g, y)] for single characters [x] and [y]. *)
Definition replaceChar (x y : ascii) (s : string) : string :=
  mapChars (fun c => if Ascii.eqb c x then y else c) s.

Definition backslash : ascii := ascii_of_nat 92.
Definition slash : ascii := ascii_of_nat 47.
Definition colon : ascii := ascii_of_nat 58.
Definition newline : ascii := ascii_of_nat 10.

(** [s.replace(/\\/g, '/')] *)
Definition toForwardSlashes (s : string) : string := replaceChar backslash slash s.
(** [s.replace(/\//g, '\\')] *)
Definition toBackslashes (s : string) : string := replaceChar slash backslash s.

Definition startsWith (s p : string) : bool := String.prefix p s.

Fixpoint rev_string (s : string) : string :=
  match s with
  | EmptyString => EmptyString
  | String c r => (rev_string r ++ String c EmptyString)%string
  end.

Definition endsWith (s p : string) : bool :=
  String.prefix (rev_string p) (rev_string s).

(** [s.split(sep)] for a one-character separator: never the empty list. *)
Fixpoint split (sep : ascii) (s : string) : list string :=
  match s with
  | EmptyString => [EmptyString]
  | String c r =>
      if Ascii.eqb c sep then EmptyString :: split sep r
      else match split sep r with
           | [] => [String c EmptyString]
           | p :: ps => String c p :: ps
           end
  end.

(** [parts.join(sep)] *)
Definition join (sep : string) (parts : list string) : string :=
  String.concat sep parts.

(** [s.substring(0, n)] *)
Definition take (n : nat) (s : string) : string := String.substring 0 n s.

(** White space removed by [trim], among the code units below 256. *)
Definition isSpace (c : ascii) : bool :=
  let n := code c in
  ((9 <=? n) && (n <=? 13)) || (n =? 32) || (n =? 160).

Fixpoint trimStart (s : string) : string :=
  match s with
  | EmptyString => EmptyString
  | String c r => if isSpace c then trimStart r else s
  end.

Definition trim (s : string) : string :=
  rev_string (trimStart (rev_string (trimStart s))).

(** The class [\w] of a regular expression without flags. *)
Definition isWord (c : ascii) : bool :=
  let n := code c in
  ((48 <=? n) && (n <=? 57)) || ((65 <=? n) && (n <=? 90))
  || (n =? 95) || ((97 <=? n) && (n <=? 122)).

Definition firstChar (s : string) : option ascii := String.get 0 s.
Definition lastChar (s : string) : option ascii := String.get 0 (rev_string s).

Definition wordOpt (o : option ascii) : bool :=
  match o with Some c => isWord c | None => false end.

(** The assertion [\b] between two neighbouring positions. *)
Definition boundary (before after : option ascii) : bool :=
  xorb (wordOpt before) (wordOpt after).

(** Decimal rendering of a number inside a template literal. *)
Definition ofNat (n : nat) : string := NilEmpty.string_of_uint (Nat.to_uint n).

(** [path.basename] of the POSIX flavour: trailing slashes are dropped and
    the part after the last remaining slash is returned. *)
Fixpoint dropSlashes (s : string) : string :=
  match s with
  | EmptyString => EmptyString
  | String c r => if Ascii.eqb c slash then dropSlashes r else s
  end.

Fixpoint takeUntilSlash (s : string) : string :=
  match s with
  | EmptyString => EmptyString
  | String c r => if Ascii.eqb c slash then EmptyString else String c (takeUntilSlash r)
  end.

Definition basename (p : string) : string :=
  rev_string (takeUntilSlash (dropSlashes (rev_string p))).

(** JavaScript truthiness of an optional string argument. *)
Definition truthy (o : option string) : bool :=
  match o with
  | Some s => negb (String.eqb s EmptyString)
  | None => false
  end.

End JsString.

(* ================================================================== *)
(** ** Paths: [path.join] of the POSIX flavour *)

Module JsPath.
Import JsString.

(** [normalizeString]: [res] holds the segments kept so far, the last one
    first. Empty segments and [.] are dropped; [..] removes the segment
    before it, unless there is none or it is itself [..], in which case it
    is kept when the path is relative and dropped when it is absolute. *)
Fixpoint normalizeString (allowAboveRoot : bool) (res segments : list string)
  : list string :=
  match segments with
  | [] => res
  | seg :: rest =>
      if String.eqb seg EmptyString || String.eqb seg "."
      then normalizeString allowAboveRoot res rest
      else if String.eqb seg ".." then
        match res with
        | last :: before =>
            if String.eqb last ".."
            then normalizeString allowAboveRoot
                   (if allowAboveRoot then ".." :: res else res) rest
            else normalizeString allowAboveRoot before rest
        | [] =>
            normalizeString allowAboveRoot (if allowAboveRoot then [".."] else []) rest
        end
      else normalizeString allowAboveRoot (seg :: res) rest
  end.

Definition isSlash (o : option ascii) : bool :=
  match o with Some c => Ascii.eqb c slash | None => false end.

(** [path.normalize(path)] *)
Definition normalize (path : string) : string :=
  if String.eqb path EmptyString then "."
  else
    let isAbsolute := isSlash (firstChar path) in
    let trailingSeparator := isSlash (lastChar path) in
    let body :=
      join "/" (rev (normalizeString (negb isAbsolute) [] (split slash path))) in
    if String.eqb body EmptyString
    then (if isAbsolute then "/" else if trailingSeparator then "./" else ".")
    else
      let body' := if trailingSeparator then (body ++ "/")%string else body in
      if isAbsolute then ("/" ++ body')%string else body'.

(** [path.join(...parts)]: the non-empty parts joined by a slash, then
    normalized. *)
Definition joinPaths (parts : list string) : string :=
  normalize (join "/" (filter (fun part => negb (String.eqb part EmptyString)) parts)).

End JsPath.

(* ================================================================== *)
(** ** JavaScript [Map] and [Set] with string keys *)

Module JsMap.
Section WithValue.
Context {V : Type}.

Definition t := list (string * V).

Definition empty : t := [].

Fixpoint get (k : string) (m : t) : option V :=
  match m with
  | [] => None
  | (k', v) :: r => if String.eqb k' k then Some v else get k r
  end.

Definition has (k : string) (m : t) : bool :=
  match get k m with Some _ => true | None => false end.

(** [m.set(k, v)]: an existing key keeps its place and takes the new
    value, a new key goes to the end. *)
Fixpoint set (k : string) (v : V) (m : t) : t :=
  match m with
  | [] => [(k, v)]
  | (k', v') :: r =>
      if String.eqb k' k then (k', v) :: r else (k', v') :: set k v r
  end.

(** [m.delete(k)] *)
Fixpoint delete (k : string) (m : t) : t :=
  match m with
  | [] => []
  | (k', v') :: r =>
      if String.eqb k' k then r else (k', v') :: delete k r
  end.

(** [new Map(entries)] *)
Definition ofEntries (entries : list (string * V)) : t :=
  fold_left (fun m kv => set (fst kv) (snd kv) m) entries empty.

(** [Array.from(m.values())] *)
Definition values (m : t) : list V := map snd m.

Definition keys (m : t) : list string := map fst m.
End WithValue.
Arguments t : clear implicits.
End JsMap.

Module JsSet.
Definition t := list string.
Definition empty : t := [].
Definition has (x : string) (s : t) : bool := existsb (String.eqb x) s.
Definition add (x : string) (s : t) : t := if has x s then s else s ++ [x].
End JsSet.

(* ================================================================== *)
(** ** Exceptions *)

Inductive Error : Type :=
| SyntaxError   (* JSON.parse on a text that is not JSON *)
| TypeError.    (* a method called on undefined or on a non-array *)

Inductive Exc (A : Type) : Type :=
| Ok (a : A)
| Throw (e : Error).
Arguments Ok {A} & a.
Arguments Throw {A} e.

Definition bindExc {A B} (x : Exc A) (f : A -> Exc B) : Exc B :=
  match x with
  | Ok a => f a
  | Throw e => Throw e
  end.

Notation "x <- c1 ;; c2" := (bindExc c1 (fun x => c2))
  (at level 61, c1 at next level, right associativity).

(* ================================================================== *)
(** ** GraphService: the graph store of one project *)

Inductive NodeType : Type := FILE | FUNCTION | API | COMPONENT.
Inductive EdgeType : Type := IMPORTS | CALLS | DEFINES | EXPOSES | USED_BY.

(** [metadata?: any]: the one field the code reads is [repoId]. *)
Module Metadata.
Record t : Type := mk { repoId : option string }.
End Metadata.

Definition NodeType_eqb (a b : NodeType) : bool :=
  match a, b with
  | FILE, FILE | FUNCTION, FUNCTION | API, API | COMPONENT, COMPONENT => true
  | _, _ => false
  end.

Definition EdgeType_eqb (a b : EdgeType) : bool :=
  match a, b with
  | IMPORTS, IMPORTS | CALLS, CALLS | DEFINES, DEFINES
  | EXPOSES, EXPOSES | USED_BY, USED_BY => true
  | _, _ => false
  end.

Module GraphNode.
Record t : Type := mk
  { id : string; type : NodeType; label : string; metadata : option Metadata.t }.
End GraphNode.

Module GraphEdge.
Record t : Type := mk
  { source : string; target : string; type : EdgeType; metadata : option Metadata.t }.
End GraphEdge.

Module GraphData.
Record t : Type := mk
  { nodes : list GraphNode.t; edges : list GraphEdge.t }.
End GraphData.

(** What a graph file holds, as [load] sees it. [Unparsable]: [JSON.parse]
    throws on its text. [Malformed]: the text is JSON but [data.nodes.map]
    throws, because the value is [null] or not an object, has no array
    under [nodes], or has [null] among its nodes. [Document]: a graph
    document, with nodes and edges whose fields have the declared types;
    [JSON.stringify] followed by [JSON.parse] gives such a document back.
    [NodesOnly]: nodes as in a graph document, but what the text has under
    [edges] is missing or is not an array. [Other]: any other text, that is
    JSON with an array under [nodes] in which some node, or some edge of the
    array under [edges], lacks a field of the declared type. *)
Inductive FileContent : Type :=
| Unparsable
| Malformed
| NodesOnly (nodes : list GraphNode.t)
| Document (d : GraphData.t)
| Other.

(** The files: name to content, [None] for a missing file. A name is a
    path relative to the working directory of the process, in the normal
    form [path.join] gives it. Different names are different files, and a
    file that exists can be read. *)
Definition Disk : Type := string -> option FileContent.

Definition writeFile (f : string) (c : FileContent) (d : Disk) : Disk :=
  fun g => if String.eqb g f then Some c else d g.

Module GraphService.

Record t : Type := mk
  { nodes : JsMap.t GraphNode.t;
    edges : list GraphEdge.t;
    graphFile : string }.

(** An instance together with the files it reads and writes. *)
Record World : Type := mkWorld { this : t; disk : Disk }.

(** What the constructor leaves behind. [Typed]: an instance whose [edges]
    field is an array of edges, which is what [t] stands for and what the
    methods below are about. [Untyped]: an instance whose [edges] field is
    [undefined] or another value that is not an array; only its node map and
    its file are of use. [Opaque]: an instance built from a document with
    ill-typed nodes or edges; what becomes of it is not followed here. *)
Inductive Instance : Type :=
| Typed (g : t)
| Untyped (nodes : JsMap.t GraphNode.t) (graphFile : string)
| Opaque (graphFile : string).

(** [path.join(process.cwd(), 'data', ...)], relative to the working
    directory. *)
Definition fileOf (projectId : option string) : string :=
  match projectId with
  | Some p => if JsString.truthy projectId
              then JsPath.joinPaths ["data"; ("graph-" ++ p ++ ".json")%string]
              else JsPath.joinPaths ["data"; "graph.json"]
  | None => JsPath.joinPaths ["data"; "graph.json"]
  end.

(** [load()]: the fields start out empty; a missing file leaves them so
    (the directory that [load] then creates holds no document). *)
Definition load (file : string) (d : Disk) : Exc Instance :=
  match d file with
  | Some content =>
      match content with
      | Unparsable => Throw SyntaxError
      | Malformed => Throw TypeError
      | NodesOnly nodes =>
          Ok (Untyped (JsMap.ofEntries (map (fun n => (GraphNode.id n, n)) nodes)) file)
      | Document data =>
          Ok (Typed
                (mk (JsMap.ofEntries
                       (map (fun n => (GraphNode.id n, n)) (GraphData.nodes data)))
                    (GraphData.edges data) file))
      | Other => Ok (Opaque file)
      end
  | None => Ok (Typed (mk JsMap.empty [] file))
  end.

(** [new GraphService(projectId)] *)
Definition new (projectId : option string) (d : Disk) : Exc Instance :=
  load (fileOf projectId) d.

Definition getGraph (g : t) : GraphData.t :=
  GraphData.mk (JsMap.values (nodes g)) (edges g).

Definition save (w : World) : World :=
  let data := GraphData.mk (JsMap.values (nodes (this w))) (edges (this w)) in
  mkWorld (this w) (writeFile (graphFile (this w)) (Document data) (disk w)).

Definition addNode (node : GraphNode.t) (w : World) : World :=
  let g := this w in
  if negb (JsMap.has (GraphNode.id node) (nodes g))
  then mkWorld (mk (JsMap.set (GraphNode.id node) node (nodes g))
                   (edges g) (graphFile g))
               (disk w)
  else w.

Definition sameEdge (edge e : GraphEdge.t) : bool :=
  String.eqb (GraphEdge.source e) (GraphEdge.source edge)
  && String.eqb (GraphEdge.target e) (GraphEdge.target edge)
  && EdgeType_eqb (GraphEdge.type e) (GraphEdge.type edge).

Definition addEdge (edge : GraphEdge.t) (w : World) : World :=
  let g := this w in
  let exists_ := existsb (sameEdge edge) (edges g) in
  if negb exists_
  then mkWorld (mk (nodes g) (edges g ++ [edge]) (graphFile g)) (disk w)
  else w.

Definition clear (w : World) : World :=
  save (mkWorld (mk JsMap.empty [] (graphFile (this w))) (disk w)).

(** [node.metadata && node.metadata.repoId === repoId] *)
Definition ownedBy (repo : string) (node : GraphNode.t) : bool :=
  match GraphNode.metadata node with
  | Some m => match Metadata.repoId m with
              | Some r => String.eqb r repo
              | None => false
              end
  | None => false
  end.

Definition includes (l : list string) (x : string) : bool :=
  existsb (String.eqb x) l.

Definition removeNodesByRepoId (repo : string) (w : World) : World :=
  let g := this w in
  let nodesToRemove :=
    map GraphNode.id (filter (ownedBy repo) (JsMap.values (nodes g))) in
  let nodes' := fold_left (fun m i => JsMap.delete i m) nodesToRemove (nodes g) in
  let edges' :=
    filter (fun edge => negb (includes nodesToRemove (GraphEdge.source edge))
                        && negb (includes nodesToRemove (GraphEdge.target edge)))
           (edges g) in
  save (mkWorld (mk nodes' edges' (graphFile g)) (disk w)).

End GraphService.

(** An instance with an edge array is in particular an instance. *)
Coercion GraphService.Typed : GraphService.t >-> GraphService.Instance.

(* ================================================================== *)
(** ** ImpactAnalyzer *)

Inductive Severity : Type := LOW | MEDIUM | HIGH | CRITICAL.

Module AffectedFile.
Record t : Type := mk
  { repoId : string; filePath : string; reason : string; context : option string }.
End AffectedFile.

Module ImpactResult.
Record t : Type := mk
  { projectId : string;
    changedFile : string;
    changedRepo : string;
    affectedFiles : list AffectedFile.t;
    diff : option (string * string);
    isBreaking : bool;
    severity : Severity;
    explanation : string;
    timestamp : string }.
End ImpactResult.

(** The JSON object found in the classifier's reply; a field that is absent
    (or falsy) is [None]. *)
Module AIResult.
Record t : Type := mk
  { isBreaking : option bool;
    explanation : option string;
    changedFunctions : option (list string) }.
End AIResult.

(** What the call to the classifier comes to inside the [try] block. *)
Inductive AIReply : Type :=
| CallFails                 (* generateContent rejects *)
| NoJson                    (* the reply holds no [{...}] *)
| BadJson                   (* JSON.parse throws on the match *)
| Json (r : AIResult.t).

(** What one invocation reads from outside. [generateContent] is given the
    two snippets that the prompt is built from; [readRepoFile repo path] is
    the content of [repos/<repo>/<path>], [None] when the file is missing or
    cannot be read. *)
Module Env.
Record t : Type := mk
  { disk : Disk;
    generateContent : string -> string -> AIReply;
    readRepoFile : string -> string -> option string;
    now : string }.
End Env.

Module ImpactAnalyzer.
Import JsString.

(* ---------------------------------------------------------------- *)
(** *** determineSeverity *)

Definition determineSeverity (affectedCount : nat) (isBreaking : bool) : Severity :=
  if isBreaking && (5 <? affectedCount) then CRITICAL
  else if isBreaking && (0 <? affectedCount) then HIGH
  else if 10 <? affectedCount then HIGH
  else if 5 <? affectedCount then MEDIUM
  else LOW.

(* ---------------------------------------------------------------- *)
(** *** createEmptyResult *)

Definition createEmptyResult (now projectId repoId filePath : string) : ImpactResult.t :=
  ImpactResult.mk projectId filePath repoId [] None false LOW
                  "File not found in dependency graph" now.

(* ---------------------------------------------------------------- *)
(** *** findAffectedFiles *)

(** The variables of the loop. [dequeued] is not in the source: it records
    the values [currentNodeId] takes, in order. *)
Record Walk : Type := mkWalk
  { affected : list AffectedFile.t;
    visited : JsSet.t;
    queue : list string;
    dequeued : list string }.

(** [const [edgeRepoId, ...pathParts] = id.split(':')] *)
Definition repoOf (id : string) : string := hd EmptyString (split colon id).
(** [pathParts.join(':')] *)
Definition pathOf (id : string) : string := join ":" (tl (split colon id)).

(** The body of [for (const edge of dependentEdges)]. *)
Definition visitEdge (changedNodeId sourceRepoId : string)
           (w : Walk) (edge : GraphEdge.t) : Walk :=
  let src := GraphEdge.source edge in
  if negb (JsSet.has src (visited w)) then
    let visited' := JsSet.add src (visited w) in
    let queue' := queue w ++ [src] in
    let edgeRepoId := repoOf src in
    let edgeFilePath := pathOf src in
    if negb (String.eqb edgeRepoId sourceRepoId) then
      mkWalk (affected w ++
                [AffectedFile.mk edgeRepoId edgeFilePath
                   ("Imports " ++ basename changedNodeId)%string None])
             visited' queue' (dequeued w)
    else mkWalk (affected w) visited' queue' (dequeued w)
  else w.

Definition dependentEdges (graph : GraphData.t) (currentNodeId : string)
  : list GraphEdge.t :=
  filter (fun e => String.eqb (GraphEdge.target e) currentNodeId
                   && EdgeType_eqb (GraphEdge.type e) IMPORTS)
         (GraphData.edges graph).

(** The body of the [while] loop: [currentNodeId] has been shifted off
    the queue, [rest] is what stays on it. *)
Definition iterate (graph : GraphData.t) (changedNodeId sourceRepoId : string)
           (w : Walk) (currentNodeId : string) (rest : list string) : Walk :=
  fold_left (visitEdge changedNodeId sourceRepoId)
            (dependentEdges graph currentNodeId)
            (mkWalk (affected w) (visited w) rest (dequeued w ++ [currentNodeId])).

(** [while (queue.length > 0)], one unit of fuel per iteration. *)
Fixpoint walk (fuel : nat) (graph : GraphData.t)
         (changedNodeId sourceRepoId : string) (w : Walk) : option Walk :=
  match queue w with
  | [] => Some w
  | currentNodeId :: rest =>
      match fuel with
      | 0 => None
      | S fuel' =>
          walk fuel' graph changedNodeId sourceRepoId
               (iterate graph changedNodeId sourceRepoId w currentNodeId rest)
      end
  end.

Definition walkStart (changedNodeId : string) : Walk :=
  mkWalk [] (JsSet.add changedNodeId JsSet.empty) [changedNodeId] [].

(** Enough for every node the walk can meet: the start and the sources of
    the edges. *)
Definition walkFuel (graph : GraphData.t) : nat :=
  S (List.length (GraphData.edges graph)).

Definition runWalk (graph : GraphData.t) (changedNodeId sourceRepoId : string)
  : option Walk :=
  walk (walkFuel graph) graph changedNodeId sourceRepoId (walkStart changedNodeId).

Definition findAffectedFiles (graph : GraphData.t)
           (changedNodeId sourceRepoId : string) : option (list AffectedFile.t) :=
  option_map affected (runWalk graph changedNodeId sourceRepoId).

(* ---------------------------------------------------------------- *)
(** *** searchForAffectedFiles *)

(** [new RegExp(prefix + escapedFn + suffix)] tested at one position:
    the literal [fn], with [\b] in front when [fn] starts with a word
    character and [\b] behind when it ends with one. [prev] is the
    character before the position. *)
Definition matchesHere (fn : string) (prev : option ascii) (text : string) : bool :=
  String.prefix fn text
  && (if wordOpt (firstChar fn) then boundary prev (firstChar text) else true)
  && (if wordOpt (lastChar fn)
      then boundary (lastChar fn) (String.get (String.length fn) text)
      else true).

Fixpoint searchFrom (fn : string) (prev : option ascii) (text : string) : bool :=
  matchesHere fn prev text
  || match text with
     | EmptyString => false
     | String c r => searchFrom fn (Some c) r
     end.

(** [regex.test(text)] *)
Definition regexTest (fn text : string) : bool := searchFrom fn None text.

Definition usageOf (fn : string) (i : nat) : string :=
  (fn ++ " (line " ++ ofNat (i + 1) ++ ")")%string.

(** [lines.slice(a, b)] *)
Definition slice {A} (a b : nat) (l : list A) : list A := firstn (b - a) (skipn a l).

Definition contextSnippet (lines : list string) (i : nat) : string :=
  let startLine := Nat.max 0 (i - 2) in
  let endLine := Nat.min (List.length lines - 1) (i + 2) in
  let shown := slice startLine (endLine + 1) lines in
  join (String newline EmptyString)
       (map (fun il =>
               let originalLineNum := startLine + fst il + 1 in
               let marker := if originalLineNum =? i + 1 then "> " else "  " in
               (marker ++ ofNat originalLineNum ++ ": " ++ snd il)%string)
            (combine (seq 0 (List.length shown)) shown)).

(** [for (let i = 0; ...)]: the first line that matches and whose usage
    string has not been recorded yet. *)
Fixpoint firstUsage (fn : string) (added : JsSet.t) (rest : list string) (i : nat)
  : option nat :=
  match rest with
  | [] => None
  | l :: r =>
      if regexTest fn l && negb (JsSet.has (usageOf fn i) added) then Some i
      else firstUsage fn added r (S i)
  end.

(** The body of [for (const fn of functionList)] on one file. *)
Definition scanFunction (fileRepoId filePathStr fileContent : string)
           (lines : list string)
           (st : JsSet.t * list AffectedFile.t) (fn : string)
  : JsSet.t * list AffectedFile.t :=
  let '(addedUsagesForFile, affectedFiles) := st in
  if regexTest fn fileContent then
    match firstUsage fn addedUsagesForFile lines 0 with
    | Some i =>
        (JsSet.add (usageOf fn i) addedUsagesForFile,
         affectedFiles ++
           [AffectedFile.mk fileRepoId (toForwardSlashes filePathStr)
              ("Uses modified function: " ++ fn)%string
              (Some (contextSnippet lines i))])
    | None => st
    end
  else st.

(** The variables of the loop over the files. [scanned] is not in the
    source: it records the nodes that get past the [processedFiles]
    guard, that is, the files looked up in the working copy. *)
Record Scan : Type := mkScan
  { affectedFiles : list AffectedFile.t;
    processedFiles : JsSet.t;
    scanned : list GraphNode.t }.

(** The body of [for (const file of otherRepoFiles.slice(0, limit))].
    [path.sep] is the forward slash; a file that does not exist and a file
    that cannot be read both add nothing. *)
Definition scanFile (readRepoFile : string -> string -> option string)
           (functionList : list string) (st : Scan) (file : GraphNode.t) : Scan :=
  let normalizedId := toLowerCase (toForwardSlashes (GraphNode.id file)) in
  if JsSet.has normalizedId (processedFiles st) then st
  else
    let processed' := JsSet.add normalizedId (processedFiles st) in
    let fileRepoId := repoOf (GraphNode.id file) in
    let filePathStr := pathOf (GraphNode.id file) in
    let normalizedFilePath := replaceChar slash slash (toForwardSlashes filePathStr) in
    match readRepoFile fileRepoId normalizedFilePath with
    | None => mkScan (affectedFiles st) processed' (scanned st ++ [file])
    | Some fileContent =>
        let lines := split newline fileContent in
        let '(_, found) :=
          fold_left (scanFunction fileRepoId filePathStr fileContent lines)
                    functionList (JsSet.empty, affectedFiles st) in
        mkScan found processed' (scanned st ++ [file])
    end.

(** [/\.(ts|tsx|js|jsx)$/] *)
Definition hasSourceExtension (id : string) : bool :=
  existsb (endsWith id) [".ts"; ".tsx"; ".js"; ".jsx"].

Definition isOtherRepoFile (sourceRepoId : string) (n : GraphNode.t) : bool :=
  NodeType_eqb (GraphNode.type n) FILE
  && negb (startsWith (GraphNode.id n) sourceRepoId)
  && hasSourceExtension (GraphNode.id n).

Definition limit : nat := 500.

Definition functionListOf (changedFunctions : list string) : list string :=
  filter (fun f => 2 <? String.length f) (map trim changedFunctions).

Definition runScan (readRepoFile : string -> string -> option string)
           (graph : GraphData.t) (sourceRepoId : string)
           (changedFunctions : list string) : Scan :=
  let functionList := functionListOf changedFunctions in
  if List.length functionList =? 0 then mkScan [] JsSet.empty []
  else
    let otherRepoFiles := filter (isOtherRepoFile sourceRepoId) (GraphData.nodes graph) in
    fold_left (scanFile readRepoFile functionList)
              (slice 0 limit otherRepoFiles)
              (mkScan [] JsSet.empty []).

Definition searchForAffectedFiles (readRepoFile : string -> string -> option string)
           (graph : GraphData.t) (sourceRepoId : string)
           (changedFunctions : list string) : list AffectedFile.t :=
  affectedFiles (runScan readRepoFile graph sourceRepoId changedFunctions).

(* ---------------------------------------------------------------- *)
(** *** analyzeFileChange *)

Definition possibleNodeIds (repoId filePath : string) : list string :=
  let normalizedPath := toForwardSlashes filePath in
  [ (repoId ++ ":" ++ normalizedPath)%string;
    (repoId ++ ":" ++ filePath)%string;
    (repoId ++ ":" ++ toBackslashes filePath)%string ].

(** [for (const nodeId of possibleNodeIds)] with its [break]. *)
Fixpoint resolveNode (graph : GraphData.t) (ids : list string) : option string :=
  match ids with
  | [] => None
  | nodeId :: r =>
      match find (fun n => String.eqb (GraphNode.id n) nodeId) (GraphData.nodes graph) with
      | Some _ => Some nodeId
      | None => resolveNode graph r
      end
  end.

(** What the [if (oldContent && newContent)] block leaves in
    [isBreaking], [explanation] and [semanticAffectedFiles]. *)
Definition classify (env : Env.t) (graph : GraphData.t) (repoId : string)
           (oldContent newContent : option string)
  : bool * string * list AffectedFile.t :=
  match oldContent, newContent with
  | Some o, Some n =>
      if truthy oldContent && truthy newContent then
        match Env.generateContent env (take 2000 o) (take 2000 n) with
        | Json result =>
            let isBreaking :=
              match AIResult.isBreaking result with Some b => b | None => false end in
            let explanation :=
              if truthy (AIResult.explanation result)
              then match AIResult.explanation result with
                   | Some e => e
                   | None => "Analyzed by AI"
                   end
              else "Analyzed by AI" in
            let changedFunctions :=
              match AIResult.changedFunctions result with Some l => l | None => [] end in
            if 0 <? List.length changedFunctions
            then (isBreaking, explanation,
                  searchForAffectedFiles (Env.readRepoFile env) graph repoId
                                         changedFunctions)
            else (isBreaking, explanation, [])
        | CallFails | NoJson | BadJson => (false, "File modified", [])
        end
      else (false, "File modified", [])
  | _, _ => (false, "File modified", [])
  end.

(** The key of the deduplication. *)
Definition dedupKey (f : AffectedFile.t) : string :=
  let normalizedPath := toLowerCase (toForwardSlashes (AffectedFile.filePath f)) in
  (AffectedFile.repoId f ++ ":" ++ normalizedPath)%string.

(** [Array.from(new Map(all.map(f => [key, f])).values())] *)
Definition dedupEntries (allAffectedFiles : list AffectedFile.t)
  : list (string * AffectedFile.t) :=
  map (fun f => (dedupKey f, f)) allAffectedFiles.

Definition uniqueAffectedFiles (allAffectedFiles : list AffectedFile.t)
  : list AffectedFile.t :=
  JsMap.values (JsMap.ofEntries (dedupEntries allAffectedFiles)).

(** [None] when no outcome is given: the walk ran out of fuel, which
    does not happen, or the instance is an opaque one. The constructor of
    the classifier service is taken to succeed. *)
Definition analyzeFileChange (env : Env.t) (projectId repoId filePath : string)
           (oldContent newContent : option string)
  : option (Exc ImpactResult.t) :=
  match GraphService.new (Some projectId) (Env.disk env) with
  | Throw e => Some (Throw e)
  | Ok (GraphService.Opaque _) => None
  | Ok (GraphService.Untyped nodes _) =>
      (* [graph.edges] is not an array: resolution reads the nodes only, and
         [graph.edges.filter] in [findAffectedFiles] throws *)
      match resolveNode (GraphData.mk (JsMap.values nodes) [])
                        (possibleNodeIds repoId filePath) with
      | None => Some (Ok (createEmptyResult (Env.now env) projectId repoId filePath))
      | Some _ => Some (Throw TypeError)
      end
  | Ok (GraphService.Typed graphService) =>
      let graph := GraphService.getGraph graphService in
      match resolveNode graph (possibleNodeIds repoId filePath) with
      | None => Some (Ok (createEmptyResult (Env.now env) projectId repoId filePath))
      | Some changedNodeId =>
          match findAffectedFiles graph changedNodeId repoId with
          | None => None
          | Some graphAffectedFiles =>
              let '(isBreaking, explanation, semanticAffectedFiles) :=
                classify env graph repoId oldContent newContent in
              let allAffectedFiles := graphAffectedFiles ++ semanticAffectedFiles in
              let unique := uniqueAffectedFiles allAffectedFiles in
              if negb isBreaking then
                Some (Ok (ImpactResult.mk projectId filePath repoId [] None
                            isBreaking LOW
                            (if String.eqb explanation EmptyString
                             then "Non-breaking change detected" else explanation)
                            (Env.now env)))
              else
                let severity := determineSeverity (List.length unique) isBreaking in
                Some (Ok (ImpactResult.mk projectId filePath repoId unique
                            (if truthy oldContent && truthy newContent
                             then match oldContent, newContent with
                                  | Some o, Some n => Some (o, n)
                                  | _, _ => None
                                  end
                             else None)
                            isBreaking severity explanation (Env.now env)))
          end
      end
  end.

End ImpactAnalyzer.

(* ================================================================== *)
(** ** The vocabulary of the specification *)

Module Spec.
Import JsString.

(** *** Severity table (section 4.6), a row per line, first match wins *)

Definition severityTable : list ((bool -> nat -> bool) * Severity) :=
  [ (fun isBreaking affectedCount => isBreaking && (5 <? affectedCount), CRITICAL);
    (fun isBreaking affectedCount => isBreaking && (0 <? affectedCount), HIGH);
    (fun _ affectedCount => 10 <? affectedCount, HIGH);
    (fun _ affectedCount => 5 <? affectedCount, MEDIUM);
    (fun _ _ => true, LOW) ].

Fixpoint firstMatch (rows : list ((bool -> nat -> bool) * Severity))
         (isBreaking : bool) (affectedCount : nat) : option Severity :=
  match rows with
  | [] => None
  | (guard, label) :: r =>
      if guard isBreaking affectedCount then Some label
      else firstMatch r isBreaking affectedCount
  end.

(** *** Graph store *)

(** The document on disk is the in-memory state of the instance. *)
Definition persisted (w : GraphService.World) : Prop :=
  GraphService.disk w (GraphService.graphFile (GraphService.this w))
  = Some (Document (GraphService.getGraph (GraphService.this w))).

(** The node map is keyed by the ids of its nodes, each key once. *)
Definition keyedById (g : GraphService.t) : Prop :=
  NoDup (JsMap.keys (GraphService.nodes g))
  /\ forall k n, In (k, n) (GraphService.nodes g) -> k = GraphNode.id n.

(** The node set holds a node with this id. *)
Definition hasNode (graph : GraphData.t) (nodeId : string) : bool :=
  existsb (fun n => String.eqb (GraphNode.id n) nodeId) (GraphData.nodes graph).

(** *** Reverse dependencies *)

(** [reachable graph start x]: [x] is [start] or imports, directly or
    through other nodes, the node [start]. *)
Inductive reachable (graph : GraphData.t) (start : string) : string -> Prop :=
| reach_start : reachable graph start start
| reach_step : forall e,
    In e (GraphData.edges graph) ->
    GraphEdge.type e = IMPORTS ->
    reachable graph start (GraphEdge.target e) ->
    reachable graph start (GraphEdge.source e).

(** The structural hit reported for the node [id]. *)
Definition importHit (changedNodeId id : string) : AffectedFile.t :=
  AffectedFile.mk (ImpactAnalyzer.repoOf id) (ImpactAnalyzer.pathOf id)
                  ("Imports " ++ basename changedNodeId)%string None.

(** The hits for the nodes of [ids] that lie outside [sourceRepoId]. *)
Definition crossRepoHits (changedNodeId sourceRepoId : string) (ids : list string)
  : list AffectedFile.t :=
  map (importHit changedNodeId)
      (filter (fun id => negb (String.eqb (ImpactAnalyzer.repoOf id) sourceRepoId)) ids).

Definition edgeSources (graph : GraphData.t) : list string :=
  map GraphEdge.source (GraphData.edges graph).

(** What holds of the variables of the walk at the head of the loop:
    the visited set is what has been taken off the queue followed by what
    is still on it, without repetition; everything in it imports [start]
    directly or indirectly; it begins with [start], and the hits so far
    are those of the nodes that follow. *)
Record walkInv (graph : GraphData.t) (start sourceRepoId : string)
       (w : ImpactAnalyzer.Walk) : Prop := mkWalkInv
  { inv_split : ImpactAnalyzer.visited w
                = ImpactAnalyzer.dequeued w ++ ImpactAnalyzer.queue w;
    inv_nodup : NoDup (ImpactAnalyzer.visited w);
    inv_reach : forall x, In x (ImpactAnalyzer.visited w) -> reachable graph start x;
    inv_start : exists rest,
        ImpactAnalyzer.visited w = start :: rest
        /\ ImpactAnalyzer.affected w = crossRepoHits start sourceRepoId rest
        /\ incl rest (edgeSources graph) }.

(** Every importer of a node of [ps] has been visited. *)
Definition closedUnder (graph : GraphData.t) (w : ImpactAnalyzer.Walk)
           (ps : list string) : Prop :=
  forall p e, In p ps -> In e (GraphData.edges graph) ->
              GraphEdge.type e = IMPORTS -> GraphEdge.target e = p ->
              In (GraphEdge.source e) (ImpactAnalyzer.visited w).

(** *** Deduplication *)

(** The keys of a sequence, each once, in the order of first occurrence. *)
Fixpoint firstOccurrences (ks : list string) : list string :=
  match ks with
  | [] => []
  | k :: r => k :: filter (fun x => negb (String.eqb x k)) (firstOccurrences r)
  end.

(** Deduplication as the specification words it: the first hit of each
    key is kept, later ones are dropped. *)
Fixpoint firstWins (seen : list string) (l : list AffectedFile.t)
  : list AffectedFile.t :=
  match l with
  | [] => []
  | f :: r =>
      if existsb (String.eqb (ImpactAnalyzer.dedupKey f)) seen
      then firstWins seen r
      else f :: firstWins (ImpactAnalyzer.dedupKey f :: seen) r
  end.

(** The last hit of [l] that has the key of [f]. *)
Definition lastWithKeyOf (l : list AffectedFile.t) (f : AffectedFile.t)
  : option AffectedFile.t :=
  find (fun h => String.eqb (ImpactAnalyzer.dedupKey h) (ImpactAnalyzer.dedupKey f))
       (rev l).

(** *** Semantic scan *)

(** A node as section 4.4 describes the candidates: of kind FILE, owned
    by another repository than the source, with a source-code extension. *)
Definition describedCandidate (sourceRepoId : string) (n : GraphNode.t) : bool :=
  NodeType_eqb (GraphNode.type n) FILE
  && negb (String.eqb (ImpactAnalyzer.repoOf (GraphNode.id n)) sourceRepoId)
  && ImpactAnalyzer.hasSourceExtension (GraphNode.id n).

Definition normalizedIdOf (n : GraphNode.t) : string :=
  toLowerCase (toForwardSlashes (GraphNode.id n)).

(** The first node of [l] with the normalized id of [n]. *)
Definition firstWithIdOf (l : list GraphNode.t) (n : GraphNode.t)
  : option GraphNode.t :=
  find (fun m => String.eqb (normalizedIdOf m) (normalizedIdOf n)) l.

End Spec.

(* ================================================================== *)
(** ** Sample data: the scenarios of section 8 and a few more *)

Module Sample.

Definition corruptDisk : Disk :=
  fun f => if String.eqb f "data/graph-p1.json" then Some Unparsable else None.

Definition freshWorld : GraphService.World :=
  GraphService.mkWorld (GraphService.mk JsMap.empty [] "data/graph-p1.json")
                       (fun _ => None).

Definition apiNode : GraphNode.t :=
  GraphNode.mk "A:src/api.ts" FILE "api.ts" (Some (Metadata.mk (Some "A"))).
Definition clientNode : GraphNode.t :=
  GraphNode.mk "B:src/client.ts" FILE "client.ts" (Some (Metadata.mk (Some "B"))).
Definition clientImportsApi : GraphEdge.t :=
  GraphEdge.mk "B:src/client.ts" "A:src/api.ts" IMPORTS None.

(** Same id as [apiNode], everything else different. *)
Definition renamedApiNode : GraphNode.t :=
  GraphNode.mk "A:src/api.ts" FUNCTION "other label" None.

(** The graph of the scenarios: the client of repository B imports the
    API file of repository A. *)
Definition scenarioGraph : GraphData.t :=
  GraphData.mk [apiNode; clientNode] [clientImportsApi].

Definition scenarioDisk : Disk :=
  fun f => if String.eqb f "data/graph-p1.json" then Some (Document scenarioGraph)
           else None.

(** The document of project [p1] is JSON without an array of nodes. *)
Definition malformedDisk : Disk :=
  fun f => if String.eqb f "data/graph-p1.json" then Some Malformed else None.

(** The document of project [p1] lists the client node and has no array of
    edges. *)
Definition nodesOnlyDisk : Disk :=
  fun f => if String.eqb f "data/graph-p1.json" then Some (NodesOnly [clientNode])
           else None.

Definition clientSource : string :=
  ("import x" ++ String JsString.newline "  getUser(1);"
     ++ String JsString.newline "done")%string.

Definition workingCopies (repo path : string) : option string :=
  if String.eqb repo "B" && String.eqb path "src/client.ts"
  then Some clientSource else None.

(** The classifier calls the change breaking and names [getUser]. *)
Definition breakingEnv : Env.t :=
  Env.mk scenarioDisk
         (fun _ _ => Json (AIResult.mk (Some true) (Some "getUser was renamed")
                                       (Some ["getUser"])))
         workingCopies "2024-01-01T00:00:00.000Z".

(** The classifier calls the change harmless. *)
Definition harmlessEnv : Env.t :=
  Env.mk scenarioDisk
         (fun _ _ => Json (AIResult.mk (Some false) (Some "comment only") (Some [])))
         workingCopies "2024-01-01T00:00:00.000Z".

(** A cycle through the changed node: the API file imports the client
    back. *)
Definition cyclicGraph : GraphData.t :=
  GraphData.mk [apiNode; clientNode]
               [clientImportsApi;
                GraphEdge.mk "A:src/api.ts" "B:src/client.ts" IMPORTS None].

(** [B:src/app.ts] imports [A:src/index.ts], which imports
    [A:src/api.ts]: the only way from the change to repository B goes
    through a file of repository A. *)
Definition chainGraph : GraphData.t :=
  GraphData.mk [apiNode]
               [GraphEdge.mk "A:src/index.ts" "A:src/api.ts" IMPORTS None;
                GraphEdge.mk "B:src/app.ts" "A:src/index.ts" IMPORTS None].

(** Two nodes whose ids differ by case only, in repository B. *)
Definition upperNode : GraphNode.t := GraphNode.mk "B:src/Client.ts" FILE "Client.ts" None.
Definition lowerNode : GraphNode.t := GraphNode.mk "B:src/client.ts" FILE "client.ts" None.
Definition twiceGraph : GraphData.t := GraphData.mk [upperNode; lowerNode; apiNode] [].

(** A repository whose id begins with the id of the source repository. *)
Definition repo10Node : GraphNode.t := GraphNode.mk "repo10:src/x.ts" FILE "x.ts" None.
Definition prefixGraph : GraphData.t := GraphData.mk [repo10Node] [].

Definition structuralHit : AffectedFile.t :=
  AffectedFile.mk "B" "src/client.ts" "Imports api.ts" None.

Definition semanticHit : AffectedFile.t :=
  AffectedFile.mk "B" "src/client.ts" "Uses modified function: getUser"
    (Some ("  1: import x" ++ String JsString.newline "> 2:   getUser(1);"
             ++ String JsString.newline "  3: done")%string).

End Sample.

(* ================================================================== *)
(** ** Further vocabulary: the graph store *)

Module Extra.

(** What makes two edges the same edge for [addEdge]. *)
Definition edgeKey (e : GraphEdge.t) : string * string * EdgeType :=
  (GraphEdge.source e, GraphEdge.target e, GraphEdge.type e).

(** No two edges with the same source, target and type. *)
Definition uniqueTriples (es : list GraphEdge.t) : Prop := NoDup (map edgeKey es).

(** [nodesToRemove] of [removeNodesByRepoId]. *)
Definition nodesToRemove (repo : string) (g : GraphService.t) : list string :=
  map GraphNode.id
      (filter (GraphService.ownedBy repo) (JsMap.values (GraphService.nodes g))).

(** The edge has an end among [ids]. *)
Definition touches (ids : list string) (e : GraphEdge.t) : bool :=
  GraphService.includes ids (GraphEdge.source e)
  || GraphService.includes ids (GraphEdge.target e).

(** The calls a user of one instance can make, and a sequence of them. *)
Inductive Op : Type :=
| OpAddNode (node : GraphNode.t)
| OpAddEdge (edge : GraphEdge.t)
| OpRemoveNodesByRepoId (repo : string)
| OpClear
| OpSave.

Definition apply (w : GraphService.World) (op : Op) : GraphService.World :=
  match op with
  | OpAddNode node => GraphService.addNode node w
  | OpAddEdge edge => GraphService.addEdge edge w
  | OpRemoveNodesByRepoId repo => GraphService.removeNodesByRepoId repo w
  | OpClear => GraphService.clear w
  | OpSave => GraphService.save w
  end.

Definition run (ops : list Op) (w : GraphService.World) : GraphService.World :=
  fold_left apply ops w.

End Extra.

(** Sample data for the graph store. *)
Module StoreSample.

Definition ownedClient : GraphNode.t :=
  GraphNode.mk "B:src/client.ts" FILE "client.ts" (Some (Metadata.mk (Some "B"))).
Definition unownedClient : GraphNode.t :=
  GraphNode.mk "B:src/legacy.ts" FILE "legacy.ts" None.
Definition importEdge : GraphEdge.t :=
  GraphEdge.mk "B:src/client.ts" "A:src/api.ts" IMPORTS None.
Definition importEdgeAgain : GraphEdge.t :=
  GraphEdge.mk "B:src/client.ts" "A:src/api.ts" IMPORTS (Some (Metadata.mk (Some "B"))).
Definition legacyEdge : GraphEdge.t :=
  GraphEdge.mk "B:src/legacy.ts" "A:src/api.ts" IMPORTS None.

(** A fresh instance of project p1 after an indexing pass. *)
Definition indexed : GraphService.World :=
  Extra.run [Extra.OpAddNode Sample.apiNode; Extra.OpAddNode ownedClient;
             Extra.OpAddNode unownedClient; Extra.OpAddEdge importEdge;
             Extra.OpAddEdge legacyEdge; Extra.OpSave]
            Sample.freshWorld.

(** A document that lists the id of the API file twice. *)
Definition duplicateDocument : GraphData.t :=
  GraphData.mk [Sample.apiNode; ownedClient; Sample.renamedApiNode] [].

Definition duplicateDisk : Disk :=
  fun f => if String.eqb f "data/graph-p1.json" then Some (Document duplicateDocument)
           else None.

End StoreSample.

(* ================================================================== *)
(** ** Further vocabulary: the analyzer *)

Module AnalyzerExtra.
Import JsString.

(** The character occurs in the string. *)
Fixpoint hasChar (c : ascii) (s : string) : bool :=
  match s with
  | EmptyString => false
  | String x r => Ascii.eqb x c || hasChar c r
  end.

(** [e.type === 'IMPORTS'] *)
Definition isImports (e : GraphEdge.t) : bool := EdgeType_eqb (GraphEdge.type e) IMPORTS.

(** The character before a position: the last one of [pre], or [prev] when
    [pre] is empty. *)
Definition charBefore (prev : option ascii) (pre : string) : option ascii :=
  match lastChar pre with
  | Some c => Some c
  | None => prev
  end.

(** [fn] occurs in [text] between [pre] and [post], with a non-word
    character (or nothing) on each side where [fn] itself begins or ends with
    a word character. *)
Definition occursAt (fn : string) (prev : option ascii) (text pre post : string) : Prop :=
  text = (pre ++ fn ++ post)%string
  /\ (wordOpt (firstChar fn) = true -> wordOpt (charBefore prev pre) = false)
  /\ (wordOpt (lastChar fn) = true -> wordOpt (firstChar post) = false).

(** Line [k] (counted from 0) as a context snippet around line [i] shows
    it: a marker, the line number counted from 1, and the line. *)
Definition contextLine (lines : list string) (i k : nat) : string :=
  let marker := if k + 1 =? i + 1 then "> " else "  " in
  let number := ofNat (k + 1) in
  (marker ++ number ++ ": " ++ nth k lines EmptyString)%string.

(** [h] is the hit that identifier [fn] adds for a file with this
    repository, path and content: [fn] occurs in the content and on its line
    [i] (counted from 0), whose surroundings the hit shows. *)
Definition hitFor (fileRepoId filePathStr fileContent fn : string)
           (h : AffectedFile.t) : Prop :=
  exists i,
    ImpactAnalyzer.regexTest fn fileContent = true
    /\ i < List.length (split newline fileContent)
    /\ ImpactAnalyzer.regexTest fn (nth i (split newline fileContent) EmptyString) = true
    /\ h = AffectedFile.mk fileRepoId (toForwardSlashes filePathStr)
             ("Uses modified function: " ++ fn)%string
             (Some (ImpactAnalyzer.contextSnippet (split newline fileContent) i)).

(** [h] is a hit of the scan of node [n]: the working copy holds the file,
    an identifier [fn] of the list occurs on its line [i] (counted from 0),
    and the hit names the repository, the path, the identifier and the lines
    around line [i]. *)
Definition scanHitOf (readRepoFile : string -> string -> option string)
           (functionList : list string) (n : GraphNode.t) (h : AffectedFile.t) : Prop :=
  exists fn content i,
    In fn functionList
    /\ readRepoFile (ImpactAnalyzer.repoOf (GraphNode.id n))
                    (toForwardSlashes (ImpactAnalyzer.pathOf (GraphNode.id n)))
       = Some content
    /\ ImpactAnalyzer.regexTest fn content = true
    /\ i < List.length (split newline content)
    /\ ImpactAnalyzer.regexTest fn (nth i (split newline content) EmptyString) = true
    /\ h = AffectedFile.mk
             (ImpactAnalyzer.repoOf (GraphNode.id n))
             (toForwardSlashes (ImpactAnalyzer.pathOf (GraphNode.id n)))
             ("Uses modified function: " ++ fn)%string
             (Some (ImpactAnalyzer.contextSnippet (split newline content) i)).

End AnalyzerExtra.

(* ================================================================== *)
(** ** WebhookController: what a push event leads to *)

(** The parts of a push payload that [processGitHubPush] reads. The
    payload is a JSON value that nothing has checked; it is not [null],
    since [handleGitHub] has read its fields before the call. Of
    [repository] a field that is absent is [None], and a field that is
    present holds a string. *)
Module PushRepository.
Record t : Type := mk
  { clone_url : option string; html_url : option string; url : option string;
    name : option string }.
End PushRepository.

(** An entry of a [modified] or [added] array: a string, or another
    value. *)
Inductive Entry : Type :=
| Path (p : string)
| NotAString.

(** What a commit holds under [modified] or [added]. [NoFiles]: nothing,
    [null] or another falsy value, which [|| []] replaces. [Listed]: an
    array. [NotAnArray]: any other value; it has no [forEach]. *)
Inductive Files : Type :=
| NoFiles
| Listed (entries : list Entry)
| NotAnArray.

(** An element of [commits]: [null], or a value read through its two
    fields. A number, a string, a boolean and an array have neither field
    and read as [mk NoFiles NoFiles]. *)
Module Commit.
Inductive t : Type :=
| Null
| mk (modified added : Files).
End Commit.

(** What the payload holds under [commits]. [NoCommits]: nothing, [null]
    or another falsy value, which [|| []] replaces. [CommitList]: an array.
    [NotIterable]: a number, [true] or an object, which [for ... of] cannot
    iterate; [lengthIsZero] tells whether it holds the number 0 under
    [length]. A non-empty string is iterated character by character, each
    character a commit without files, and reads as the [CommitList] of
    these. *)
Inductive Commits : Type :=
| NoCommits
| CommitList (commits : list Commit.t)
| NotIterable (lengthIsZero : bool).

Module Payload.
Record t : Type := mk
  { repository : option PushRepository.t; commits : Commits }.
End Payload.

(** The rows of the database as the controller uses them. *)
Module Repo.
Record t : Type := mk { id : string; url : string; name : string }.
End Repo.

Module Project.
Record t : Type := mk { id : string; name : string; repos : list Repo.t }.
End Project.

(** The database calls of one push; [None] stands for a rejected call.
    The writes of the scan and of the report are inside a [try] whose
    [catch] only logs, and are left out. The socket server is taken to be
    set up, so that [getIO()] returns and [emit] does not fail. *)
Module Db.
Record t : Type := mk
  { getProjects : option (list Project.t);
    getRepo : string -> option (option Repo.t) }.
End Db.

Inductive Event : Type :=
| ImpactDetected (impact : ImpactResult.t)               (* 'impact:detected' *)
| RepositoryUpdated (projectId : string) (repository : Repo.t).  (* 'repository:updated' *)

(** How [processGitHubPush] ends: it returns, or an exception leaves it. *)
Inductive PushStatus : Type := Completed | Rejected.

Module WebhookController.
Import JsString.

(** [a || b] on optional strings. *)
Definition orElse (a b : option string) : option string :=
  if truthy a then a else b.

(** [payload.repository?.clone_url || ...?.html_url || ...?.url] *)
Definition repoUrlOf (payload : Payload.t) : option string :=
  match Payload.repository payload with
  | Some r => orElse (orElse (PushRepository.clone_url r) (PushRepository.html_url r))
                     (PushRepository.url r)
  | None => None
  end.

(** [payload.repository?.name] *)
Definition repoNameOf (payload : Payload.t) : option string :=
  match Payload.repository payload with
  | Some r => PushRepository.name r
  | None => None
  end.

(** [r.url === repoUrl || r.name === repoName] *)
Definition matchesRepo (repoUrl : string) (repoName : option string) (r : Repo.t) : bool :=
  String.eqb (Repo.url r) repoUrl
  || match repoName with
     | Some n => String.eqb (Repo.name r) n
     | None => false
     end.

(** [for (const project of allProjects)] with its [break]. *)
Fixpoint findTarget (repoUrl : string) (repoName : option string)
         (allProjects : list Project.t) : option (Project.t * Repo.t) :=
  match allProjects with
  | [] => None
  | project :: rest =>
      match find (matchesRepo repoUrl repoName) (Project.repos project) with
      | Some repo => Some (project, repo)
      | None => findTarget repoUrl repoName rest
      end
  end.

Definition entry_eqb (a b : Entry) : bool :=
  match a, b with
  | Path p, Path q => String.eqb p q
  | _, _ => false
  end.

(** [changedFiles.add(f)], the set in the order of insertion. Entries that
    are not strings are kept one by one: which of them the set would merge
    is of no consequence, since the loop over the set ends at the first of
    them. *)
Definition addFile (f : Entry) (changedFiles : list Entry) : list Entry :=
  if existsb (entry_eqb f) changedFiles then changedFiles else changedFiles ++ [f].

(** [(files || []).forEach((f) => changedFiles.add(f))] *)
Definition addFiles (files : Files) (changedFiles : list Entry) : Exc (list Entry) :=
  match files with
  | NoFiles => Ok changedFiles
  | Listed entries => Ok (fold_left (fun s f => addFile f s) entries changedFiles)
  | NotAnArray => Throw TypeError
  end.

(** [for (const commit of commits)]: the modified, then the added files of
    each commit. *)
Fixpoint collectInto (commits : list Commit.t) (changedFiles : list Entry)
  : Exc (list Entry) :=
  match commits with
  | [] => Ok changedFiles
  | Commit.Null :: _ => Throw TypeError
  | Commit.mk modified added :: rest =>
      s <- addFiles modified changedFiles ;;
      s' <- addFiles added s ;;
      collectInto rest s'
  end.

(** The set [changedFiles]. *)
Definition collectChangedFiles (commits : Commits) : Exc (list Entry) :=
  match commits with
  | NoCommits => Ok []
  | CommitList l => collectInto l []
  | NotIterable _ => Throw TypeError
  end.

(** [commits.length === 0], where [commits] is [payload.commits || []]. *)
Definition hasNoCommits (commits : Commits) : bool :=
  match commits with
  | NoCommits => true
  | CommitList l => List.length l =? 0
  | NotIterable lengthIsZero => lengthIsZero
  end.

(** [for (const filePath of changedFiles)]. [filePath.match] throws on an
    entry that is not a string. [contents filePath] is what the [try] block
    around the source-control calls leaves in [oldContent] and
    [newContent]. [None] when the analyzer gives no outcome. *)
Fixpoint analyzeFiles (env : Env.t) (db : Db.t)
         (contents : string -> option string * option string)
         (targetProject : Project.t) (targetRepo : Repo.t) (files : list Entry)
  : option (list Event * PushStatus) :=
  match files with
  | [] => Some ([], Completed)
  | NotAString :: _ => Some ([], Rejected)
  | Path filePath :: rest =>
      if negb (ImpactAnalyzer.hasSourceExtension filePath)
      then analyzeFiles env db contents targetProject targetRepo rest
      else
        let '(oldContent, newContent) := contents filePath in
        match ImpactAnalyzer.analyzeFileChange env (Project.id targetProject)
                (Repo.id targetRepo) filePath oldContent newContent with
        | None => None
        | Some (Throw _) => Some ([], Rejected)
        | Some (Ok impact) =>
            if 0 <? List.length (ImpactResult.affectedFiles impact) then
              match Db.getRepo db (Repo.id targetRepo) with
              | None => Some ([ImpactDetected impact], Rejected)
              | Some updatedRepo =>
                  let emitted :=
                    ImpactDetected impact
                    :: match updatedRepo with
                       | Some r => [RepositoryUpdated (Project.id targetProject) r]
                       | None => []
                       end in
                  match analyzeFiles env db contents targetProject targetRepo rest with
                  | None => None
                  | Some (later, status) => Some (emitted ++ later, status)
                  end
              end
            else analyzeFiles env db contents targetProject targetRepo rest
        end
  end.

Definition processGitHubPush (env : Env.t) (db : Db.t)
           (contents : string -> option string * option string)
           (payload : Payload.t) : option (list Event * PushStatus) :=
  let repoUrl := repoUrlOf payload in
  let repoName := repoNameOf payload in
  let commits := Payload.commits payload in
  match repoUrl with
  | Some url =>
      if negb (truthy repoUrl) || hasNoCommits commits then Some ([], Completed)
      else
        match Db.getProjects db with
        | None => Some ([], Rejected)
        | Some allProjects =>
            match findTarget url repoName allProjects with
            | None => Some ([], Completed)
            | Some (targetProject, targetRepo) =>
                match collectChangedFiles commits with
                | Throw _ => Some ([], Rejected)
                | Ok changedFiles =>
                    analyzeFiles env db contents targetProject targetRepo changedFiles
                end
            end
        end
  | None => Some ([], Completed)
  end.

(** The graph document of the project is of no use to the analyzer: the
    constructor of the store throws, or it leaves an instance without an
    edge array. *)
Definition unusableGraph (env : Env.t) (projectId : string) : Prop :=
  (exists e, GraphService.new (Some projectId) (Env.disk env) = Throw e)
  \/ (exists stored file,
         GraphService.new (Some projectId) (Env.disk env)
         = Ok (GraphService.Untyped stored file)).

(** The graph document of the project leaves an opaque instance. *)
Definition opaqueGraph (env : Env.t) (projectId : string) : Prop :=
  exists file,
    GraphService.new (Some projectId) (Env.disk env) = Ok (GraphService.Opaque file).

(** The impacts announced by a sequence of events. *)
Definition impactsOf (events : list Event) : list ImpactResult.t :=
  flat_map (fun e => match e with
                     | ImpactDetected impact => [impact]
                     | RepositoryUpdated _ _ => []
                     end) events.

(** The strings among a list of entries. *)
Definition pathsIn (entries : list Entry) : list string :=
  flat_map (fun f => match f with Path p => [p] | NotAString => [] end) entries.

Definition pathsOf (files : Files) : list string :=
  match files with
  | Listed entries => pathsIn entries
  | NoFiles | NotAnArray => []
  end.

Definition listedIn (commits : Commits) : list string :=
  match commits with
  | CommitList l =>
      flat_map (fun c => match c with
                         | Commit.mk modified added => pathsOf modified ++ pathsOf added
                         | Commit.Null => []
                         end) l
  | NoCommits | NotIterable _ => []
  end.

(** The files a payload lists as modified or added. *)
Definition listedFiles (payload : Payload.t) : list string :=
  listedIn (Payload.commits payload).

(** The commits have the shape a push event of the hosting service has:
    an array (or nothing) of commits that are not [null], each with an
    array (or nothing) of strings under [modified] and under [added]. *)
Definition stringsOnly (files : Files) : bool :=
  match files with
  | NoFiles => true
  | Listed entries =>
      forallb (fun f => match f with Path _ => true | NotAString => false end) entries
  | NotAnArray => false
  end.

Definition wellFormed (commits : Commits) : bool :=
  match commits with
  | NoCommits => true
  | CommitList l =>
      forallb (fun c => match c with
                        | Commit.mk modified added => stringsOnly modified && stringsOnly added
                        | Commit.Null => false
                        end) l
  | NotIterable _ => false
  end.

End WebhookController.

(** Sample data for the webhook. *)
Module PushSample.

Definition serverRepo : Repo.t := Repo.mk "A" "https://example.org/server.git" "server".
Definition project1 : Project.t := Project.mk "p1" "demo" [serverRepo].

Definition db : Db.t := Db.mk (Some [project1]) (fun _ => Some (Some serverRepo)).

(** A push to the repository of the database with these commits. *)
Definition pushOf (commits : Commits) : Payload.t :=
  Payload.mk
    (Some (PushRepository.mk (Some "https://example.org/server.git") None None
                             (Some "server")))
    commits.

(** A push of one commit that lists [files] as modified. *)
Definition push (files : list string) : Payload.t :=
  pushOf (CommitList [Commit.mk (Listed (map Path files)) (Listed [])]).

Definition bothContents (path : string) : option string * option string :=
  (Some "old", Some "new").

End PushSample.

(* ================================================================== *)
(** * Properties *)

(** ** Severity *)

Section SeverityFacts.
Import ImpactAnalyzer.

Lemma determineSeverity_cases (n : nat) (b : bool) :
  (determineSeverity n b = CRITICAL <-> b = true /\ 5 < n)
  /\ (determineSeverity n b = HIGH <-> (b = true /\ 0 < n <= 5) \/ (b = false /\ 10 < n))
  /\ (determineSeverity n b = MEDIUM <-> b = false /\ 5 < n <= 10)
  /\ (determineSeverity n b = LOW <-> (b = true /\ n = 0) \/ (b = false /\ n <= 5)).
Proof.
  unfold determineSeverity.
  destruct b; simpl;
    destruct (Nat.ltb_spec 5 n); destruct (Nat.ltb_spec 0 n);
    destruct (Nat.ltb_spec 10 n); simpl;
    repeat split; intros; try discriminate; try lia;
    try (intuition (try discriminate; try lia)).
Qed.

(** C6. [determineSeverity] is the severity table read top to bottom with
    the first matching row giving the label; a breaking change with six
    affected files is CRITICAL, with one it is HIGH, and with none it
    falls through to the last row, LOW. *)
Theorem C6_determineSeverity_table :
  (forall (affectedCount : nat) (isBreaking : bool),
      Some (determineSeverity affectedCount isBreaking)
      = Spec.firstMatch Spec.severityTable isBreaking affectedCount)
  /\ determineSeverity 6 true = CRITICAL
  /\ determineSeverity 1 true = HIGH
  /\ determineSeverity 0 true = LOW.
Proof.
  split; [| repeat split ].
  intros n b. unfold determineSeverity, Spec.severityTable, Spec.firstMatch.
  destruct (b && (5 <? n)); [ reflexivity | ].
  destruct (b && (0 <? n)); [ reflexivity | ].
  destruct (10 <? n); [ reflexivity | ].
  destruct (5 <? n); reflexivity.
Qed.
End SeverityFacts.

(** ** Maps and sets *)

Section JsMapFacts.
Context {V : Type}.
Implicit Types (m : JsMap.t V) (k : string) (v : V).

Lemma has_true_iff k m : JsMap.has k m = true <-> In k (JsMap.keys m).
Proof.
  unfold JsMap.has. induction m as [| [k' v'] r IH]; simpl.
  - split; [ discriminate | tauto ].
  - destruct (String.eqb_spec k' k) as [-> | Hne].
    + split; auto.
    + rewrite IH. split; [ auto | intros [H | H]; [ contradiction | exact H ] ].
Qed.

Lemma has_false_iff k m : JsMap.has k m = false <-> ~ In k (JsMap.keys m).
Proof.
  rewrite <- has_true_iff. destruct (JsMap.has k m); split; congruence.
Qed.

Lemma set_present k v m : JsMap.has k m = true -> JsMap.keys (JsMap.set k v m) = JsMap.keys m.
Proof.
  unfold JsMap.has. induction m as [| [k' v'] r IH]; simpl; [ discriminate | ].
  destruct (String.eqb_spec k' k); simpl; [ reflexivity | ].
  intros H. now rewrite IH.
Qed.

Lemma set_absent k v m : JsMap.has k m = false -> JsMap.set k v m = m ++ [(k, v)].
Proof.
  unfold JsMap.has. induction m as [| [k' v'] r IH]; simpl; [ reflexivity | ].
  destruct (String.eqb_spec k' k); simpl; [ discriminate | ].
  intros H. now rewrite IH.
Qed.

Lemma keys_set k v m :
  JsMap.keys (JsMap.set k v m)
  = if JsMap.has k m then JsMap.keys m else JsMap.keys m ++ [k].
Proof.
  destruct (JsMap.has k m) eqn:E.
  - now apply set_present.
  - rewrite set_absent by exact E. unfold JsMap.keys. now rewrite map_app.
Qed.

Lemma get_set k k' v m :
  JsMap.get k' (JsMap.set k v m) = if String.eqb k k' then Some v else JsMap.get k' m.
Proof.
  induction m as [| [k0 v0] r IH]; simpl.
  - reflexivity.
  - destruct (String.eqb_spec k0 k) as [-> | Hne]; simpl.
    + destruct (String.eqb_spec k k'); reflexivity.
    + destruct (String.eqb_spec k0 k') as [-> | Hne'].
      * destruct (String.eqb_spec k k'); [ congruence | reflexivity ].
      * exact IH.
Qed.

Lemma ofEntries_snoc (l : list (string * V)) k v :
  JsMap.ofEntries (l ++ [(k, v)]) = JsMap.set k v (JsMap.ofEntries l).
Proof. unfold JsMap.ofEntries. now rewrite fold_left_app. Qed.

Lemma get_app_last k v (l : list (string * V)) k' :
  JsMap.get k' (rev (l ++ [(k, v)]))
  = if String.eqb k k' then Some v else JsMap.get k' (rev l).
Proof. rewrite rev_app_distr. reflexivity. Qed.

(** [new Map(entries)] gives every key the value of its last entry. *)
Lemma get_ofEntries (l : list (string * V)) k :
  JsMap.get k (JsMap.ofEntries l) = JsMap.get k (rev l).
Proof.
  induction l as [| [k0 v0] l IH] using rev_ind; [ reflexivity | ].
  rewrite ofEntries_snoc, get_set, get_app_last. now rewrite IH.
Qed.

Lemma firstOccurrences_snoc (ks : list string) k :
  Spec.firstOccurrences (ks ++ [k])
  = if existsb (String.eqb k) ks then Spec.firstOccurrences ks
    else Spec.firstOccurrences ks ++ [k].
Proof.
  induction ks as [| a ks IH]; simpl; [ reflexivity | ].
  rewrite IH. destruct (String.eqb_spec k a) as [-> | Hne]; simpl.
  - destruct (existsb (String.eqb a) ks); [ reflexivity | ].
    rewrite filter_app. simpl. rewrite String.eqb_refl. simpl.
    now rewrite app_nil_r.
  - destruct (existsb (String.eqb k) ks); [ reflexivity | ].
    rewrite filter_app. simpl.
    destruct (String.eqb_spec k a); [ contradiction | reflexivity ].
Qed.

Lemma has_existsb k m : JsMap.has k m = existsb (String.eqb k) (JsMap.keys m).
Proof.
  destruct (JsMap.has k m) eqn:E; symmetry.
  - apply has_true_iff in E. apply existsb_exists. exists k.
    split; [ exact E | apply String.eqb_refl ].
  - apply has_false_iff in E. apply not_true_is_false. intros H.
    apply existsb_exists in H. destruct H as (x & Hin & Hx).
    apply String.eqb_eq in Hx. subst. contradiction.
Qed.

(** [new Map(entries)] lists its keys in the order of their first entry. *)
Lemma keys_ofEntries (l : list (string * V)) :
  JsMap.keys (JsMap.ofEntries l) = Spec.firstOccurrences (map fst l).
Proof.
  induction l as [| [k0 v0] l IH] using rev_ind; [ reflexivity | ].
  rewrite ofEntries_snoc, keys_set, map_app. simpl.
  rewrite firstOccurrences_snoc, has_existsb, IH.
  assert (E : existsb (String.eqb k0) (Spec.firstOccurrences (map fst l))
              = existsb (String.eqb k0) (map fst l)).
  { rewrite <- IH, <- has_existsb.
    unfold JsMap.has. rewrite get_ofEntries.
    clear IH. induction l as [| [k1 v1] l IHl] using rev_ind; [ reflexivity | ].
    rewrite get_app_last, map_app, existsb_app. simpl.
    rewrite (String.eqb_sym k0 k1).
    destruct (String.eqb k1 k0); simpl.
    - now rewrite orb_true_r.
    - rewrite orb_false_r. exact IHl. }
  now rewrite E.
Qed.

Lemma firstOccurrences_incl (ks : list string) x :
  In x (Spec.firstOccurrences ks) -> In x ks.
Proof.
  revert x. induction ks as [| a ks IH]; simpl; [ tauto | ].
  intros x [H | H]; [ auto | ].
  apply filter_In in H. right. apply IH. tauto.
Qed.

Lemma firstOccurrences_NoDup (ks : list string) : NoDup (Spec.firstOccurrences ks).
Proof.
  induction ks as [| a ks IH]; simpl; constructor.
  - intros H. apply filter_In in H. destruct H as [_ H].
    rewrite String.eqb_refl in H. discriminate.
  - now apply NoDup_filter.
Qed.

Lemma NoDup_keys_ofEntries (l : list (string * V)) :
  NoDup (JsMap.keys (JsMap.ofEntries l)).
Proof. rewrite keys_ofEntries. apply firstOccurrences_NoDup. Qed.

Lemma get_In k v m : JsMap.get k m = Some v -> In (k, v) m.
Proof.
  induction m as [| [k' v'] r IH]; simpl; [ discriminate | ].
  destruct (String.eqb_spec k' k) as [-> | Hne].
  - intros [= ->]. now left.
  - intros H. right. now apply IH.
Qed.

Lemma In_get k v m : NoDup (JsMap.keys m) -> In (k, v) m -> JsMap.get k m = Some v.
Proof.
  induction m as [| [k' v'] r IH]; simpl; [ tauto | ].
  intros Hnd [H | H].
  - injection H as -> ->. now rewrite String.eqb_refl.
  - inversion Hnd as [| ? ? Hnot Hnd']; subst.
    destruct (String.eqb_spec k' k) as [-> | Hne].
    + exfalso. apply Hnot. change (In (fst (k, v)) (map fst r)). now apply in_map.
    + now apply IH.
Qed.

Lemma NoDup_keys_set k v m : NoDup (JsMap.keys m) -> NoDup (JsMap.keys (JsMap.set k v m)).
Proof.
  intros H. rewrite keys_set. destruct (JsMap.has k m) eqn:E; [ exact H | ].
  apply has_false_iff in E.
  apply NoDup_rev in H. rewrite <- (rev_involutive (JsMap.keys m ++ [k])).
  apply NoDup_rev. rewrite rev_app_distr. simpl. constructor; [ | exact H ].
  now rewrite <- in_rev.
Qed.
Lemma ofEntries_self m : NoDup (JsMap.keys m) -> JsMap.ofEntries m = m.
Proof.
  induction m as [| [k v] l IH] using rev_ind; [ reflexivity | ].
  unfold JsMap.keys. rewrite map_app. simpl. intros H.
  rewrite ofEntries_snoc, IH by (now apply NoDup_app_remove_r in H).
  apply set_absent, has_false_iff.
  apply NoDup_remove_2 in H. now rewrite app_nil_r in H.
Qed.

Lemma delete_In k k' v m : In (k', v) (JsMap.delete k m) -> In (k', v) m.
Proof.
  induction m as [| [k0 v0] r IH]; simpl; [ tauto | ].
  destruct (String.eqb k0 k); simpl; [ auto | ].
  intros [H | H]; auto.
Qed.

Lemma NoDup_keys_delete k m : NoDup (JsMap.keys m) -> NoDup (JsMap.keys (JsMap.delete k m)).
Proof.
  induction m as [| [k0 v0] r IH]; simpl; [ auto | ].
  intros H. inversion H as [| ? ? Hnot Hr]; subst.
  destruct (String.eqb k0 k); simpl; [ exact Hr | ].
  constructor; [ | now apply IH ].
  intros Hin. apply Hnot. apply in_map_iff in Hin. destruct Hin as ([k1 v1] & <- & Hin).
  apply delete_In in Hin. change (In (fst (k1, v1)) (map fst r)). now apply in_map.
Qed.
End JsMapFacts.

Lemma get_keyed {X} (key : X -> string) (l : list X) k :
  JsMap.get k (map (fun x => (key x, x)) l) = find (fun x => String.eqb (key x) k) l.
Proof.
  induction l as [| x l IH]; simpl; [ reflexivity | ].
  destruct (String.eqb (key x) k); [ reflexivity | exact IH ].
Qed.

Lemma ids_of_keyed (m : JsMap.t GraphNode.t) :
  (forall k n, In (k, n) m -> k = GraphNode.id n) ->
  map GraphNode.id (JsMap.values m) = JsMap.keys m.
Proof.
  induction m as [| [k n] m IH]; simpl; intros H; [ reflexivity | ].
  rewrite IH by (intros; apply H; now right).
  now rewrite (H k n) by now left.
Qed.

Lemma JsSet_has_iff (x : string) (s : JsSet.t) : JsSet.has x s = true <-> In x s.
Proof.
  unfold JsSet.has. rewrite existsb_exists. split.
  - intros (y & Hin & Hy). apply String.eqb_eq in Hy. now subst.
  - intros H. exists x. split; [ exact H | apply String.eqb_refl ].
Qed.

Lemma JsSet_has_false_iff (x : string) (s : JsSet.t) : JsSet.has x s = false <-> ~ In x s.
Proof. rewrite <- JsSet_has_iff. destruct (JsSet.has x s); split; congruence. Qed.

(** ** The graph store *)

Section GraphServiceFacts.
Import GraphService Sample.

(** A graph document that can be read back gives an instance whose nodes
    are keyed by their own ids, each id once. *)
Lemma load_document (file : string) (d : Disk) (data : GraphData.t) :
  d file = Some (Document data) ->
  exists g : t, load file d = Ok g
            /\ NoDup (JsMap.keys (nodes g))
            /\ (forall k n, In (k, n) (nodes g) -> k = GraphNode.id n)
            /\ edges g = GraphData.edges data
            /\ graphFile g = file.
Proof.
  intros H. unfold load. rewrite H. eexists. split; [ reflexivity | ]. simpl.
  split; [ apply NoDup_keys_ofEntries | ].
  split; [ | split; reflexivity ].
  intros k n Hin. apply In_get in Hin; [ | apply NoDup_keys_ofEntries ].
  rewrite get_ofEntries in Hin. apply get_In in Hin.
  apply in_rev in Hin. apply in_map_iff in Hin.
  destruct Hin as (x & Hx & _). now injection Hx as <- <-.
Qed.

Lemma has_ofEntries_nodes (l : list GraphNode.t) (k : string) :
  JsMap.has k (JsMap.ofEntries (map (fun n => (GraphNode.id n, n)) l))
  = Spec.hasNode (GraphData.mk l []) k.
Proof.
  unfold JsMap.has. rewrite get_ofEntries, <- map_rev, get_keyed.
  unfold Spec.hasNode. cbn [GraphData.nodes].
  destruct (find _ (rev l)) as [n |] eqn:F.
  - apply find_some in F. destruct F as [Hin Hn]. apply in_rev in Hin.
    symmetry. apply existsb_exists. now exists n.
  - symmetry. apply not_true_is_false. intros E. apply existsb_exists in E.
    destruct E as (n & Hin & Hn).
    apply in_rev in Hin. now rewrite (find_none _ _ F n Hin) in Hn.
Qed.

(** C4, as the code has it. Building a [GraphService] over a missing
    document gives the empty graph and does not fail. Over a graph document
    it gives an instance on that file with the document's edges and, under
    each id, the last node of the document with that id, whole, the ids
    in the order of their first occurrence; a document in which no id
    occurs twice is given back by [getGraph] as it is. Over a
    document that cannot be parsed, or from which no array of nodes can be
    read, the constructor throws: nothing in [load] catches the error. Over
    a document with an array of nodes and no array of edges it does not
    throw: it stores the nodes and leaves the instance without an edge
    array. Nor does it throw over any other document. *)
Theorem C4_constructor_outcomes (projectId : option string) (d : Disk) :
  let file := fileOf projectId in
  (d file = None -> new projectId d = Ok (mk JsMap.empty [] file))
  /\ (forall data, d file = Some (Document data) ->
        exists g : t,
          new projectId d = Ok g
          /\ graphFile g = file
          /\ edges g = GraphData.edges data
          /\ (forall k, JsMap.has k (nodes g) = Spec.hasNode data k)
          /\ (forall k, JsMap.get k (nodes g)
                        = find (fun n => String.eqb (GraphNode.id n) k)
                               (rev (GraphData.nodes data)))
          /\ map GraphNode.id (GraphData.nodes (getGraph g))
             = Spec.firstOccurrences (map GraphNode.id (GraphData.nodes data))
          /\ (forall n, In n (GraphData.nodes (getGraph g)) -> In n (GraphData.nodes data))
          /\ (NoDup (map GraphNode.id (GraphData.nodes data)) -> getGraph g = data))
  /\ (d file = Some Unparsable -> new projectId d = Throw SyntaxError)
  /\ (d file = Some Malformed -> new projectId d = Throw TypeError)
  /\ (forall stored, d file = Some (NodesOnly stored) ->
        new projectId d
        = Ok (Untyped (JsMap.ofEntries (map (fun n => (GraphNode.id n, n)) stored)) file))
  /\ (d file = Some Other -> new projectId d = Ok (Opaque file))
  /\ ((exists e, new projectId d = Throw e)
      <-> d file = Some Unparsable \/ d file = Some Malformed).
Proof.
  intros file. unfold new. fold file.
  split; [ | split; [ | split; [ | split; [ | split; [ | split ] ] ] ] ].
  7: { unfold load. destruct (d file) as [[| | stored | data |] |]; split;
         try (intros (e & H); discriminate H);
         try (intros [H | H]; discriminate H); eauto. }
  6: { intros H. unfold load. now rewrite H. }
  - intros H. unfold load. now rewrite H.
  - intros data H. unfold load. rewrite H. eexists. split; [ reflexivity | ].
    unfold getGraph. cbn [graphFile edges nodes GraphData.nodes].
    split; [ reflexivity | ]. split; [ reflexivity | ].
    split; [ intros k; now rewrite has_ofEntries_nodes | ].
    assert (G : forall k, JsMap.get k (JsMap.ofEntries
                            (map (fun n => (GraphNode.id n, n)) (GraphData.nodes data)))
                          = find (fun n => String.eqb (GraphNode.id n) k)
                                 (rev (GraphData.nodes data))).
    { intros k. rewrite get_ofEntries, <- map_rev. apply get_keyed. }
    split; [ exact G | ]. split; [ | split ].
    + rewrite ids_of_keyed, keys_ofEntries, map_map; [ reflexivity | ].
      intros k n Hin. apply In_get in Hin; [ | apply NoDup_keys_ofEntries ].
      rewrite G in Hin. apply find_some in Hin. destruct Hin as [_ Hin].
      apply String.eqb_eq in Hin. now symmetry.
    + intros n Hin. unfold JsMap.values in Hin. apply in_map_iff in Hin.
      destruct Hin as ([k v] & Hv & Hin). simpl in Hv. subst v.
      apply In_get in Hin; [ | apply NoDup_keys_ofEntries ].
      rewrite G in Hin. apply find_some in Hin. now apply in_rev.
    + intros Hnd. rewrite ofEntries_self.
      * unfold JsMap.values. rewrite map_map. simpl. rewrite map_id. now destruct data.
      * unfold JsMap.keys. rewrite map_map. exact Hnd.
  - intros H. unfold load. now rewrite H.
  - intros H. unfold load. now rewrite H.
  - intros stored H. unfold load. now rewrite H.
Qed.

Lemma C4_constructor_outcomes_witness :
  new (Some "p1") (fun _ => None) = Ok (mk JsMap.empty [] "data/graph-p1.json")
  /\ new (Some "p1") corruptDisk = Throw SyntaxError
  /\ new (Some "p1") malformedDisk = Throw TypeError
  /\ new (Some "p1") nodesOnlyDisk
     = Ok (Untyped [("B:src/client.ts", clientNode)] "data/graph-p1.json")
  /\ exists g : t, new (Some "p1") scenarioDisk = Ok g /\ getGraph g = scenarioGraph.
Proof.
  split; [ | split; [ | split; [ | split ] ] ].
  - apply (proj1 (C4_constructor_outcomes (Some "p1") (fun _ => None))). reflexivity.
  - apply (proj1 (proj2 (proj2 (C4_constructor_outcomes (Some "p1") corruptDisk)))).
    reflexivity.
  - apply (proj1 (proj2 (proj2 (proj2 (C4_constructor_outcomes (Some "p1") malformedDisk))))).
    reflexivity.
  - exact (proj1 (proj2 (proj2 (proj2 (proj2
             (C4_constructor_outcomes (Some "p1") nodesOnlyDisk)))))
             [clientNode] eq_refl).
  - destruct (proj1 (proj2 (C4_constructor_outcomes (Some "p1") scenarioDisk))
                scenarioGraph eq_refl) as (g & Hg & _ & _ & _ & _ & _ & _ & Hd).
    exists g. split; [ exact Hg | ].
    apply Hd. repeat constructor; simpl; intuition discriminate.
Defined.

(** C4 does not hold: over a document that [JSON.parse] rejects the
    constructor throws instead of giving the empty graph. *)
Lemma C4_corrupt_document_throws :
  corruptDisk (fileOf (Some "p1")) = Some Unparsable
  /\ new (Some "p1") corruptDisk = Throw SyntaxError
  /\ ~ (exists g, new (Some "p1") corruptDisk = Ok g).
Proof.
  split; [ reflexivity | split; [ reflexivity | ] ].
  intros (g & H). discriminate H.
Qed.

Lemma save_persisted (w : World) : Spec.persisted (save w).
Proof.
  unfold Spec.persisted, save, writeFile. simpl. now rewrite String.eqb_refl.
Qed.

(** C5, as the code has it. [removeNodesByRepoId] (like [clear] and [save])
    writes the whole graph, so the document equals the in-memory state when
    it returns; [addNode] and [addEdge] change the in-memory state only and
    leave every file as it was, until [save] is called. *)
Theorem C5_persistence_of_mutations (w : World) :
  (forall repo, Spec.persisted (removeNodesByRepoId repo w))
  /\ Spec.persisted (clear w)
  /\ Spec.persisted (save w)
  /\ (forall node, disk (addNode node w) = disk w)
  /\ (forall edge, disk (addEdge edge w) = disk w)
  /\ (forall node, Spec.persisted (save (addNode node w)))
  /\ (forall edge, Spec.persisted (save (addEdge edge w))).
Proof.
  repeat split; intros; try apply save_persisted.
  - unfold addNode. now destruct (negb _).
  - unfold addEdge. now destruct (negb _).
Qed.

(** C5 does not hold: after [addNode] on a fresh instance the node is in
    memory and no document has been written; likewise after [addEdge]. *)
Lemma C5_addNode_not_persisted :
  new (Some "p1") (fun _ => None) = Ok (this freshWorld)
  /\ GraphData.nodes (getGraph (this (addNode apiNode freshWorld))) = [apiNode]
  /\ disk (addNode apiNode freshWorld) "data/graph-p1.json" = None
  /\ ~ Spec.persisted (addNode apiNode freshWorld)
  /\ ~ Spec.persisted (addEdge clientImportsApi freshWorld).
Proof.
  repeat split; try reflexivity; unfold Spec.persisted; simpl; discriminate.
Qed.

(** C10. [addNode] of a node whose id is already a key of the node map
    returns the state it was given: the stored node keeps its label, type
    and metadata, the edges and the files are untouched. With a new id the
    node is appended, so in both cases no id comes to be stored twice. *)
Theorem C10_addNode_existing_id (w : World) (node : GraphNode.t) :
  JsMap.has (GraphNode.id node) (nodes (this w)) = true ->
  addNode node w = w
  /\ JsMap.get (GraphNode.id node) (nodes (this (addNode node w)))
     = JsMap.get (GraphNode.id node) (nodes (this w))
  /\ getGraph (this (addNode node w)) = getGraph (this w)
  /\ (NoDup (JsMap.keys (nodes (this w))) ->
      NoDup (JsMap.keys (nodes (this (addNode node w))))).
Proof.
  intros H. unfold addNode. rewrite H. simpl. auto.
Qed.

Lemma C10_addNode_existing_id_witness :
  addNode renamedApiNode (addNode apiNode freshWorld) = addNode apiNode freshWorld
  /\ JsMap.get "A:src/api.ts"
       (nodes (this (addNode renamedApiNode (addNode apiNode freshWorld))))
     = Some apiNode.
Proof.
  pose proof (C10_addNode_existing_id (addNode apiNode freshWorld) renamedApiNode
                eq_refl) as (H1 & H2 & _).
  split; [ exact H1 | ]. exact (eq_trans H2 eq_refl).
Defined.

Lemma entries_of_values (m : JsMap.t GraphNode.t) :
  (forall k n, In (k, n) m -> k = GraphNode.id n) ->
  map (fun n => (GraphNode.id n, n)) (JsMap.values m) = m.
Proof.
  induction m as [| [k n] m IH]; simpl; intros H; [ reflexivity | ].
  rewrite IH by (intros; apply H; now right).
  now rewrite <- (H k n) by now left.
Qed.

(** What [save] writes is read back by [load] as the same instance. *)
Lemma save_then_load (w : World) :
  Spec.keyedById (this w) ->
  load (graphFile (this w)) (disk (save w)) = Ok (this w).
Proof.
  intros [Hn Hk]. unfold load, save, writeFile. simpl. rewrite String.eqb_refl. simpl.
  rewrite entries_of_values by exact Hk. rewrite ofEntries_self by exact Hn.
  now destruct (this w).
Qed.

Lemma addNode_keyedById (w : World) (node : GraphNode.t) :
  Spec.keyedById (this w) -> Spec.keyedById (this (addNode node w)).
Proof.
  intros [Hn Hk]. unfold addNode.
  destruct (JsMap.has (GraphNode.id node) (nodes (this w))) eqn:E;
    [ now split | ].
  cbn [negb this nodes]. split; [ now apply NoDup_keys_set | ].
  intros k n Hin. rewrite (set_absent _ _ _ E) in Hin. apply in_app_iff in Hin.
  destruct Hin as [H | [[= <- <-] | []]]; [ now apply Hk | reflexivity ].
Qed.

Lemma addEdge_keyedById (w : World) (edge : GraphEdge.t) :
  Spec.keyedById (this w) -> Spec.keyedById (this (addEdge edge w)).
Proof. intros H. unfold addEdge. now destruct (negb _). Qed.

Lemma removeNodesByRepoId_keyedById (repo : string) (w : World) :
  Spec.keyedById (this w) -> Spec.keyedById (this (removeNodesByRepoId repo w)).
Proof.
  unfold removeNodesByRepoId, save, Spec.keyedById. simpl.
  generalize (map GraphNode.id (filter (ownedBy repo) (JsMap.values (nodes (this w))))).
  generalize (nodes (this w)). intros m ids. revert m.
  induction ids as [| i ids IH]; simpl; intros m [Hn Hk]; [ now split | ].
  apply IH. split; [ now apply NoDup_keys_delete | ].
  intros k n Hin. apply Hk. now apply delete_In in Hin.
Qed.

(** After [removeNodesByRepoId] a new instance over the same files starts
    from the state the old one is in. *)
Lemma reload_after_removeNodesByRepoId (repo : string) (w : World) :
  Spec.keyedById (this w) ->
  load (graphFile (this w)) (disk (removeNodesByRepoId repo w))
  = Ok (this (removeNodesByRepoId repo w)).
Proof.
  intros H. apply (removeNodesByRepoId_keyedById repo) in H.
  unfold removeNodesByRepoId in *.
  match goal with |- context [save ?w0] => exact (save_then_load w0 H) end.
Qed.

Lemma addNode_NoDup (w : World) (node : GraphNode.t) :
  NoDup (JsMap.keys (nodes (this w))) ->
  NoDup (JsMap.keys (nodes (this (addNode node w)))).
Proof.
  intros H. unfold addNode. destruct (negb _); simpl; [ | exact H ].
  now apply NoDup_keys_set.
Qed.
End GraphServiceFacts.

(** ** Deduplication of the merged hits *)

Section DedupFacts.
Import ImpactAnalyzer Sample.

Lemma get_entries (k : string) (l : list AffectedFile.t) :
  JsMap.get k (dedupEntries l) = find (fun h => String.eqb (dedupKey h) k) l.
Proof.
  induction l as [| f l IH]; simpl; [ reflexivity | ].
  destruct (String.eqb (dedupKey f) k); [ reflexivity | exact IH ].
Qed.

Lemma ofEntries_keyed (l : list AffectedFile.t) (k : string) (f : AffectedFile.t) :
  In (k, f) (JsMap.ofEntries (dedupEntries l)) -> k = dedupKey f.
Proof.
  intros Hin. apply In_get in Hin; [ | apply NoDup_keys_ofEntries ].
  rewrite get_ofEntries in Hin. apply get_In in Hin.
  apply in_rev in Hin. apply in_map_iff in Hin.
  destruct Hin as (x & Hx & _). now injection Hx as <- <-.
Qed.

Lemma keyed_values (m : JsMap.t AffectedFile.t) :
  (forall k f, In (k, f) m -> k = dedupKey f) ->
  map dedupKey (JsMap.values m) = JsMap.keys m.
Proof.
  induction m as [| [k f] m IH]; simpl; intros H; [ reflexivity | ].
  rewrite IH by (intros; apply H; now right).
  now rewrite (H k f) by now left.
Qed.

(** C1, as the code has it. The merged hits go through
    [new Map(...).values()]: the result has one hit per key, the keys come
    in the order of their first occurrence in the merged sequence, and the
    hit kept for a key is the last one of the merged sequence with that
    key, not the first. *)
Theorem C1_dedup_keeps_last_hit_per_key (l : list AffectedFile.t) :
  map dedupKey (uniqueAffectedFiles l) = Spec.firstOccurrences (map dedupKey l)
  /\ NoDup (map dedupKey (uniqueAffectedFiles l))
  /\ (forall f, In f (uniqueAffectedFiles l) <-> Spec.lastWithKeyOf l f = Some f).
Proof.
  assert (K : map dedupKey (uniqueAffectedFiles l) = Spec.firstOccurrences (map dedupKey l)).
  { unfold uniqueAffectedFiles.
    rewrite keyed_values by apply ofEntries_keyed.
    rewrite keys_ofEntries. unfold dedupEntries. now rewrite map_map. }
  split; [ exact K | split ].
  - rewrite K. apply firstOccurrences_NoDup.
  - intros f. unfold uniqueAffectedFiles, Spec.lastWithKeyOf.
    rewrite <- get_entries. unfold dedupEntries at 2. rewrite map_rev.
    fold (dedupEntries l). rewrite <- get_ofEntries. split.
    + intros Hin. apply in_map_iff in Hin. destruct Hin as ([k g] & Hg & Hin).
      simpl in Hg. subst g. pose proof (ofEntries_keyed _ _ _ Hin) as ->.
      apply In_get; [ apply NoDup_keys_ofEntries | exact Hin ].
    + intros Hget. apply get_In in Hget.
      apply in_map_iff. now exists (dedupKey f, f).
Qed.

Lemma C1_dedup_keeps_last_hit_per_key_witness :
  In semanticHit (uniqueAffectedFiles [structuralHit; semanticHit])
  /\ ~ In structuralHit (uniqueAffectedFiles [structuralHit; semanticHit]).
Proof.
  pose proof (C1_dedup_keeps_last_hit_per_key [structuralHit; semanticHit]) as (_ & _ & H).
  split.
  - apply H. reflexivity.
  - intros Hin. apply H in Hin. discriminate Hin.
Defined.

(** C1 does not hold. In the scenario of section 8 the walker reports the
    client file first and the scanner reports it again; both hits have the
    same key, and the hit returned is the scanner's, the later one. *)
Lemma C1_first_occurrence_not_kept :
  findAffectedFiles scenarioGraph "A:src/api.ts" "A" = Some [structuralHit]
  /\ searchForAffectedFiles workingCopies scenarioGraph "A" ["getUser"] = [semanticHit]
  /\ dedupKey structuralHit = dedupKey semanticHit
  /\ Spec.firstWins [] [structuralHit; semanticHit] = [structuralHit]
  /\ uniqueAffectedFiles [structuralHit; semanticHit] = [semanticHit]
  /\ option_map
       (fun r => match r with
                 | Ok r => Some (ImpactResult.affectedFiles r)
                 | Throw _ => None
                 end)
       (analyzeFileChange breakingEnv "p1" "A" "src/api.ts" (Some "old") (Some "new"))
     = Some (Some [semanticHit])
  /\ ~ (forall l f, In f (uniqueAffectedFiles l) -> In f (Spec.firstWins [] l)).
Proof.
  repeat split; try (vm_compute; reflexivity).
  intros H. specialize (H [structuralHit; semanticHit] semanticHit).
  assert (Hin : In semanticHit (uniqueAffectedFiles [structuralHit; semanticHit])).
  { vm_compute. now left. }
  apply H in Hin. vm_compute in Hin. destruct Hin as [E | []]. discriminate E.
Qed.
End DedupFacts.

(** ** Node resolution *)

Section ResolutionFacts.
Import ImpactAnalyzer Sample JsString.

Lemma existsb_find {A} (p : A -> bool) (l : list A) :
  existsb p l = match find p l with Some _ => true | None => false end.
Proof.
  induction l as [| a l IH]; simpl; [ reflexivity | ].
  destruct (p a); [ reflexivity | exact IH ].
Qed.

Lemma resolveNode_find (graph : GraphData.t) (ids : list string) :
  resolveNode graph ids = find (Spec.hasNode graph) ids.
Proof.
  induction ids as [| nodeId r IH]; simpl; [ reflexivity | ].
  unfold Spec.hasNode at 1. rewrite existsb_find.
  destruct (find _ (GraphData.nodes graph)); [ reflexivity | exact IH ].
Qed.

(** C3. The candidates are the id built from the path with forward
    slashes, from the path as given and from the path with backslashes, in
    this order, each after the repository id and a colon; resolution
    returns the first of them that is the id of a node; when none is, the
    analyzer returns, as a value and not as an error, the empty result with
    the explanation "File not found in dependency graph". *)
Theorem C3_node_resolution (env : Env.t) (projectId repoId filePath : string)
        (oldContent newContent : option string) (g : GraphService.t) :
  GraphService.new (Some projectId) (Env.disk env) = Ok g ->
  let graph := GraphService.getGraph g in
  possibleNodeIds repoId filePath
  = [ (repoId ++ ":" ++ toForwardSlashes filePath)%string;
      (repoId ++ ":" ++ filePath)%string;
      (repoId ++ ":" ++ toBackslashes filePath)%string ]
  /\ resolveNode graph (possibleNodeIds repoId filePath)
     = find (Spec.hasNode graph) (possibleNodeIds repoId filePath)
  /\ (find (Spec.hasNode graph) (possibleNodeIds repoId filePath) = None ->
      analyzeFileChange env projectId repoId filePath oldContent newContent
      = Some (Ok (ImpactResult.mk projectId filePath repoId [] None false LOW
                    "File not found in dependency graph" (Env.now env)))).
Proof.
  intros Hnew graph. split; [ reflexivity | ].
  split; [ apply resolveNode_find | ].
  intros Hnone. unfold analyzeFileChange. rewrite Hnew. fold graph.
  rewrite resolveNode_find, Hnone. reflexivity.
Qed.

Lemma C3_node_resolution_witness :
  resolveNode scenarioGraph (possibleNodeIds "A" "src\api.ts") = Some "A:src/api.ts"
  /\ analyzeFileChange breakingEnv "p1" "A" "src/missing.ts" (Some "old") (Some "new")
     = Some (Ok (ImpactResult.mk "p1" "src/missing.ts" "A" [] None false LOW
                   "File not found in dependency graph" "2024-01-01T00:00:00.000Z")).
Proof.
  split.
  - pose proof (C3_node_resolution breakingEnv "p1" "A" "src\api.ts" None None
                  _ eq_refl) as (_ & H & _).
    exact (eq_trans H eq_refl).
  - pose proof (C3_node_resolution breakingEnv "p1" "A" "src/missing.ts"
                  (Some "old") (Some "new") _ eq_refl) as (_ & _ & H).
    exact (H eq_refl).
Defined.
End ResolutionFacts.

(** ** The reverse-dependency walk *)

Section WalkFacts.
Import ImpactAnalyzer Sample.

Variable graph : GraphData.t.
Variables start sourceRepoId : string.

Local Abbreviation Inv := (Spec.walkInv graph start sourceRepoId).
Local Abbreviation step := (visitEdge start sourceRepoId).
Local Abbreviation iterate := (ImpactAnalyzer.iterate graph start sourceRepoId).

Lemma EdgeType_eqb_eq (a b : EdgeType) : EdgeType_eqb a b = true <-> a = b.
Proof. destruct a, b; simpl; split; intros H; congruence. Qed.

Lemma NoDup_snoc {A} (l : list A) (x : A) : NoDup l -> ~ In x l -> NoDup (l ++ [x]).
Proof.
  intros Hnd Hx. apply NoDup_rev in Hnd.
  rewrite <- (rev_involutive (l ++ [x])). apply NoDup_rev.
  rewrite rev_app_distr. simpl. constructor; [ | exact Hnd ].
  now rewrite <- in_rev.
Qed.

Lemma crossRepoHits_snoc (ids : list string) (x : string) :
  Spec.crossRepoHits start sourceRepoId (ids ++ [x])
  = Spec.crossRepoHits start sourceRepoId ids
    ++ (if negb (String.eqb (repoOf x) sourceRepoId)
        then [Spec.importHit start x] else []).
Proof.
  unfold Spec.crossRepoHits. rewrite filter_app, map_app. simpl.
  now destruct (negb _).
Qed.

(** One edge: nothing happens for a source already visited; a new source
    joins the visited set and the queue, and is reported when it lies in
    another repository. *)
Lemma visitEdge_cases (w : Walk) (e : GraphEdge.t) :
  (In (GraphEdge.source e) (visited w) /\ step w e = w)
  \/ (~ In (GraphEdge.source e) (visited w)
      /\ visited (step w e) = visited w ++ [GraphEdge.source e]
      /\ queue (step w e) = queue w ++ [GraphEdge.source e]
      /\ dequeued (step w e) = dequeued w
      /\ affected (step w e)
         = affected w ++ (if negb (String.eqb (repoOf (GraphEdge.source e)) sourceRepoId)
                          then [Spec.importHit start (GraphEdge.source e)] else [])).
Proof.
  unfold visitEdge. destruct (JsSet.has (GraphEdge.source e) (visited w)) eqn:E.
  - left. apply JsSet_has_iff in E. simpl. auto.
  - right. apply JsSet_has_false_iff in E as E'. simpl.
    unfold JsSet.add. rewrite E.
    destruct (negb (String.eqb (repoOf (GraphEdge.source e)) sourceRepoId));
      simpl; repeat split; auto. now rewrite app_nil_r.
Qed.

Lemma visitEdge_inv (w : Walk) (e : GraphEdge.t) :
  Inv w -> In e (GraphData.edges graph) -> GraphEdge.type e = IMPORTS ->
  Spec.reachable graph start (GraphEdge.target e) ->
  Inv (step w e).
Proof.
  intros [Hs Hn Hr (rest & Hv & Ha & Hi)] Hin Hty Hreach.
  destruct (visitEdge_cases w e) as [[_ ->] | (Hnew & Ev & Eq & Ed & Ea)].
  - constructor; eauto.
  - constructor.
    + rewrite Ev, Eq, Ed, Hs. now rewrite app_assoc.
    + rewrite Ev. now apply NoDup_snoc.
    + intros x. rewrite Ev, in_app_iff. intros [Hx | [<- | []]].
      * now apply Hr.
      * now apply Spec.reach_step.
    + exists (rest ++ [GraphEdge.source e]). repeat split.
      * now rewrite Ev, Hv.
      * now rewrite Ea, Ha, crossRepoHits_snoc.
      * intros x Hx. apply in_app_iff in Hx. destruct Hx as [Hx | [<- | []]].
        -- now apply Hi.
        -- unfold Spec.edgeSources. now apply in_map.
Qed.

Lemma visitEdge_visited (w : Walk) (e : GraphEdge.t) :
  incl (visited w) (visited (step w e))
  /\ In (GraphEdge.source e) (visited (step w e))
  /\ dequeued (step w e) = dequeued w.
Proof.
  destruct (visitEdge_cases w e) as [[H ->] | (Hnew & Ev & Eq & Ed & Ea)].
  - split; [ apply incl_refl | auto ].
  - rewrite Ev. repeat split; auto.
    + now apply incl_appl, incl_refl.
    + apply in_app_iff. right. now left.
Qed.

Lemma fold_visitEdge_inv (es : list GraphEdge.t) (w : Walk) :
  Inv w ->
  (forall e, In e es -> In e (GraphData.edges graph) /\ GraphEdge.type e = IMPORTS
                        /\ Spec.reachable graph start (GraphEdge.target e)) ->
  Inv (fold_left step es w).
Proof.
  revert w. induction es as [| e es IH]; simpl; intros w Hw Hes; [ exact Hw | ].
  apply IH.
  - destruct (Hes e) as (H1 & H2 & H3); [ now left | ]. now apply visitEdge_inv.
  - intros e' He'. apply Hes. now right.
Qed.

Lemma fold_visitEdge_visited (es : list GraphEdge.t) (w : Walk) :
  incl (visited w) (visited (fold_left step es w))
  /\ (forall e, In e es -> In (GraphEdge.source e) (visited (fold_left step es w)))
  /\ dequeued (fold_left step es w) = dequeued w.
Proof.
  revert w. induction es as [| e es IH]; simpl; intros w.
  - split; [ apply incl_refl | split; [ tauto | reflexivity ] ].
  - destruct (IH (step w e)) as (Hincl & Hsrc & Hdeq).
    destruct (visitEdge_visited w e) as (Hincl1 & Hsrc1 & Hdeq1).
    repeat split.
    + eapply incl_tran; eauto.
    + intros e' [<- | He']; [ now apply Hincl | now apply Hsrc ].
    + now rewrite Hdeq.
Qed.

Lemma dependentEdges_In (cur : string) (e : GraphEdge.t) :
  In e (dependentEdges graph cur)
  <-> In e (GraphData.edges graph) /\ GraphEdge.target e = cur
      /\ GraphEdge.type e = IMPORTS.
Proof.
  unfold dependentEdges. rewrite filter_In, andb_true_iff, String.eqb_eq, EdgeType_eqb_eq.
  tauto.
Qed.

Lemma iterate_inv (w : Walk) (cur : string) (rest : list string) :
  Inv w -> Spec.closedUnder graph w (dequeued w) -> queue w = cur :: rest ->
  Inv (iterate w cur rest)
  /\ Spec.closedUnder graph (iterate w cur rest) (dequeued (iterate w cur rest))
  /\ dequeued (iterate w cur rest) = dequeued w ++ [cur].
Proof.
  intros Hw Hc Hq. unfold ImpactAnalyzer.iterate.
  set (w1 := mkWalk (affected w) (visited w) rest (dequeued w ++ [cur])).
  assert (Hcur : Spec.reachable graph start cur).
  { apply (Spec.inv_reach _ _ _ _ Hw). rewrite (Spec.inv_split _ _ _ _ Hw), Hq.
    apply in_app_iff. right. now left. }
  assert (Hw1 : Inv w1).
  { destruct Hw as [Hs Hn Hr Hst]. constructor; simpl; auto.
    rewrite Hs, Hq, <- app_assoc. reflexivity. }
  destruct (fold_visitEdge_visited (dependentEdges graph cur) w1) as (Hincl & Hsrc & Hdeq).
  split; [ | split ].
  - apply fold_visitEdge_inv; [ exact Hw1 | ].
    intros e He. apply dependentEdges_In in He. destruct He as (H1 & H2 & H3).
    rewrite H2. auto.
  - rewrite Hdeq. simpl. intros p e Hp He Hty Htg.
    apply in_app_iff in Hp. destruct Hp as [Hp | [<- | []]].
    + apply Hincl. simpl. now apply (Hc p e).
    + apply Hsrc. apply dependentEdges_In. auto.
  - exact Hdeq.
Qed.

Lemma walk_unfold (fuel : nat) (w : Walk) :
  walk fuel graph start sourceRepoId w
  = match queue w with
    | [] => Some w
    | cur :: rest =>
        match fuel with
        | 0 => None
        | S fuel' => walk fuel' graph start sourceRepoId (iterate w cur rest)
        end
    end.
Proof. destruct fuel; reflexivity. Qed.

Lemma inv_length (w : Walk) :
  Inv w -> List.length (visited w) <= S (List.length (GraphData.edges graph)).
Proof.
  intros [Hs Hn Hr (rest & Hv & Ha & Hi)]. rewrite Hv in *. simpl.
  apply le_n_S. inversion Hn as [| ? ? _ Hn']; subst.
  unfold Spec.edgeSources in Hi.
  rewrite <- (length_map GraphEdge.source (GraphData.edges graph)).
  now apply NoDup_incl_length.
Qed.

(** The loop ends within the fuel that is left whenever the nodes taken
    off the queue and the fuel together reach [walkFuel]; it ends with an
    empty queue, the invariant, and a visited set closed under importers. *)
Lemma walk_ends (fuel : nat) (w : Walk) :
  Inv w -> Spec.closedUnder graph w (dequeued w) ->
  walkFuel graph <= List.length (dequeued w) + fuel ->
  exists w', walk fuel graph start sourceRepoId w = Some w'
             /\ Inv w' /\ Spec.closedUnder graph w' (dequeued w') /\ queue w' = [].
Proof.
  revert w. induction fuel as [| fuel IH]; intros w Hw Hc Hfuel;
    rewrite walk_unfold; destruct (queue w) as [| cur rest] eqn:Hq.
  - exists w. auto.
  - exfalso. pose proof (inv_length w Hw) as Hlen.
    rewrite (Spec.inv_split _ _ _ _ Hw), Hq, length_app in Hlen. simpl in Hlen.
    unfold walkFuel in Hfuel. lia.
  - exists w. auto.
  - destruct (iterate_inv w cur rest Hw Hc Hq) as (Hw' & Hc' & Hd').
    apply IH; auto. rewrite Hd', length_app. simpl. lia.
Qed.

Lemma walk_more_fuel (fuel fuel' : nat) (w w' : Walk) :
  walk fuel graph start sourceRepoId w = Some w' -> fuel <= fuel' ->
  walk fuel' graph start sourceRepoId w = Some w'.
Proof.
  revert fuel' w. induction fuel as [| fuel IH]; intros fuel' w;
    rewrite (walk_unfold _ w), (walk_unfold fuel' w);
    destruct (queue w) as [| cur rest]; auto; try discriminate.
  intros H Hle. destruct fuel' as [| fuel']; [ lia | ].
  apply IH; [ exact H | lia ].
Qed.

Lemma walkStart_inv :
  Inv (walkStart start) /\ Spec.closedUnder graph (walkStart start) (dequeued (walkStart start)).
Proof.
  split.
  - constructor; simpl.
    + reflexivity.
    + constructor; [ intros [] | constructor ].
    + intros x [<- | []]. constructor.
    + exists []. repeat split. intros x [].
  - intros p e [].
Qed.

Lemma closed_reachable (w : Walk) :
  Inv w -> Spec.closedUnder graph w (dequeued w) -> queue w = [] ->
  forall x, Spec.reachable graph start x -> In x (visited w).
Proof.
  intros Hw Hc Hq x Hx. induction Hx as [| e He Hty Ht IH].
  - destruct (Spec.inv_start _ _ _ _ Hw) as (rest & -> & _). now left.
  - apply (Hc (GraphEdge.target e) e); auto.
    rewrite (Spec.inv_split _ _ _ _ Hw), Hq, app_nil_r in IH. exact IH.
Qed.

(** The walk from [walkStart], summed up. *)
Lemma runWalk_ends :
  exists w, runWalk graph start sourceRepoId = Some w
            /\ Inv w /\ queue w = []
            /\ forall x, Spec.reachable graph start x -> In x (visited w).
Proof.
  destruct walkStart_inv as (Hi & Hc).
  destruct (walk_ends (walkFuel graph) (walkStart start) Hi Hc) as (w & Hw & Hi' & Hc' & Hq).
  { simpl. lia. }
  exists w. split; [ exact Hw | ]. split; [ exact Hi' | ]. split; [ exact Hq | ].
  now apply closed_reachable.
Qed.

End WalkFacts.

Section WalkTheorems.
Import ImpactAnalyzer Sample.

(** C7. On every graph, with or without cycles, the walk ends: the loop
    stops within [walkFuel] iterations, and more fuel changes nothing. When it
    stops the queue is empty and the nodes taken off the queue are exactly
    the visited set, in the same order and without repetition; a node is in
    it if and only if it is the changed node or imports it through a chain
    of IMPORTS edges. The set begins with the changed node, which does not
    occur again, and the hits are those of the nodes after it. *)
Theorem C7_walk_ends_and_visits_each_reachable_node_once
        (graph : GraphData.t) (start sourceRepoId : string) :
  exists w,
    runWalk graph start sourceRepoId = Some w
    /\ (forall fuel, walkFuel graph <= fuel ->
                     walk fuel graph start sourceRepoId (walkStart start) = Some w)
    /\ queue w = []
    /\ dequeued w = visited w
    /\ NoDup (dequeued w)
    /\ (forall x, In x (dequeued w) <-> Spec.reachable graph start x)
    /\ (exists rest, visited w = start :: rest
                     /\ ~ In start rest
                     /\ affected w = Spec.crossRepoHits start sourceRepoId rest).
Proof.
  destruct (runWalk_ends graph start sourceRepoId) as (w & Hrun & Hinv & Hq & Hall).
  assert (Hd : dequeued w = visited w).
  { rewrite (Spec.inv_split _ _ _ _ Hinv), Hq. now rewrite app_nil_r. }
  exists w. split; [ exact Hrun | ].
  split; [ intros fuel Hfuel; now apply (walk_more_fuel _ _ _ (walkFuel graph)) | ].
  split; [ exact Hq | ]. split; [ exact Hd | ].
  split; [ rewrite Hd; apply (Spec.inv_nodup _ _ _ _ Hinv) | ].
  split.
  - intros x. rewrite Hd. split; [ apply (Spec.inv_reach _ _ _ _ Hinv) | apply Hall ].
  - destruct (Spec.inv_start _ _ _ _ Hinv) as (rest & Hv & Ha & _).
    exists rest. split; [ exact Hv | ]. split; [ | exact Ha ].
    pose proof (Spec.inv_nodup _ _ _ _ Hinv) as Hn. rewrite Hv in Hn.
    now inversion Hn.
Qed.

Lemma C7_walk_ends_and_visits_each_reachable_node_once_witness :
  exists w,
    walk 10 cyclicGraph "A:src/api.ts" "A" (walkStart "A:src/api.ts") = Some w
    /\ In "B:src/client.ts" (dequeued w)
    /\ NoDup (dequeued w).
Proof.
  destruct (C7_walk_ends_and_visits_each_reachable_node_once cyclicGraph "A:src/api.ts" "A")
    as (w & _ & Hfuel & _ & _ & Hn & Hreach & _).
  exists w. split; [ | split; [ | exact Hn ] ].
  - apply Hfuel. unfold walkFuel. simpl. lia.
  - apply Hreach.
    apply (Spec.reach_step cyclicGraph "A:src/api.ts" clientImportsApi);
      [ simpl; auto | reflexivity | apply Spec.reach_start ].
Defined.

(** The walk on a cycle through the changed node. *)
Lemma walk_on_cycle :
  option_map visited (runWalk cyclicGraph "A:src/api.ts" "A")
  = Some ["A:src/api.ts"; "B:src/client.ts"]
  /\ findAffectedFiles cyclicGraph "A:src/api.ts" "A" = Some [structuralHit].
Proof. split; reflexivity. Qed.

Lemma repoOf_importHit (changed id : string) :
  AffectedFile.repoId (Spec.importHit changed id) = repoOf id.
Proof. reflexivity. Qed.

Lemma In_crossRepoHits (changed src : string) (ids : list string) (h : AffectedFile.t) :
  In h (Spec.crossRepoHits changed src ids)
  <-> exists id, In id ids /\ repoOf id <> src /\ h = Spec.importHit changed id.
Proof.
  unfold Spec.crossRepoHits. rewrite in_map_iff. split.
  - intros (id & <- & Hin). apply filter_In in Hin. destruct Hin as (Hin & Hne).
    exists id. repeat split; auto. apply negb_true_iff, String.eqb_neq in Hne. exact Hne.
  - intros (id & Hin & Hne & ->). exists id. split; [ reflexivity | ].
    apply filter_In. split; [ exact Hin | ]. now apply negb_true_iff, String.eqb_neq.
Qed.

(** C8. The walker returns, and no hit it returns carries the source
    repository id; every node other than the changed one that imports it
    through a chain of IMPORTS edges, whatever repositories the chain goes
    through, is reported when its own repository id differs from the
    source's. *)
Theorem C8_cross_repo_filter (graph : GraphData.t) (start sourceRepoId : string) :
  exists hits,
    findAffectedFiles graph start sourceRepoId = Some hits
    /\ (forall h, In h hits -> AffectedFile.repoId h <> sourceRepoId)
    /\ (forall x, Spec.reachable graph start x -> x <> start ->
                  repoOf x <> sourceRepoId ->
                  In (Spec.importHit start x) hits).
Proof.
  destruct (runWalk_ends graph start sourceRepoId) as (w & Hrun & Hinv & Hq & Hall).
  exists (affected w). unfold findAffectedFiles. rewrite Hrun. split; [ reflexivity | ].
  destruct (Spec.inv_start _ _ _ _ Hinv) as (rest & Hv & Ha & _). rewrite Ha. split.
  - intros h Hh. apply In_crossRepoHits in Hh. destruct Hh as (id & _ & Hne & ->).
    exact Hne.
  - intros x Hx Hns Hrepo. apply In_crossRepoHits. exists x. repeat split; auto.
    apply Hall in Hx. rewrite Hv in Hx. destruct Hx as [Hx | Hx]; [ congruence | exact Hx ].
Qed.

Lemma C8_cross_repo_filter_witness :
  exists hits,
    findAffectedFiles chainGraph "A:src/api.ts" "A" = Some hits
    /\ In (AffectedFile.mk "B" "src/app.ts" "Imports api.ts" None) hits
    /\ ~ In (AffectedFile.mk "A" "src/index.ts" "Imports api.ts" None) hits.
Proof.
  destruct (C8_cross_repo_filter chainGraph "A:src/api.ts" "A") as (hits & Hf & Hno & Hyes).
  exists hits. split; [ exact Hf | split ].
  - apply (Hyes "B:src/app.ts").
    + apply (Spec.reach_step chainGraph "A:src/api.ts"
               (GraphEdge.mk "B:src/app.ts" "A:src/index.ts" IMPORTS None));
        [ simpl; auto | reflexivity | ].
      apply (Spec.reach_step chainGraph "A:src/api.ts"
               (GraphEdge.mk "A:src/index.ts" "A:src/api.ts" IMPORTS None));
        [ simpl; auto | reflexivity | ].
      apply Spec.reach_start.
    + discriminate.
    + discriminate.
  - intros Hin. apply Hno in Hin. apply Hin. reflexivity.
Defined.

Lemma findAffectedFiles_returns (graph : GraphData.t) (start sourceRepoId : string) :
  exists hits, findAffectedFiles graph start sourceRepoId = Some hits.
Proof.
  destruct (runWalk_ends graph start sourceRepoId) as (w & Hrun & _).
  exists (affected w). unfold findAffectedFiles. now rewrite Hrun.
Qed.

End WalkTheorems.

(** ** The non-breaking short-circuit *)

Section ShortCircuitFacts.
Import ImpactAnalyzer Sample JsString.

Lemma classify_without_content (env : Env.t) (graph : GraphData.t) (repoId : string)
      (oldContent newContent : option string) :
  truthy oldContent && truthy newContent = false ->
  classify env graph repoId oldContent newContent = (false, "File modified", []).
Proof.
  intros H. unfold classify.
  destruct oldContent as [o |], newContent as [n |]; try reflexivity.
  now rewrite H.
Qed.

(** The analyzer returns a result whenever the graph document loads. *)
Lemma analyzeFileChange_returns (env : Env.t) (projectId repoId filePath : string)
      (oldContent newContent : option string) (g : GraphService.t) :
  GraphService.new (Some projectId) (Env.disk env) = Ok g ->
  exists r, analyzeFileChange env projectId repoId filePath oldContent newContent
            = Some (Ok r).
Proof.
  intros Hnew. unfold analyzeFileChange. rewrite Hnew.
  destruct (resolveNode _ _) as [changedNodeId |]; [ | eauto ].
  destruct (findAffectedFiles_returns (GraphService.getGraph g) changedNodeId repoId)
    as (hits & ->).
  destruct (classify _ _ _ _ _) as [[isBreaking explanation] semantic].
  destruct (negb isBreaking); eauto.
Qed.

(** C2. Whenever the graph loads and the outcome of the classification
    step is "not breaking" (because the classifier said so, because its
    reply could not be used, or because the old or the new content is
    missing so that it was not called), the analyzer returns a result with
    no affected files, severity LOW and [isBreaking] false, whatever the
    walker and the scanner found. *)
Theorem C2_non_breaking_short_circuit
        (env : Env.t) (projectId repoId filePath : string)
        (oldContent newContent : option string) (g : GraphService.t) :
  GraphService.new (Some projectId) (Env.disk env) = Ok g ->
  truthy oldContent && truthy newContent = false
  \/ fst (fst (classify env (GraphService.getGraph g) repoId oldContent newContent)) = false ->
  exists r,
    analyzeFileChange env projectId repoId filePath oldContent newContent = Some (Ok r)
    /\ ImpactResult.affectedFiles r = []
    /\ ImpactResult.severity r = LOW
    /\ ImpactResult.isBreaking r = false.
Proof.
  intros Hnew Hnb.
  assert (Hfalse : fst (fst (classify env (GraphService.getGraph g) repoId
                                      oldContent newContent)) = false).
  { destruct Hnb as [H | H]; [ | exact H ].
    now rewrite classify_without_content. }
  unfold analyzeFileChange. rewrite Hnew.
  destruct (resolveNode _ _) as [changedNodeId |].
  - destruct (findAffectedFiles_returns (GraphService.getGraph g) changedNodeId repoId)
      as (hits & ->).
    destruct (classify _ _ _ _ _) as [[isBreaking explanation] semantic].
    simpl in Hfalse. subst isBreaking. simpl. eauto.
  - eexists. split; [ reflexivity | ]. simpl. auto.
Qed.

Lemma C2_non_breaking_short_circuit_witness :
  findAffectedFiles scenarioGraph "A:src/api.ts" "A" = Some [structuralHit]
  /\ exists r,
      analyzeFileChange harmlessEnv "p1" "A" "src/api.ts" (Some "old") (Some "new")
      = Some (Ok r)
      /\ ImpactResult.affectedFiles r = []
      /\ ImpactResult.severity r = LOW
      /\ ImpactResult.isBreaking r = false.
Proof.
  split; [ reflexivity | ].
  apply (C2_non_breaking_short_circuit harmlessEnv "p1" "A" "src/api.ts"
           (Some "old") (Some "new") _ eq_refl).
  right. reflexivity.
Defined.

(** The converse reading: a returned result that is not breaking has no
    affected files and severity LOW. *)
Lemma non_breaking_result (env : Env.t) (projectId repoId filePath : string)
      (oldContent newContent : option string) (r : ImpactResult.t) :
  analyzeFileChange env projectId repoId filePath oldContent newContent = Some (Ok r) ->
  ImpactResult.isBreaking r = false ->
  ImpactResult.affectedFiles r = [] /\ ImpactResult.severity r = LOW.
Proof.
  unfold analyzeFileChange.
  destruct (GraphService.new _ _) as [[g | stored file | file] | e];
    [ | | discriminate | discriminate ].
  - destruct (resolveNode _ _) as [changedNodeId |].
    + destruct (findAffectedFiles _ _ _) as [hits |]; [ | discriminate ].
      destruct (classify _ _ _ _ _) as [[isBreaking explanation] semantic].
      destruct isBreaking; simpl; intros [= <-]; simpl; intros H;
        [ discriminate | auto ].
    + intros [= <-]. simpl. auto.
  - destruct (resolveNode _ _) as [changedNodeId |]; [ discriminate | ].
    intros [= <-]. simpl. auto.
Qed.

End ShortCircuitFacts.

(** ** The candidates of the semantic scan *)

Section ScanFacts.
Import ImpactAnalyzer Sample JsString.

Variable readRepoFile : string -> string -> option string.
Variable functionList : list string.

Local Abbreviation scanStep := (scanFile readRepoFile functionList).

(** One file: a normalized id met before is skipped; otherwise the id is
    recorded and the file is looked up. *)
Lemma scanFile_cases (st : Scan) (file : GraphNode.t) :
  (In (Spec.normalizedIdOf file) (processedFiles st) /\ scanStep st file = st)
  \/ (~ In (Spec.normalizedIdOf file) (processedFiles st)
      /\ processedFiles (scanStep st file)
         = processedFiles st ++ [Spec.normalizedIdOf file]
      /\ scanned (scanStep st file) = scanned st ++ [file]).
Proof.
  unfold scanFile. fold (Spec.normalizedIdOf file).
  destruct (JsSet.has (Spec.normalizedIdOf file) (processedFiles st)) eqn:E.
  - left. apply JsSet_has_iff in E. auto.
  - right. apply JsSet_has_false_iff in E as E'. unfold JsSet.add. rewrite E.
    split; [ exact E' | ].
    destruct (readRepoFile _ _); [ | split; reflexivity ].
    destruct (fold_left _ _ _). split; reflexivity.
Qed.

Lemma fold_scanFile (l : list GraphNode.t) (st : Scan) :
  processedFiles st = map Spec.normalizedIdOf (scanned st) ->
  NoDup (processedFiles st) ->
  let st' := fold_left scanStep l st in
  processedFiles st' = map Spec.normalizedIdOf (scanned st')
  /\ NoDup (processedFiles st')
  /\ (forall n, In n (scanned st')
                <-> In n (scanned st)
                    \/ (~ In (Spec.normalizedIdOf n) (processedFiles st)
                        /\ Spec.firstWithIdOf l n = Some n)).
Proof.
  revert st. induction l as [| file r IH]; intros st Hp Hn; simpl.
  - split; [ exact Hp | split; [ exact Hn | ] ].
    intros n. split; [ auto | intros [H | [_ H]]; [ exact H | discriminate ] ].
  - destruct (scanFile_cases st file) as [[Hin ->] | (Hnew & Ep & Es)].
    + destruct (IH st Hp Hn) as (H1 & H2 & H3).
      split; [ exact H1 | split; [ exact H2 | ] ].
      intros n. rewrite H3. unfold Spec.firstWithIdOf. simpl.
      destruct (String.eqb_spec (Spec.normalizedIdOf file) (Spec.normalizedIdOf n)) as [E | E].
      * rewrite <- E. tauto.
      * reflexivity.
    + destruct (IH (scanStep st file)) as (H1 & H2 & H3).
      { rewrite Ep, Es, map_app, Hp. reflexivity. }
      { rewrite Ep. now apply NoDup_snoc. }
      split; [ exact H1 | split; [ exact H2 | ] ].
      intros n. rewrite H3, Es, Ep. unfold Spec.firstWithIdOf. simpl.
      rewrite !in_app_iff. simpl.
      destruct (String.eqb_spec (Spec.normalizedIdOf file) (Spec.normalizedIdOf n)) as [E | E].
      * split.
        -- intros [[H | [<- | []]] | [H _]]; auto. exfalso. apply H. right. now left.
        -- intros [H | [H [= <-]]]; auto.
      * split.
        -- intros [[H | [<- | []]] | [H H']]; auto; [ contradiction | ].
           right. split; [ | exact H' ]. intros Hc. apply H. now left.
        -- intros [H | [H H']]; auto. right. split; [ | exact H' ].
           intros [Hc | [Hc | []]]; [ contradiction | congruence ].
Qed.

End ScanFacts.

Section ScanTheorems.
Import ImpactAnalyzer Sample JsString.

Lemma prefix_repoOf (s : string) : String.prefix (repoOf s) s = true.
Proof.
  unfold repoOf. induction s as [| c r IH]; simpl; [ reflexivity | ].
  destruct (Ascii.eqb c colon); simpl; [ reflexivity | ].
  destruct (split colon r) as [| p ps]; simpl in *;
    destruct (ascii_dec c c) as [_ | Hc]; congruence.
Qed.

Lemma isOtherRepoFile_described (src : string) (n : GraphNode.t) :
  isOtherRepoFile src n = true -> Spec.describedCandidate src n = true.
Proof.
  unfold isOtherRepoFile, Spec.describedCandidate.
  rewrite !andb_true_iff, !negb_true_iff. intros ((H1 & H2) & H3).
  repeat split; auto. apply String.eqb_neq. intros E.
  unfold startsWith in H2. rewrite <- E, prefix_repoOf in H2. discriminate.
Qed.

Lemma slice_0 {A} (n : nat) (l : list A) : slice 0 n l = firstn n l.
Proof. unfold slice. now rewrite Nat.sub_0_r. Qed.

Lemma firstn_In {A} (n : nat) (l : list A) (x : A) : In x (firstn n l) -> In x l.
Proof.
  revert l. induction n as [| n IH]; intros [| a l]; simpl; try tauto.
  intros [H | H]; auto.
Qed.

(** C9, as the code has it. Every node the scan looks up is a node of
    the graph of kind FILE, with one of the four extensions, owned by another
    repository than the source; no two of them have the same normalized id
    (forward slashes, lower case). Nothing is looked up when no identifier of
    more than two characters is left after trimming. Otherwise, on a graph
    where only the source repository's own ids begin with the source
    repository id, the candidates are the first 500 described nodes in
    insertion order, and a node is looked up exactly when it is the first
    candidate with its normalized id. *)
Theorem C9_scan_candidates
        (readRepoFile : string -> string -> option string)
        (graph : GraphData.t) (sourceRepoId : string) (changedFunctions : list string) :
  let sc := runScan readRepoFile graph sourceRepoId changedFunctions in
  let candidates :=
    firstn limit (filter (Spec.describedCandidate sourceRepoId) (GraphData.nodes graph)) in
  (forall n, In n (scanned sc) ->
             In n (GraphData.nodes graph) /\ Spec.describedCandidate sourceRepoId n = true)
  /\ NoDup (map Spec.normalizedIdOf (scanned sc))
  /\ (functionListOf changedFunctions = [] -> scanned sc = [])
  /\ (functionListOf changedFunctions <> [] ->
      (forall n, In n (GraphData.nodes graph) ->
                 startsWith (GraphNode.id n) sourceRepoId = true ->
                 repoOf (GraphNode.id n) = sourceRepoId) ->
      forall n, In n (scanned sc) <-> Spec.firstWithIdOf candidates n = Some n).
Proof.
  intros sc candidates. subst sc. unfold runScan.
  destruct (functionListOf changedFunctions) as [| fn fns] eqn:Efl.
  - simpl. split; [ tauto | split; [ constructor | split; [ reflexivity | ] ] ].
    intros H. congruence.
  - change (List.length (fn :: fns) =? 0) with false. cbv iota.
    rewrite slice_0.
    pose proof (fold_scanFile readRepoFile (fn :: fns)
                  (firstn limit (filter (isOtherRepoFile sourceRepoId) (GraphData.nodes graph)))
                  (mkScan [] JsSet.empty []) eq_refl (NoDup_nil _)) as (H1 & H2 & H3).
    cbv zeta in H1, H2, H3.
    split; [ | split; [ | split ] ].
    + intros n Hn. apply H3 in Hn. destruct Hn as [[] | [_ Hn]].
      apply find_some in Hn. destruct Hn as [Hn _]. apply firstn_In in Hn.
      apply filter_In in Hn. destruct Hn as [Hn Hc]. split; [ exact Hn | ].
      now apply isOtherRepoFile_described.
    + rewrite <- H1. exact H2.
    + discriminate.
    + intros _ Hown n. rewrite H3. subst candidates.
      assert (E : filter (isOtherRepoFile sourceRepoId) (GraphData.nodes graph)
                  = filter (Spec.describedCandidate sourceRepoId) (GraphData.nodes graph)).
      { apply filter_ext_in. intros m Hm.
        destruct (isOtherRepoFile sourceRepoId m) eqn:Em.
        - symmetry. now apply isOtherRepoFile_described.
        - symmetry. unfold isOtherRepoFile in Em. unfold Spec.describedCandidate.
          destruct (NodeType_eqb (GraphNode.type m) FILE); [ | reflexivity ].
          destruct (hasSourceExtension (GraphNode.id m));
            [ | now rewrite andb_false_r ].
          simpl in *. rewrite andb_true_r in *. apply negb_false_iff in Em.
          apply negb_false_iff, String.eqb_eq. now apply Hown. }
      rewrite E. simpl. tauto.
Qed.

Lemma C9_scan_candidates_witness :
  In upperNode (scanned (runScan workingCopies twiceGraph "A" ["getUser"]))
  /\ scanned (runScan workingCopies twiceGraph "A" ["ab"; " x "]) = [].
Proof.
  pose proof (C9_scan_candidates workingCopies twiceGraph "A" ["getUser"])
    as (_ & _ & _ & H).
  pose proof (C9_scan_candidates workingCopies twiceGraph "A" ["ab"; " x "])
    as (_ & _ & H0 & _).
  split.
  - apply H.
    + discriminate.
    + intros n [<- | [<- | [<- | []]]]; intros E; try discriminate E; reflexivity.
    + reflexivity.
  - apply H0. reflexivity.
Defined.

(** C9 does not hold. [lowerNode] is a FILE node of repository B with the
    extension .ts, the second of three nodes, and the source repository is A;
    it is not looked up, because [upperNode], met before it, has the same
    normalized id. And when the only identifier is shorter than three
    characters no node is looked up at all. *)
Lemma C9_described_node_not_scanned :
  In lowerNode (firstn limit (filter (Spec.describedCandidate "A")
                                     (GraphData.nodes twiceGraph)))
  /\ scanned (runScan workingCopies twiceGraph "A" ["getUser"]) = [upperNode]
  /\ ~ In lowerNode (scanned (runScan workingCopies twiceGraph "A" ["getUser"]))
  /\ scanned (runScan workingCopies twiceGraph "A" ["ab"]) = [].
Proof.
  split; [ vm_compute; auto | ].
  split; [ vm_compute; reflexivity | ].
  split; [ | vm_compute; reflexivity ].
  vm_compute. intros [H | []]. discriminate H.
Qed.

(** The repository test of the scan is a prefix test on the node id: with
    the source repository "repo1", a file of repository "repo10" is a
    described candidate and is left out. *)
Lemma scan_leaves_out_repo_with_prefixed_id :
  Spec.describedCandidate "repo1" repo10Node = true
  /\ isOtherRepoFile "repo1" repo10Node = false
  /\ scanned (runScan workingCopies prefixGraph "repo1" ["getUser"]) = []
  /\ findAffectedFiles
       (GraphData.mk [repo10Node]
                     [GraphEdge.mk "repo10:src/x.ts" "repo1:src/api.ts" IMPORTS None])
       "repo1:src/api.ts" "repo1"
     = Some [AffectedFile.mk "repo10" "src/x.ts" "Imports api.ts" None].
Proof. repeat split; vm_compute; reflexivity. Qed.

End ScanTheorems.

(* ================================================================== *)
(** * Further properties of the graph store *)

Section StringFacts.

Lemma append_assoc (a b c : string) : ((a ++ b) ++ c)%string = (a ++ (b ++ c))%string.
Proof. induction a as [| x a IH]; simpl; [ reflexivity | now rewrite IH ]. Qed.

Lemma append_nil_r (a : string) : (a ++ EmptyString)%string = a.
Proof. induction a as [| x a IH]; simpl; [ reflexivity | now rewrite IH ]. Qed.

Lemma length_append (a b : string) :
  String.length (a ++ b) = String.length a + String.length b.
Proof. induction a as [| x a IH]; simpl; [ reflexivity | now rewrite IH ]. Qed.

Lemma append_cancel_r (a b s : string) : (a ++ s)%string = (b ++ s)%string -> a = b.
Proof.
  revert b. induction a as [| x a IH]; intros [| y b] H; simpl in H.
  - reflexivity.
  - exfalso. apply (f_equal String.length) in H. simpl in H.
    rewrite length_append in H. lia.
  - exfalso. apply (f_equal String.length) in H. simpl in H.
    rewrite length_append in H. lia.
  - injection H as -> H. f_equal. now apply IH.
Qed.

Lemma append_cancel_l (s a b : string) : (s ++ a)%string = (s ++ b)%string -> a = b.
Proof. induction s as [| x s IH]; simpl; intros H; [ exact H | ]. injection H. exact IH. Qed.

End StringFacts.

Section ListFacts.
Context {A B : Type}.

Lemma filter_all (p : A -> bool) (l : list A) :
  (forall x, In x l -> p x = true) -> filter p l = l.
Proof.
  intros H. apply forallb_filter_id. apply forallb_forall. exact H.
Qed.

Lemma filter_none (p : A -> bool) (l : list A) :
  (forall x, In x l -> p x = false) -> filter p l = [].
Proof.
  induction l as [| a l IH]; simpl; intros H; [ reflexivity | ].
  rewrite (H a) by now left. apply IH. intros x Hx. apply H. now right.
Qed.

Lemma filter_twice (p q : A -> bool) (l : list A) :
  filter p (filter q l) = filter (fun x => q x && p x) l.
Proof.
  induction l as [| a l IH]; simpl; [ reflexivity | ].
  destruct (q a); simpl; [ | exact IH ]. destruct (p a); now rewrite IH.
Qed.

Lemma map_filter_swap (f : A -> B) (p : A -> bool) (q : B -> bool) (l : list A) :
  (forall x, In x l -> p x = q (f x)) ->
  map f (filter p l) = filter q (map f l).
Proof.
  induction l as [| a l IH]; simpl; intros H; [ reflexivity | ].
  rewrite <- (H a) by now left.
  rewrite <- IH by (intros x Hx; apply H; now right).
  now destruct (p a).
Qed.

End ListFacts.

Section StoreFacts.
Import GraphService Sample StoreSample.

Lemma includes_iff (l : list string) (x : string) : includes l x = true <-> In x l.
Proof. apply JsSet_has_iff. Qed.

Lemma sameEdge_iff (edge e : GraphEdge.t) :
  sameEdge edge e = true <-> Extra.edgeKey e = Extra.edgeKey edge.
Proof.
  unfold sameEdge, Extra.edgeKey.
  rewrite !andb_true_iff, !String.eqb_eq, EdgeType_eqb_eq.
  split; [ intros [[-> ->] ->]; reflexivity | intros [= -> -> ->]; auto ].
Qed.

Lemma exists_sameEdge_iff (edge : GraphEdge.t) (es : list GraphEdge.t) :
  existsb (sameEdge edge) es = true <-> In (Extra.edgeKey edge) (map Extra.edgeKey es).
Proof.
  rewrite existsb_exists, in_map_iff. split.
  - intros (e & Hin & He). exists e. split; [ now apply sameEdge_iff | exact Hin ].
  - intros (e & He & Hin). exists e. split; [ exact Hin | now apply sameEdge_iff ].
Qed.

Lemma addEdge_uniqueTriples (w : World) (edge : GraphEdge.t) :
  Extra.uniqueTriples (edges (this w)) ->
  Extra.uniqueTriples (edges (this (addEdge edge w))).
Proof.
  intros Hu. unfold addEdge.
  destruct (existsb (sameEdge edge) (edges (this w))) eqn:E; cbn [negb]; [ exact Hu | ].
  cbn [this edges]. unfold Extra.uniqueTriples. rewrite map_app.
  apply NoDup_snoc; [ exact Hu | ].
  intros H. apply exists_sameEdge_iff in H. congruence.
Qed.

(** X1. [addEdge] keeps the edge list free of repeated
    (source, target, type) triples: an edge whose triple is already there is
    ignored, whatever its metadata, and a new one goes to the end. Calling it
    twice with the same edge is the same as calling it once. *)
Theorem X1_addEdge_keeps_triples_unique (w : World) (edge : GraphEdge.t) :
  Extra.uniqueTriples (edges (this w)) ->
  Extra.uniqueTriples (edges (this (addEdge edge w)))
  /\ addEdge edge (addEdge edge w) = addEdge edge w
  /\ (In (Extra.edgeKey edge) (map Extra.edgeKey (edges (this w))) ->
      addEdge edge w = w)
  /\ (~ In (Extra.edgeKey edge) (map Extra.edgeKey (edges (this w))) ->
      edges (this (addEdge edge w)) = edges (this w) ++ [edge]).
Proof.
  intros Hu. unfold addEdge.
  destruct (existsb (sameEdge edge) (edges (this w))) eqn:E; cbn [negb].
  - rewrite E. cbn [negb]. apply exists_sameEdge_iff in E. repeat split; tauto.
  - assert (Hnot : ~ In (Extra.edgeKey edge) (map Extra.edgeKey (edges (this w)))).
    { intros H. apply exists_sameEdge_iff in H. congruence. }
    cbn [this edges]. repeat split; try tauto.
    + unfold Extra.uniqueTriples. rewrite map_app. now apply NoDup_snoc.
    + rewrite existsb_app. simpl.
      replace (sameEdge edge edge) with true
        by (symmetry; now apply sameEdge_iff).
      now rewrite orb_true_r.
Qed.

Lemma X1_addEdge_keeps_triples_unique_witness :
  addEdge importEdgeAgain (addEdge importEdge freshWorld) = addEdge importEdge freshWorld
  /\ edges (this (addEdge legacyEdge (addEdge importEdge freshWorld)))
     = [importEdge; legacyEdge].
Proof.
  assert (U : Extra.uniqueTriples (edges (this (addEdge importEdge freshWorld)))).
  { repeat constructor. intros []. }
  split.
  - apply (X1_addEdge_keeps_triples_unique _ importEdgeAgain U). simpl. now left.
  - apply (X1_addEdge_keeps_triples_unique _ legacyEdge U).
    simpl. intros [H | []]. discriminate H.
Defined.

(** X2. Looking a node up after [addNode]: under the id of the added node
    one finds the node that was stored there before, if any, and the added
    node otherwise; every other id gives what it gave before. A node with a
    new id goes to the end of the node list. *)
Theorem X2_addNode_lookup (w : World) (node : GraphNode.t) :
  (forall k,
      JsMap.get k (nodes (this (addNode node w)))
      = if String.eqb (GraphNode.id node) k
        then match JsMap.get k (nodes (this w)) with
             | Some stored => Some stored
             | None => Some node
             end
        else JsMap.get k (nodes (this w)))
  /\ (JsMap.has (GraphNode.id node) (nodes (this w)) = false ->
      GraphData.nodes (getGraph (this (addNode node w)))
      = GraphData.nodes (getGraph (this w)) ++ [node]).
Proof.
  unfold addNode. split.
  - intros k. destruct (JsMap.has (GraphNode.id node) (nodes (this w))) eqn:E; cbn [negb].
    + unfold JsMap.has in E. destruct (String.eqb_spec (GraphNode.id node) k) as [<- | _];
        [ | reflexivity ].
      now destruct (JsMap.get (GraphNode.id node) (nodes (this w))).
    + cbn [this nodes]. rewrite get_set.
      destruct (String.eqb_spec (GraphNode.id node) k) as [<- | _]; [ | reflexivity ].
      unfold JsMap.has in E.
      now destruct (JsMap.get (GraphNode.id node) (nodes (this w))).
  - intros E. rewrite E. cbn [negb this nodes getGraph GraphData.nodes].
    rewrite set_absent by exact E. unfold JsMap.values. now rewrite map_app.
Qed.

Lemma X2_addNode_lookup_witness :
  GraphData.nodes (getGraph (this (addNode clientNode (addNode apiNode freshWorld))))
  = [apiNode; clientNode].
Proof.
  exact (proj2 (X2_addNode_lookup (addNode apiNode freshWorld) clientNode) eq_refl).
Defined.

End StoreFacts.

Section MapFilterFacts.
Context {V : Type}.
Implicit Types (m : JsMap.t V) (k : string).

Lemma keys_filter_incl (p : string * V -> bool) m k :
  In k (JsMap.keys (filter p m)) -> In k (JsMap.keys m).
Proof.
  unfold JsMap.keys. rewrite !in_map_iff. intros (x & Hx & Hin).
  apply filter_In in Hin. exists x. tauto.
Qed.

Lemma NoDup_keys_filter (p : string * V -> bool) m :
  NoDup (JsMap.keys m) -> NoDup (JsMap.keys (filter p m)).
Proof.
  induction m as [| [k v] m IH]; simpl; intros H; [ constructor | ].
  inversion H as [| ? ? Hnot Hm]; subst.
  destruct (p (k, v)); simpl; [ | now apply IH ].
  constructor; [ | now apply IH ].
  intros Hin. apply Hnot. now apply keys_filter_incl in Hin.
Qed.

Lemma delete_as_filter k m :
  NoDup (JsMap.keys m) ->
  JsMap.delete k m = filter (fun kv => negb (String.eqb (fst kv) k)) m.
Proof.
  induction m as [| [k0 v0] m IH]; simpl; intros H; [ reflexivity | ].
  inversion H as [| ? ? Hnot Hm]; subst.
  destruct (String.eqb_spec k0 k) as [-> | Hne]; simpl.
  - symmetry. apply filter_all. intros [k1 v1] Hin. simpl.
    apply negb_true_iff, String.eqb_neq. intros ->. apply Hnot.
    change (In (fst (k, v1)) (map fst m)). now apply in_map.
  - now rewrite IH.
Qed.

Lemma fold_delete_as_filter (ids : list string) m :
  NoDup (JsMap.keys m) ->
  fold_left (fun m i => JsMap.delete i m) ids m
  = filter (fun kv => negb (GraphService.includes ids (fst kv))) m.
Proof.
  revert m. induction ids as [| i ids IH]; simpl; intros m H.
  - symmetry. apply filter_true.
  - rewrite IH by now apply NoDup_keys_delete.
    rewrite delete_as_filter by exact H. rewrite filter_twice.
    apply filter_ext. intros [k v]. simpl. now rewrite negb_orb.
Qed.

End MapFilterFacts.

Section RemovalFacts.
Import GraphService Sample StoreSample.

Lemma removed_iff_owned (repo : string) (g : GraphService.t) (k : string) (n : GraphNode.t) :
  Spec.keyedById g -> In (k, n) (nodes g) ->
  includes (Extra.nodesToRemove repo g) k = ownedBy repo n.
Proof.
  intros [Hn Hk] Hin. pose proof (Hk _ _ Hin) as ->.
  destruct (ownedBy repo n) eqn:E.
  - apply includes_iff. unfold Extra.nodesToRemove. apply in_map.
    apply filter_In. split; [ | exact E ].
    change n with (snd (GraphNode.id n, n)). now apply in_map.
  - apply not_true_is_false. intros H. apply includes_iff in H.
    unfold Extra.nodesToRemove in H. apply in_map_iff in H.
    destruct H as (n' & Hid & Hin'). apply filter_In in Hin'. destruct Hin' as [Hin' Ho].
    apply in_map_iff in Hin'. destruct Hin' as ([k' n''] & Hs & Hin'). simpl in Hs. subst n''.
    pose proof (Hk _ _ Hin') as ->. rewrite Hid in Hin'.
    pose proof (In_get _ _ _ Hn Hin) as G1. pose proof (In_get _ _ _ Hn Hin') as G2.
    congruence.
Qed.

Lemma nodes_after_removal (repo : string) (w : World) :
  Spec.keyedById (this w) ->
  nodes (this (removeNodesByRepoId repo w))
  = filter (fun kv => negb (ownedBy repo (snd kv))) (nodes (this w)).
Proof.
  intros H. unfold removeNodesByRepoId, save. cbn [this nodes].
  fold (Extra.nodesToRemove repo (this w)).
  rewrite fold_delete_as_filter by apply H.
  apply filter_ext_in. intros [k n] Hin. simpl.
  now rewrite (removed_iff_owned repo (this w) k n H Hin).
Qed.

Lemma graph_nodes_after_removal (repo : string) (w : World) :
  Spec.keyedById (this w) ->
  GraphData.nodes (getGraph (this (removeNodesByRepoId repo w)))
  = filter (fun n => negb (ownedBy repo n)) (GraphData.nodes (getGraph (this w))).
Proof.
  intros H. unfold getGraph. cbn [GraphData.nodes].
  rewrite nodes_after_removal by exact H.
  unfold JsMap.values. apply map_filter_swap. reflexivity.
Qed.

(** X3. [removeNodesByRepoId repo], on an instance whose nodes are keyed by
    their ids: the nodes that stay are exactly those whose metadata does not
    carry [repo] (a node without metadata stays), in their order; the edges
    that stay are exactly those with neither end among the removed ids, in
    their order. So afterwards no node is owned by [repo] and no edge
    refers to a removed node. *)
Theorem X3_removeNodesByRepoId_result (repo : string) (w : World) :
  Spec.keyedById (this w) ->
  let after := getGraph (this (removeNodesByRepoId repo w)) in
  let removed := Extra.nodesToRemove repo (this w) in
  GraphData.nodes after
  = filter (fun n => negb (ownedBy repo n)) (GraphData.nodes (getGraph (this w)))
  /\ GraphData.edges after
     = filter (fun e => negb (Extra.touches removed e)) (edges (this w))
  /\ (forall n, In n (GraphData.nodes after) -> ownedBy repo n = false)
  /\ (forall e, In e (GraphData.edges after) ->
                ~ In (GraphEdge.source e) removed /\ ~ In (GraphEdge.target e) removed).
Proof.
  intros H after removed.
  assert (Hn : GraphData.nodes after
               = filter (fun n => negb (ownedBy repo n)) (GraphData.nodes (getGraph (this w)))).
  { subst after. now apply graph_nodes_after_removal. }
  assert (He : GraphData.edges after
               = filter (fun e => negb (Extra.touches removed e)) (edges (this w))).
  { subst after removed. unfold getGraph, removeNodesByRepoId, save.
    cbn [GraphData.edges this edges]. apply filter_ext. intros e.
    unfold Extra.touches, Extra.nodesToRemove. now rewrite negb_orb. }
  split; [ exact Hn | split; [ exact He | split ] ].
  - intros n Hin. rewrite Hn in Hin. apply filter_In in Hin.
    now apply negb_true_iff.
  - intros e Hin. rewrite He in Hin. apply filter_In in Hin. destruct Hin as [_ Hin].
    apply negb_true_iff, orb_false_iff in Hin. destruct Hin as [H1 H2].
    split; intros Hc; apply includes_iff in Hc; congruence.
Qed.

Lemma indexed_keyedById : Spec.keyedById (this indexed).
Proof.
  split.
  - simpl. repeat constructor; simpl; intuition discriminate.
  - intros k n Hin. simpl in Hin.
    destruct Hin as [[= <- <-] | [[= <- <-] | [[= <- <-] | []]]]; reflexivity.
Qed.

Lemma X3_removeNodesByRepoId_result_witness :
  GraphData.nodes (getGraph (this (removeNodesByRepoId "B" indexed)))
  = [apiNode; unownedClient]
  /\ GraphData.edges (getGraph (this (removeNodesByRepoId "B" indexed))) = [legacyEdge].
Proof.
  pose proof (X3_removeNodesByRepoId_result "B" indexed indexed_keyedById) as (H1 & H2 & _).
  split; [ exact (eq_trans H1 eq_refl) | exact (eq_trans H2 eq_refl) ].
Defined.

(** X4. [removeNodesByRepoId] is idempotent: a second call with the same
    repository changes neither the instance nor any file. *)
Theorem X4_removeNodesByRepoId_idempotent (repo : string) (w : World) :
  Spec.keyedById (this w) ->
  this (removeNodesByRepoId repo (removeNodesByRepoId repo w))
  = this (removeNodesByRepoId repo w)
  /\ forall f, disk (removeNodesByRepoId repo (removeNodesByRepoId repo w)) f
               = disk (removeNodesByRepoId repo w) f.
Proof.
  intros H.
  pose proof (removeNodesByRepoId_keyedById repo w H) as H'.
  set (w1 := removeNodesByRepoId repo w) in *.
  assert (Hnone : Extra.nodesToRemove repo (this w1) = []).
  { unfold Extra.nodesToRemove.
    pose proof (graph_nodes_after_removal repo w H) as Hv. fold w1 in Hv.
    unfold getGraph in Hv. cbn [GraphData.nodes] in Hv. rewrite Hv.
    rewrite filter_twice. rewrite filter_none; [ reflexivity | ].
    intros n _. now destruct (ownedBy repo n). }
  assert (Hthis : this (removeNodesByRepoId repo w1) = this w1).
  { unfold removeNodesByRepoId at 1. unfold save. cbn [this].
    fold (Extra.nodesToRemove repo (this w1)). rewrite Hnone. simpl.
    rewrite filter_true. now destruct (this w1). }
  split; [ exact Hthis | ].
  assert (Hp : Spec.persisted w1) by apply save_persisted.
  intros f.
  assert (Hd : disk (removeNodesByRepoId repo w1) f
               = if String.eqb f (graphFile (this w1))
                 then Some (Document (getGraph (this (removeNodesByRepoId repo w1))))
                 else disk w1 f) by reflexivity.
  rewrite Hd, Hthis.
  destruct (String.eqb_spec f (graphFile (this w1))) as [E | _]; [ | reflexivity ].
  rewrite E. symmetry. exact Hp.
Qed.

Lemma X4_removeNodesByRepoId_idempotent_witness :
  this (removeNodesByRepoId "B" (removeNodesByRepoId "B" indexed))
  = this (removeNodesByRepoId "B" indexed).
Proof. exact (proj1 (X4_removeNodesByRepoId_idempotent "B" indexed indexed_keyedById)). Defined.

End RemovalFacts.

Section RoundTripFacts.
Import GraphService Sample StoreSample.

Lemma clear_keyedById (w : World) : Spec.keyedById (this (clear w)).
Proof. split; [ constructor | intros k n [] ]. Qed.

Lemma save_keyedById (w : World) : Spec.keyedById (this w) -> Spec.keyedById (this (save w)).
Proof. auto. Qed.

(** X5. What an instance writes, a new instance reads back: after [save],
    after [removeNodesByRepoId] and after [clear], constructing a
    [GraphService] for the same project gives the state the old instance is
    in, provided its nodes are keyed by their ids. *)
Theorem X5_written_state_is_read_back (projectId : option string) (w : World) :
  Spec.keyedById (this w) ->
  graphFile (this w) = fileOf projectId ->
  new projectId (disk (save w)) = Ok (this w)
  /\ (forall repo, new projectId (disk (removeNodesByRepoId repo w))
                   = Ok (this (removeNodesByRepoId repo w)))
  /\ new projectId (disk (clear w)) = Ok (this (clear w))
  /\ getGraph (this (clear w)) = GraphData.mk [] [].
Proof.
  intros H Hf. unfold new. rewrite <- Hf. split; [ | split; [ | split ] ].
  - now apply save_then_load.
  - intros repo. now apply reload_after_removeNodesByRepoId.
  - unfold clear.
    match goal with |- context [save ?w0] => exact (save_then_load w0 (clear_keyedById w)) end.
  - reflexivity.
Qed.

Lemma X5_written_state_is_read_back_witness :
  new (Some "p1") (disk indexed) = Ok (this indexed).
Proof.
  exact (proj1 (X5_written_state_is_read_back (Some "p1") indexed indexed_keyedById eq_refl)).
Defined.

(** X6. Loading a graph document never gives two nodes with the same id:
    the instance is keyed by id, the ids come in the order of their first
    occurrence in the document, and under an id listed several times the
    last node of the document with that id is stored. A document in which
    every id occurs once is read back by [getGraph] as it is. *)
Theorem X6_load_keeps_last_node_per_id (projectId : option string) (d : Disk)
        (data : GraphData.t) :
  d (fileOf projectId) = Some (Document data) ->
  exists g : t,
    new projectId d = Ok g
    /\ Spec.keyedById g
    /\ (forall k, JsMap.get k (nodes g)
                  = find (fun n => String.eqb (GraphNode.id n) k)
                         (rev (GraphData.nodes data)))
    /\ map GraphNode.id (GraphData.nodes (getGraph g))
       = Spec.firstOccurrences (map GraphNode.id (GraphData.nodes data))
    /\ edges g = GraphData.edges data
    /\ (NoDup (map GraphNode.id (GraphData.nodes data)) -> getGraph g = data).
Proof.
  intros H. destruct (load_document _ _ _ H) as (g & Hg & Hn & Hk & He & Hf).
  exists g. unfold new. split; [ exact Hg | ]. split; [ now split | ].
  unfold load in Hg. rewrite H in Hg. injection Hg as <-. cbn [nodes edges getGraph] in *.
  split; [ | split; [ | split; [ reflexivity | ] ] ].
  - intros k. rewrite get_ofEntries, <- map_rev. apply get_keyed.
  - unfold getGraph. cbn [GraphData.nodes nodes]. rewrite ids_of_keyed by exact Hk.
    rewrite keys_ofEntries, map_map. reflexivity.
  - intros Hnd. unfold getGraph. cbn [nodes edges]. rewrite ofEntries_self.
    + unfold JsMap.values. rewrite map_map. simpl. rewrite map_id. now destruct data.
    + unfold JsMap.keys. rewrite map_map. exact Hnd.
Qed.

Lemma X6_load_keeps_last_node_per_id_witness :
  exists g : t, new (Some "p1") duplicateDisk = Ok g
                /\ GraphData.nodes (getGraph g) = [renamedApiNode; ownedClient].
Proof.
  destruct (X6_load_keeps_last_node_per_id (Some "p1") duplicateDisk duplicateDocument
              eq_refl) as (g & Hg & _).
  exists g. split; [ exact Hg | ].
  injection Hg as <-. reflexivity.
Defined.

Lemma filter_keeps_images_distinct {X Y : Type} (image : X -> Y) (keep : X -> bool)
      (xs : list X) (Hdistinct : NoDup (map image xs)) :
  NoDup (map image (filter keep xs)).
Proof.
  induction xs as [| x xs IH]; simpl in *; [ constructor | ].
  apply NoDup_cons_iff in Hdistinct. destruct Hdistinct as [Hnot Hxs].
  destruct (keep x); simpl; [ | now apply IH ].
  constructor; [ | now apply IH ].
  intros Hin. apply Hnot. apply in_map_iff in Hin. destruct Hin as (y & Hy & Hin).
  apply filter_In in Hin. apply in_map_iff. exists y. tauto.
Qed.

Lemma apply_invariants (w : World) (op : Extra.Op) :
  Spec.keyedById (this w) -> Extra.uniqueTriples (edges (this w)) ->
  Spec.keyedById (this (Extra.apply w op))
  /\ Extra.uniqueTriples (edges (this (Extra.apply w op)))
  /\ graphFile (this (Extra.apply w op)) = graphFile (this w).
Proof.
  intros Hk Hu. destruct op as [node | edge | repo | |]; cbn [Extra.apply].
  - split; [ now apply addNode_keyedById | ].
    unfold addNode. now destruct (negb _).
  - split; [ now apply addEdge_keyedById | ].
    split; [ now apply addEdge_uniqueTriples | ].
    unfold addEdge. now destruct (negb _).
  - split; [ now apply removeNodesByRepoId_keyedById | ].
    split; [ | reflexivity ].
    unfold removeNodesByRepoId, save. cbn [this edges]. now apply filter_keeps_images_distinct.
  - split; [ apply clear_keyedById | ]. split; [ constructor | reflexivity ].
  - auto.
Qed.

(** X7. Whatever sequence of [addNode], [addEdge], [removeNodesByRepoId],
    [clear] and [save] is run on an instance, it keeps its file, no two
    stored nodes share an id and no two edges share source, target and type,
    provided this held at the start, as it does for a new instance over a
    missing document. *)
Theorem X7_store_invariants (ops : list Extra.Op) (w : World) :
  Spec.keyedById (this w) -> Extra.uniqueTriples (edges (this w)) ->
  Spec.keyedById (this (Extra.run ops w))
  /\ NoDup (map GraphNode.id (GraphData.nodes (getGraph (this (Extra.run ops w)))))
  /\ Extra.uniqueTriples (edges (this (Extra.run ops w)))
  /\ graphFile (this (Extra.run ops w)) = graphFile (this w).
Proof.
  unfold Extra.run. revert w. induction ops as [| op ops IH]; simpl; intros w Hk Hu.
  - split; [ exact Hk | split; [ | split; [ exact Hu | reflexivity ] ] ].
    destruct Hk as [Hn Hkey]. unfold getGraph. cbn [GraphData.nodes].
    now rewrite ids_of_keyed.
  - destruct (apply_invariants w op Hk Hu) as (Hk' & Hu' & Hf').
    destruct (IH _ Hk' Hu') as (H1 & H2 & H3 & H4).
    rewrite Hf' in H4. auto.
Qed.

Lemma X7_store_invariants_witness :
  NoDup (map GraphNode.id (GraphData.nodes (getGraph (this indexed))))
  /\ Extra.uniqueTriples (edges (this indexed)).
Proof.
  assert (K : Spec.keyedById (this freshWorld)) by (split; [ constructor | intros k n [] ]).
  assert (U : Extra.uniqueTriples (edges (this freshWorld))) by constructor.
  destruct (X7_store_invariants
              [Extra.OpAddNode apiNode; Extra.OpAddNode ownedClient;
               Extra.OpAddNode unownedClient; Extra.OpAddEdge importEdge;
               Extra.OpAddEdge legacyEdge; Extra.OpSave] freshWorld K U)
    as (_ & H2 & H3 & _).
  split; [ exact H2 | exact H3 ].
Defined.

Lemma apply_disk_other (w : World) (op : Extra.Op) (f : string) :
  f <> graphFile (this w) -> disk (Extra.apply w op) f = disk w f.
Proof.
  intros Hf. apply String.eqb_neq in Hf.
  destruct op as [node | edge | repo | |]; cbn [Extra.apply].
  - unfold addNode. now destruct (negb _).
  - unfold addEdge. now destruct (negb _).
  - unfold removeNodesByRepoId, save, writeFile. cbn [disk this graphFile]. now rewrite Hf.
  - unfold clear, save, writeFile. cbn [disk this graphFile]. now rewrite Hf.
  - unfold save, writeFile. cbn [disk]. now rewrite Hf.
Qed.

Lemma apply_graphFile (w : World) (op : Extra.Op) :
  graphFile (this (Extra.apply w op)) = graphFile (this w).
Proof.
  destruct op as [node | edge | repo | |]; cbn [Extra.apply]; try reflexivity.
  - unfold addNode. now destruct (negb _).
  - unfold addEdge. now destruct (negb _).
Qed.

Lemma run_disk_other (ops : list Extra.Op) (w : World) (f : string) :
  f <> graphFile (this w) -> disk (Extra.run ops w) f = disk w f.
Proof.
  unfold Extra.run. revert w. induction ops as [| op ops IH]; simpl; intros w Hf;
    [ reflexivity | ].
  rewrite IH by (now rewrite apply_graphFile). now apply apply_disk_other.
Qed.

End RoundTripFacts.

(* ================================================================== *)
(** * Further properties of the analyzer *)

Section IdFacts.
Import ImpactAnalyzer JsString AnalyzerExtra Sample.

Lemma split_not_nil (sep : ascii) (s : string) : split sep s <> [].
Proof.
  destruct s as [| c r]; simpl; [ discriminate | ].
  destruct (Ascii.eqb c sep); [ discriminate | ].
  destruct (split sep r); discriminate.
Qed.

Lemma concat_cons (sep x : string) (xs : list string) :
  xs <> [] -> String.concat sep (x :: xs) = (x ++ sep ++ String.concat sep xs)%string.
Proof. destruct xs; [ congruence | reflexivity ]. Qed.

Lemma join_split (sep : ascii) (s : string) :
  join (String sep EmptyString) (split sep s) = s.
Proof.
  unfold join. induction s as [| c r IH]; [ reflexivity | ].
  cbn [split]. destruct (Ascii.eqb_spec c sep) as [-> | Hne].
  - rewrite concat_cons by apply split_not_nil. simpl. now rewrite IH.
  - pose proof (split_not_nil sep r) as Hnil.
    destruct (split sep r) as [| p ps]; [ congruence | ].
    destruct ps as [| q ps].
    + simpl in *. now rewrite IH.
    + rewrite concat_cons by discriminate. rewrite concat_cons in IH by discriminate.
      rewrite <- IH. reflexivity.
Qed.

Lemma split_no_sep (sep : ascii) (s : string) :
  hasChar sep s = false -> split sep s = [s].
Proof.
  induction s as [| c r IH]; simpl; [ reflexivity | ].
  destruct (Ascii.eqb c sep); simpl; [ discriminate | ].
  intros H. now rewrite IH.
Qed.

Lemma split_app (sep : ascii) (a b : string) :
  hasChar sep a = false ->
  split sep (a ++ String sep b) = a :: split sep b.
Proof.
  induction a as [| c a IH]; simpl.
  - intros _. now rewrite Ascii.eqb_refl.
  - destruct (Ascii.eqb c sep); simpl; [ discriminate | ].
    intros H. now rewrite IH.
Qed.

Lemma hd_split_no_sep (sep : ascii) (s : string) :
  hasChar sep (hd EmptyString (split sep s)) = false.
Proof.
  induction s as [| c r IH]; simpl; [ reflexivity | ].
  destruct (Ascii.eqb c sep) eqn:E; simpl; [ reflexivity | ].
  destruct (split sep r) as [| p ps]; simpl in *; rewrite E; simpl; auto.
Qed.

(** X9. Splitting a node id at its colons and joining the parts again gives
    the id back. For an id of the form [repo:path] with no colon in [repo],
    the walker and the scanner take [repo] as the repository and [path], with
    any further colons, as the file path; an id without a colon is taken as
    a repository with the empty path. The repository part never contains a
    colon. *)
Theorem X9_node_id_parts (id : string) :
  join ":" (split colon id) = id
  /\ hasChar colon (repoOf id) = false
  /\ (hasChar colon id = false -> repoOf id = id /\ pathOf id = EmptyString)
  /\ (forall repo path, hasChar colon repo = false ->
                        id = (repo ++ ":" ++ path)%string ->
                        repoOf id = repo /\ pathOf id = path).
Proof.
  split; [ apply join_split | ]. split; [ apply hd_split_no_sep | ]. split.
  - intros H. unfold repoOf, pathOf. now rewrite split_no_sep.
  - intros repo path H ->. unfold repoOf, pathOf.
    change (repo ++ ":" ++ path)%string with (repo ++ String colon path)%string.
    rewrite split_app by exact H. split; [ reflexivity | ]. apply join_split.
Qed.

Lemma X9_node_id_parts_witness :
  repoOf "B:src/a:b.ts" = "B" /\ pathOf "B:src/a:b.ts" = "src/a:b.ts".
Proof.
  exact (proj2 (proj2 (proj2 (X9_node_id_parts "B:src/a:b.ts"))) "B" "src/a:b.ts"
               eq_refl eq_refl).
Defined.

Lemma mapChars_mapChars (f g : ascii -> ascii) (s : string) :
  mapChars f (mapChars g s) = mapChars (fun c => f (g c)) s.
Proof. induction s as [| c r IH]; simpl; [ reflexivity | now rewrite IH ]. Qed.

Lemma mapChars_ext (f g : ascii -> ascii) (s : string) :
  (forall c, f c = g c) -> mapChars f s = mapChars g s.
Proof. intros H. induction s as [| c r IH]; simpl; [ reflexivity | now rewrite H, IH ]. Qed.

Lemma forward_of_backward (p : string) :
  toForwardSlashes (toBackslashes p) = toForwardSlashes p.
Proof.
  unfold toForwardSlashes, toBackslashes, replaceChar. rewrite mapChars_mapChars.
  apply mapChars_ext. intros c. cbv beta.
  destruct (Ascii.eqb_spec c slash) as [-> | _]; reflexivity.
Qed.

Lemma backward_of_forward (p : string) :
  toBackslashes (toForwardSlashes p) = toBackslashes p.
Proof.
  unfold toForwardSlashes, toBackslashes, replaceChar. rewrite mapChars_mapChars.
  apply mapChars_ext. intros c. cbv beta.
  destruct (Ascii.eqb_spec c backslash) as [-> | _]; reflexivity.
Qed.

Lemma forward_of_forward (p : string) :
  toForwardSlashes (toForwardSlashes p) = toForwardSlashes p.
Proof.
  unfold toForwardSlashes, replaceChar. rewrite mapChars_mapChars.
  apply mapChars_ext. intros c. cbv beta.
  destruct (Ascii.eqb c backslash) eqn:E; [ reflexivity | now rewrite E ].
Qed.

Lemma backward_of_backward (p : string) :
  toBackslashes (toBackslashes p) = toBackslashes p.
Proof.
  unfold toBackslashes, replaceChar. rewrite mapChars_mapChars.
  apply mapChars_ext. intros c. cbv beta.
  destruct (Ascii.eqb c slash) eqn:E; [ reflexivity | now rewrite E ].
Qed.

(** X10. Resolution does not depend on the separator style of the reported
    path. A path written with forward slashes and the same path written with
    backslashes resolve alike on every graph; and when the graph holds the
    forward-slash id of a path, every spelling of that path (any mix of the
    two separators) resolves to that id. *)
Theorem X10_resolution_ignores_separator_style
        (graph : GraphData.t) (repoId path : string) :
  resolveNode graph (possibleNodeIds repoId (toForwardSlashes path))
  = resolveNode graph (possibleNodeIds repoId (toBackslashes path))
  /\ (forall spelling,
         toForwardSlashes spelling = toForwardSlashes path ->
         Spec.hasNode graph (repoId ++ ":" ++ toForwardSlashes path) = true ->
         resolveNode graph (possibleNodeIds repoId spelling)
         = Some (repoId ++ ":" ++ toForwardSlashes path)%string).
Proof.
  split.
  - rewrite !resolveNode_find. unfold possibleNodeIds.
    rewrite forward_of_forward, forward_of_backward, backward_of_forward,
      backward_of_backward.
    simpl.
    repeat match goal with
           | |- context [Spec.hasNode graph ?x] => destruct (Spec.hasNode graph x)
           end; reflexivity.
  - intros spelling Hs Hn. rewrite resolveNode_find. unfold possibleNodeIds.
    rewrite Hs. cbn [find]. now rewrite Hn.
Qed.

Lemma X10_resolution_ignores_separator_style_witness :
  resolveNode scenarioGraph (possibleNodeIds "A" "src\api.ts") = Some "A:src/api.ts".
Proof.
  exact (proj2 (X10_resolution_ignores_separator_style scenarioGraph "A" "src/api.ts")
               "src\api.ts" eq_refl eq_refl).
Defined.

End IdFacts.

Section WalkMoreFacts.
Import ImpactAnalyzer JsString AnalyzerExtra Sample.

Lemma reachable_cases (graph : GraphData.t) (start x : string) :
  Spec.reachable graph start x ->
  x = start
  \/ exists e, In e (GraphData.edges graph) /\ GraphEdge.type e = IMPORTS
               /\ GraphEdge.target e = start.
Proof.
  intros H. induction H as [| e He Hty Ht IH]; [ now left | ].
  right. destruct IH as [E | IH]; [ | exact IH ].
  exists e. auto.
Qed.

Lemma length_crossRepoHits (changed src : string) (ids : list string) :
  List.length (Spec.crossRepoHits changed src ids) <= List.length ids.
Proof. unfold Spec.crossRepoHits. rewrite length_map. apply filter_length_le. Qed.

(** X11. The walker reports nothing but importers: every hit is the hit of
    a node, other than the changed one and outside the source repository,
    from which a chain of IMPORTS edges leads to the changed node. There are
    at most as many hits as edges, and none when no IMPORTS edge points at
    the changed node. *)
Theorem X11_walker_reports_only_importers
        (graph : GraphData.t) (start sourceRepoId : string) :
  exists hits,
    findAffectedFiles graph start sourceRepoId = Some hits
    /\ (forall h, In h hits ->
                  exists x, Spec.reachable graph start x /\ x <> start
                            /\ repoOf x <> sourceRepoId
                            /\ h = Spec.importHit start x)
    /\ List.length hits <= List.length (GraphData.edges graph)
    /\ ((forall e, In e (GraphData.edges graph) -> GraphEdge.type e = IMPORTS ->
                   GraphEdge.target e <> start) ->
        hits = []).
Proof.
  destruct (runWalk_ends graph start sourceRepoId) as (w & Hrun & Hinv & Hq & Hall).
  exists (affected w). unfold findAffectedFiles. rewrite Hrun. split; [ reflexivity | ].
  destruct (Spec.inv_start _ _ _ _ Hinv) as (rest & Hv & Ha & Hi).
  pose proof (Spec.inv_nodup _ _ _ _ Hinv) as Hn. rewrite Hv in Hn.
  inversion Hn as [| ? ? Hnot Hrest]; subst.
  assert (Hsound : forall h, In h (affected w) ->
                     exists x, Spec.reachable graph start x /\ x <> start
                               /\ repoOf x <> sourceRepoId
                               /\ h = Spec.importHit start x).
  { intros h Hh. rewrite Ha in Hh. apply In_crossRepoHits in Hh.
    destruct Hh as (x & Hx & Hne & ->). exists x. repeat split; auto.
    - apply (Spec.inv_reach _ _ _ _ Hinv). rewrite Hv. now right.
    - intros ->. contradiction. }
  split; [ exact Hsound | split ].
  - rewrite Ha. etransitivity; [ apply length_crossRepoHits | ].
    unfold Spec.edgeSources in Hi.
    rewrite <- (length_map GraphEdge.source (GraphData.edges graph)).
    now apply NoDup_incl_length.
  - intros Hno. destruct (affected w) as [| h hs] eqn:E; [ reflexivity | exfalso ].
    destruct (Hsound h (or_introl eq_refl)) as (x & Hx & Hne & _).
    destruct (reachable_cases _ _ _ Hx) as [-> | (e & He & Hty & Ht)]; [ congruence | ].
    exact (Hno e He Hty Ht).
Qed.

Lemma X11_walker_reports_only_importers_witness :
  findAffectedFiles
    (GraphData.mk [apiNode; clientNode]
                  [GraphEdge.mk "B:src/client.ts" "A:src/api.ts" CALLS None])
    "A:src/api.ts" "A"
  = Some [].
Proof.
  destruct (X11_walker_reports_only_importers
              (GraphData.mk [apiNode; clientNode]
                            [GraphEdge.mk "B:src/client.ts" "A:src/api.ts" CALLS None])
              "A:src/api.ts" "A") as (hits & Hf & _ & _ & Hnone).
  rewrite Hf. f_equal. apply Hnone.
  intros e [<- | []] Hty. discriminate Hty.
Defined.

Lemma dependentEdges_imports_only (ns ns' : list GraphNode.t) (es : list GraphEdge.t)
      (cur : string) :
  dependentEdges (GraphData.mk ns' (filter isImports es)) cur
  = dependentEdges (GraphData.mk ns es) cur.
Proof.
  unfold dependentEdges. cbn [GraphData.edges]. rewrite filter_twice.
  apply filter_ext. intros e. unfold isImports.
  destruct (EdgeType_eqb (GraphEdge.type e) IMPORTS); [ reflexivity | ].
  now rewrite andb_false_r.
Qed.

Lemma walk_imports_only (ns ns' : list GraphNode.t) (es : list GraphEdge.t)
      (start src : string) (fuel : nat) (w : Walk) :
  walk fuel (GraphData.mk ns' (filter isImports es)) start src w
  = walk fuel (GraphData.mk ns es) start src w.
Proof.
  revert w. induction fuel as [| fuel IH]; intros w; rewrite !walk_unfold;
    destruct (queue w) as [| cur rest]; try reflexivity.
  unfold iterate. rewrite (dependentEdges_imports_only ns ns' es). apply IH.
Qed.

(** X12. The walker reads the IMPORTS edges and nothing else: edges of any
    other kind and the node list make no difference to what it returns, so
    an edge whose ends are not nodes of the graph is followed like any
    other. *)
Theorem X12_walker_reads_imports_edges_only
        (ns ns' : list GraphNode.t) (es : list GraphEdge.t) (start sourceRepoId : string) :
  findAffectedFiles (GraphData.mk ns es) start sourceRepoId
  = findAffectedFiles (GraphData.mk ns' (filter isImports es)) start sourceRepoId.
Proof.
  destruct (runWalk_ends (GraphData.mk ns' (filter isImports es)) start sourceRepoId)
    as (w & Hrun & _).
  unfold findAffectedFiles. rewrite Hrun. unfold runWalk in *.
  apply (walk_more_fuel _ _ _ _ (walkFuel (GraphData.mk ns es))) in Hrun.
  - rewrite (walk_imports_only ns ns' es) in Hrun. now rewrite Hrun.
  - unfold walkFuel. cbn [GraphData.edges]. apply le_n_S, filter_length_le.
Qed.

End WalkMoreFacts.

Section ResultFacts.
Import ImpactAnalyzer JsString AnalyzerExtra Sample.

Lemma classify_breaking (env : Env.t) (graph : GraphData.t) (repoId : string)
      (oldContent newContent : option string) (explanation : string)
      (semantic : list AffectedFile.t) :
  classify env graph repoId oldContent newContent = (true, explanation, semantic) ->
  explanation <> EmptyString
  /\ exists o n, oldContent = Some o /\ newContent = Some n
                 /\ truthy oldContent && truthy newContent = true.
Proof.
  unfold classify.
  destruct oldContent as [o |], newContent as [n |]; try discriminate.
  destruct (truthy (Some o) && truthy (Some n)) eqn:T; [ | discriminate ].
  destruct (Env.generateContent env _ _) as [| | | result]; try discriminate.
  intros H.
  assert (He : explanation
               = if truthy (AIResult.explanation result)
                 then match AIResult.explanation result with
                      | Some e => e
                      | None => "Analyzed by AI"
                      end
                 else "Analyzed by AI").
  { destruct (0 <? _); now injection H. }
  split; [ | exists o, n; auto ].
  rewrite He. destruct (AIResult.explanation result) as [e |]; simpl; [ | discriminate ].
  destruct (String.eqb_spec e EmptyString); simpl; [ discriminate | assumption ].
Qed.

(** X13. The severity of a returned result is decided by the number of
    affected files alone: CRITICAL for more than five, HIGH for one to five,
    LOW for none; MEDIUM is never returned. A result with affected files is
    always a breaking one. *)
Theorem X13_returned_severity (env : Env.t) (projectId repoId filePath : string)
        (oldContent newContent : option string) (r : ImpactResult.t) :
  analyzeFileChange env projectId repoId filePath oldContent newContent = Some (Ok r) ->
  let count := List.length (ImpactResult.affectedFiles r) in
  ImpactResult.severity r <> MEDIUM
  /\ (ImpactResult.severity r = CRITICAL <-> 5 < count)
  /\ (ImpactResult.severity r = HIGH <-> 1 <= count <= 5)
  /\ (ImpactResult.severity r = LOW <-> count = 0)
  /\ (0 < count -> ImpactResult.isBreaking r = true).
Proof.
  unfold analyzeFileChange.
  destruct (GraphService.new _ _) as [[g | stored file | file] | e];
    [ | | discriminate | discriminate ].
  2: { destruct (resolveNode _ _); [ discriminate | ].
       intros [= <-]. cbn. repeat split; try discriminate; try lia; auto. }
  destruct (resolveNode _ _) as [changedNodeId |].
  - destruct (findAffectedFiles _ _ _) as [hits |]; [ | discriminate ].
    destruct (classify _ _ _ _ _) as [[isBreaking explanation] semantic].
    destruct isBreaking; cbn [negb]; intros [= <-]; cbn.
    + generalize (List.length (uniqueAffectedFiles (hits ++ semantic))). intros n.
      unfold determineSeverity. cbn [andb].
      destruct (Nat.ltb_spec 5 n); destruct (Nat.ltb_spec 0 n);
        destruct (Nat.ltb_spec 10 n);
        repeat split; intros; try discriminate; try lia; auto.
    + repeat split; try discriminate; try lia; auto.
  - intros [= <-]. cbn. repeat split; try discriminate; try lia; auto.
Qed.

Lemma X13_returned_severity_witness :
  exists r,
    analyzeFileChange breakingEnv "p1" "A" "src/api.ts" (Some "old") (Some "new")
    = Some (Ok r)
    /\ ImpactResult.severity r = HIGH.
Proof.
  eexists. split; [ reflexivity | ].
  apply (X13_returned_severity breakingEnv "p1" "A" "src/api.ts" (Some "old") (Some "new")
           _ eq_refl).
  simpl. lia.
Defined.

(** X14. Over a graph document with well-typed nodes, [analyzeFileChange]
    always ends, and fails in two cases only. A failure to load the graph
    document is passed on unchanged. A document with an array of nodes and
    no array of edges loads; the call then throws a [TypeError] when the
    changed file is found among its nodes (the walk reads the edges) and
    returns the empty result when it is not. Over a document with an array
    of nodes and an array of edges, and over a missing one, whatever the
    classifier replies and whatever the working copies hold, it returns a
    result. Nothing is said of a document with ill-typed nodes or edges. *)
Theorem X14_analyzer_failures (env : Env.t) (projectId repoId filePath : string)
        (oldContent newContent : option string) :
  match GraphService.new (Some projectId) (Env.disk env) with
  | Throw e =>
      analyzeFileChange env projectId repoId filePath oldContent newContent
      = Some (Throw e)
  | Ok (GraphService.Typed _) =>
      exists r, analyzeFileChange env projectId repoId filePath oldContent newContent
                = Some (Ok r)
  | Ok (GraphService.Untyped stored _) =>
      analyzeFileChange env projectId repoId filePath oldContent newContent
      = if existsb (Spec.hasNode (GraphData.mk (JsMap.values stored) []))
                   (possibleNodeIds repoId filePath)
        then Some (Throw TypeError)
        else Some (Ok (createEmptyResult (Env.now env) projectId repoId filePath))
  | Ok (GraphService.Opaque _) => True
  end.
Proof.
  destruct (GraphService.new (Some projectId) (Env.disk env))
    as [[g | stored file | file] | e] eqn:E.
  3: exact I.
  - now apply (analyzeFileChange_returns _ _ _ _ _ _ g).
  - unfold analyzeFileChange. rewrite E.
    rewrite resolveNode_find.
    destruct (find _ _) as [nodeId |] eqn:F.
    + apply find_some in F.
      assert (X : existsb (Spec.hasNode (GraphData.mk (JsMap.values stored) []))
                          (possibleNodeIds repoId filePath) = true)
        by (apply existsb_exists; eauto).
      now rewrite X.
    + assert (X : existsb (Spec.hasNode (GraphData.mk (JsMap.values stored) []))
                          (possibleNodeIds repoId filePath) = false).
      { apply not_true_is_false. intros X. apply existsb_exists in X.
        destruct X as (i & Hin & Hi). now rewrite (find_none _ _ F i Hin) in Hi. }
      now rewrite X.
  - unfold analyzeFileChange. now rewrite E.
Qed.

Lemma X14_analyzer_failures_witness :
  analyzeFileChange (Env.mk nodesOnlyDisk (fun _ _ => CallFails) workingCopies "now")
                    "p1" "B" "src/client.ts" None None
  = Some (Throw TypeError)
  /\ analyzeFileChange (Env.mk nodesOnlyDisk (fun _ _ => CallFails) workingCopies "now")
                       "p1" "A" "src/api.ts" None None
     = Some (Ok (createEmptyResult "now" "p1" "A" "src/api.ts"))
  /\ analyzeFileChange (Env.mk corruptDisk (fun _ _ => CallFails) workingCopies "now")
                       "p1" "A" "src/api.ts" None None
     = Some (Throw SyntaxError).
Proof.
  split; [ | split ].
  - exact (X14_analyzer_failures
             (Env.mk nodesOnlyDisk (fun _ _ => CallFails) workingCopies "now")
             "p1" "B" "src/client.ts" None None).
  - exact (X14_analyzer_failures
             (Env.mk nodesOnlyDisk (fun _ _ => CallFails) workingCopies "now")
             "p1" "A" "src/api.ts" None None).
  - exact (X14_analyzer_failures
             (Env.mk corruptDisk (fun _ _ => CallFails) workingCopies "now")
             "p1" "A" "src/api.ts" None None).
Defined.

(** X15. When the classifier cannot be used (the call fails, the reply
    holds no JSON object, or the object does not parse) the change counts as
    not breaking: for a file found in the graph the analyzer returns no
    affected files, severity LOW and the explanation "File modified",
    whatever the walker found. *)
Theorem X15_unusable_classifier_reply (env : Env.t) (projectId repoId filePath : string)
        (oldContent newContent : option string) (g : GraphService.t) (nodeId : string) :
  GraphService.new (Some projectId) (Env.disk env) = Ok g ->
  resolveNode (GraphService.getGraph g) (possibleNodeIds repoId filePath) = Some nodeId ->
  (forall o n result, Env.generateContent env o n <> Json result) ->
  analyzeFileChange env projectId repoId filePath oldContent newContent
  = Some (Ok (ImpactResult.mk projectId filePath repoId [] None false LOW
                "File modified" (Env.now env))).
Proof.
  intros Hnew Hres Hfail. unfold analyzeFileChange. rewrite Hnew, Hres.
  destruct (findAffectedFiles_returns (GraphService.getGraph g) nodeId repoId) as (hits & ->).
  assert (Hc : classify env (GraphService.getGraph g) repoId oldContent newContent
               = (false, "File modified", [])).
  { unfold classify. destruct oldContent as [o |], newContent as [n |]; try reflexivity.
    destruct (truthy (Some o) && truthy (Some n)); [ | reflexivity ].
    destruct (Env.generateContent env (take 2000 o) (take 2000 n)) as [| | | result] eqn:E;
      try reflexivity.
    now apply Hfail in E. }
  rewrite Hc. reflexivity.
Qed.

Lemma X15_unusable_classifier_reply_witness :
  analyzeFileChange
    (Env.mk scenarioDisk (fun _ _ => BadJson) workingCopies "now")
    "p1" "A" "src/api.ts" (Some "old") (Some "new")
  = Some (Ok (ImpactResult.mk "p1" "src/api.ts" "A" [] None false LOW
                "File modified" "now")).
Proof.
  apply (X15_unusable_classifier_reply
           (Env.mk scenarioDisk (fun _ _ => BadJson) workingCopies "now")
           "p1" "A" "src/api.ts" (Some "old") (Some "new") _ "A:src/api.ts" eq_refl eq_refl).
  intros o n result. discriminate.
Defined.

(** X16. A returned result echoes the project, the file path as reported
    and the repository, carries the time of the call and a non-empty
    explanation. It is breaking only when both contents were supplied and
    non-empty, and then it carries them as its diff; a result that is not
    breaking carries no diff, even when both contents were supplied. *)
Theorem X16_result_fields (env : Env.t) (projectId repoId filePath : string)
        (oldContent newContent : option string) (r : ImpactResult.t) :
  analyzeFileChange env projectId repoId filePath oldContent newContent = Some (Ok r) ->
  ImpactResult.projectId r = projectId
  /\ ImpactResult.changedFile r = filePath
  /\ ImpactResult.changedRepo r = repoId
  /\ ImpactResult.timestamp r = Env.now env
  /\ ImpactResult.explanation r <> EmptyString
  /\ (ImpactResult.isBreaking r = true ->
      exists o n, oldContent = Some o /\ newContent = Some n
                  /\ o <> EmptyString /\ n <> EmptyString
                  /\ ImpactResult.diff r = Some (o, n))
  /\ (ImpactResult.isBreaking r = false -> ImpactResult.diff r = None).
Proof.
  unfold analyzeFileChange.
  destruct (GraphService.new _ _) as [[g | stored file | file] | e];
    [ | | discriminate | discriminate ].
  2: { destruct (resolveNode _ _); [ discriminate | ].
       intros [= <-]. cbn. repeat split; auto; discriminate. }
  destruct (resolveNode _ _) as [changedNodeId |].
  - destruct (findAffectedFiles _ _ _) as [hits |]; [ | discriminate ].
    destruct (classify _ _ _ _ _) as [[isBreaking explanation] semantic] eqn:Hc.
    destruct isBreaking; cbn [negb]; intros [= <-]; cbn.
    + destruct (classify_breaking _ _ _ _ _ _ _ Hc) as (He & o & n & -> & -> & T).
      rewrite T. repeat split; auto; try discriminate.
      intros _. exists o, n. apply andb_true_iff in T. destruct T as [To Tn].
      unfold truthy in To, Tn. apply negb_true_iff, String.eqb_neq in To, Tn.
      repeat split; auto.
    + repeat split; auto; try discriminate.
      destruct (String.eqb_spec explanation EmptyString); [ discriminate | assumption ].
  - intros [= <-]. cbn. repeat split; auto; discriminate.
Qed.

Lemma X16_result_fields_witness :
  exists r,
    analyzeFileChange harmlessEnv "p1" "A" "src/api.ts" (Some "old") (Some "new")
    = Some (Ok r)
    /\ ImpactResult.diff r = None.
Proof.
  eexists. split; [ reflexivity | ].
  apply (X16_result_fields harmlessEnv "p1" "A" "src/api.ts" (Some "old") (Some "new")
           _ eq_refl).
  reflexivity.
Defined.

End ResultFacts.

Section DedupMoreFacts.
Import ImpactAnalyzer JsString AnalyzerExtra Sample.

Lemma get_absent {V} (k : string) (m : JsMap.t V) :
  ~ In k (JsMap.keys m) -> JsMap.get k m = None.
Proof.
  intros H. apply has_false_iff in H. unfold JsMap.has in H.
  now destruct (JsMap.get k m).
Qed.

Lemma map_eq_by_get {V} (m1 m2 : JsMap.t V) :
  NoDup (JsMap.keys m1) -> JsMap.keys m1 = JsMap.keys m2 ->
  (forall k, JsMap.get k m1 = JsMap.get k m2) -> m1 = m2.
Proof.
  revert m2. induction m1 as [| [k v] m1 IH]; intros [| [k' v'] m2]; simpl;
    intros Hn Hk Hg; try discriminate; [ reflexivity | ].
  injection Hk as <- Hk. inversion Hn as [| ? ? Hnot Hn1]; subst.
  pose proof (Hg k) as Hv. rewrite String.eqb_refl in Hv. injection Hv as <-.
  f_equal. apply IH; auto. intros k0. specialize (Hg k0).
  destruct (String.eqb_spec k k0) as [E | _]; [ | exact Hg ].
  subst k0. rewrite !get_absent; auto. now rewrite <- Hk.
Qed.

Lemma get_app {V} (k : string) (a b : JsMap.t V) :
  JsMap.get k (a ++ b)
  = match JsMap.get k a with Some v => Some v | None => JsMap.get k b end.
Proof.
  induction a as [| [k0 v0] a IH]; simpl; [ reflexivity | ].
  destruct (String.eqb k0 k); [ reflexivity | exact IH ].
Qed.

Lemma firstOccurrences_app_incl (a b : list string) :
  incl b a -> Spec.firstOccurrences (a ++ b) = Spec.firstOccurrences a.
Proof.
  induction b as [| k b IH] using rev_ind; intros H; [ now rewrite app_nil_r | ].
  rewrite app_assoc, firstOccurrences_snoc.
  assert (Hk : existsb (String.eqb k) (a ++ b) = true).
  { apply existsb_exists. exists k. split; [ | apply String.eqb_refl ].
    apply in_app_iff. left. apply H. apply in_app_iff. right. now left. }
  rewrite Hk. apply IH. intros x Hx. apply H. apply in_app_iff. now left.
Qed.

Lemma firstOccurrences_In (ks : list string) (k : string) :
  In k ks -> In k (Spec.firstOccurrences ks).
Proof.
  induction ks as [| a ks IH]; simpl; [ tauto | ].
  destruct (String.eqb_spec k a) as [-> | Hne]; [ now left | ].
  intros [H | H]; [ congruence | ]. right. apply filter_In.
  split; [ now apply IH | ]. now apply negb_true_iff, String.eqb_neq.
Qed.

Lemma length_firstOccurrences (ks : list string) :
  List.length (Spec.firstOccurrences ks) <= List.length ks.
Proof.
  induction ks as [| a ks IH]; simpl; [ lia | ].
  apply le_n_S. etransitivity; [ apply filter_length_le | exact IH ].
Qed.

Lemma unique_keys (l : list AffectedFile.t) :
  map dedupKey (uniqueAffectedFiles l) = Spec.firstOccurrences (map dedupKey l).
Proof.
  unfold uniqueAffectedFiles. rewrite keyed_values by apply ofEntries_keyed.
  rewrite keys_ofEntries. unfold dedupEntries. now rewrite map_map.
Qed.

Lemma keys_dedupEntries (l : list AffectedFile.t) :
  JsMap.keys (dedupEntries l) = map dedupKey l.
Proof. unfold JsMap.keys, dedupEntries. now rewrite map_map. Qed.

Lemma values_dedupEntries (l : list AffectedFile.t) :
  JsMap.values (dedupEntries l) = l.
Proof. unfold JsMap.values, dedupEntries. rewrite map_map. apply map_id. Qed.

Lemma unique_distinct (l : list AffectedFile.t) :
  NoDup (map dedupKey l) -> uniqueAffectedFiles l = l.
Proof.
  intros H. unfold uniqueAffectedFiles.
  rewrite ofEntries_self by now rewrite keys_dedupEntries.
  apply values_dedupEntries.
Qed.

(** X17. Deduplication is idempotent and stable: a sequence whose keys are
    already distinct is returned as it is, deduplicating twice is the same as
    once, and so is deduplicating a sequence followed by itself. *)
Theorem X17_dedup_idempotent (l : list AffectedFile.t) :
  uniqueAffectedFiles (uniqueAffectedFiles l) = uniqueAffectedFiles l
  /\ uniqueAffectedFiles (l ++ l) = uniqueAffectedFiles l
  /\ (NoDup (map dedupKey l) -> uniqueAffectedFiles l = l).
Proof.
  split; [ | split; [ | apply unique_distinct ] ].
  - apply unique_distinct. rewrite unique_keys. apply firstOccurrences_NoDup.
  - unfold uniqueAffectedFiles. f_equal. unfold dedupEntries. rewrite map_app.
    fold (dedupEntries l). apply map_eq_by_get.
    + apply NoDup_keys_ofEntries.
    + rewrite !keys_ofEntries, map_app. apply firstOccurrences_app_incl, incl_refl.
    + intros k. rewrite !get_ofEntries, rev_app_distr, get_app.
      now destruct (JsMap.get k (rev (dedupEntries l))).
Qed.

Lemma X17_dedup_idempotent_witness :
  uniqueAffectedFiles [structuralHit] = [structuralHit].
Proof.
  apply (proj2 (proj2 (X17_dedup_idempotent [structuralHit]))).
  repeat constructor. intros [].
Defined.

(** X18. Deduplication neither invents nor loses a file: every hit it
    returns is one of the merged hits, every merged hit has its key among
    those of the result, and the result is no longer than the input. *)
Theorem X18_dedup_conserves_keys (l : list AffectedFile.t) :
  incl (uniqueAffectedFiles l) l
  /\ (forall f, In f l ->
                exists f', In f' (uniqueAffectedFiles l) /\ dedupKey f' = dedupKey f)
  /\ List.length (uniqueAffectedFiles l) <= List.length l.
Proof.
  split; [ | split ].
  - intros f Hin. unfold uniqueAffectedFiles in Hin. apply in_map_iff in Hin.
    destruct Hin as ([k g] & Hg & Hin). simpl in Hg. subst g.
    apply In_get in Hin; [ | apply NoDup_keys_ofEntries ].
    rewrite get_ofEntries in Hin. apply get_In in Hin. apply in_rev in Hin.
    unfold dedupEntries in Hin. apply in_map_iff in Hin.
    destruct Hin as (x & Hx & Hin). now injection Hx as _ <-.
  - intros f Hin.
    assert (Hk : In (dedupKey f) (map dedupKey (uniqueAffectedFiles l))).
    { rewrite unique_keys. apply firstOccurrences_In. now apply in_map. }
    apply in_map_iff in Hk. destruct Hk as (f' & Hk & Hin'). eauto.
  - rewrite <- (length_map dedupKey (uniqueAffectedFiles l)), unique_keys.
    etransitivity; [ apply length_firstOccurrences | ]. now rewrite length_map.
Qed.

Lemma X18_dedup_conserves_keys_witness :
  exists f', In f' (uniqueAffectedFiles [structuralHit; semanticHit])
             /\ dedupKey f' = dedupKey structuralHit.
Proof.
  apply (proj1 (proj2 (X18_dedup_conserves_keys [structuralHit; semanticHit]))).
  now left.
Defined.

Lemma lowerChar_after_slash (c : ascii) :
  lowerChar (if Ascii.eqb (lowerChar c) backslash then slash else lowerChar c)
  = lowerChar (if Ascii.eqb c backslash then slash else c).
Proof. destruct c as [[] [] [] [] [] [] [] []]; reflexivity. Qed.

Lemma normalized_lower (p : string) :
  toLowerCase (toForwardSlashes (toLowerCase p)) = toLowerCase (toForwardSlashes p).
Proof.
  unfold toLowerCase, toForwardSlashes, replaceChar. rewrite !mapChars_mapChars.
  apply mapChars_ext. apply lowerChar_after_slash.
Qed.

Lemma key_repo_path (r1 r2 p1 p2 : string) :
  hasChar colon r1 = false -> hasChar colon r2 = false ->
  (r1 ++ ":" ++ p1)%string = (r2 ++ ":" ++ p2)%string -> r1 = r2 /\ p1 = p2.
Proof.
  intros H1 H2 E.
  assert (Hs : split colon (r1 ++ String colon p1) = split colon (r2 ++ String colon p2))
    by (now f_equal).
  rewrite !split_app in Hs by assumption. injection Hs as -> _.
  split; [ reflexivity | ]. apply append_cancel_l in E. now injection E.
Qed.

(** X19. The deduplication key is insensitive to the case and to the
    separator style of the file path and sensitive to the repository: turning
    the slashes of a path either way or lower-casing it does not change the
    key, and two hits whose repository ids hold no colon have the same key
    exactly when the repository ids are equal and the paths are equal once
    normalized. *)
Theorem X19_dedup_key_normalization (f1 f2 : AffectedFile.t) :
  let normalize p := toLowerCase (toForwardSlashes p) in
  (forall r p reason context reason' context',
      dedupKey (AffectedFile.mk r (toBackslashes p) reason context)
      = dedupKey (AffectedFile.mk r p reason' context')
      /\ dedupKey (AffectedFile.mk r (toForwardSlashes p) reason context)
         = dedupKey (AffectedFile.mk r p reason' context')
      /\ dedupKey (AffectedFile.mk r (toLowerCase p) reason context)
         = dedupKey (AffectedFile.mk r p reason' context'))
  /\ (hasChar colon (AffectedFile.repoId f1) = false ->
      hasChar colon (AffectedFile.repoId f2) = false ->
      (dedupKey f1 = dedupKey f2
       <-> AffectedFile.repoId f1 = AffectedFile.repoId f2
           /\ normalize (AffectedFile.filePath f1) = normalize (AffectedFile.filePath f2))).
Proof.
  intros normalize. split.
  - intros r p reason context reason' context'. unfold dedupKey. cbn [AffectedFile.repoId AffectedFile.filePath].
    now rewrite forward_of_backward, forward_of_forward, normalized_lower.
  - intros H1 H2. unfold dedupKey. split.
    + intros E. now apply key_repo_path in E.
    + intros [-> E]. subst normalize. cbv beta in E. now rewrite E.
Qed.

Lemma X19_dedup_key_normalization_witness :
  dedupKey (AffectedFile.mk "B" "SRC\Client.ts" "r1" None)
  = dedupKey (AffectedFile.mk "B" "src/client.ts" "r2" None)
  /\ dedupKey (AffectedFile.mk "b" "src/client.ts" "r1" None)
     <> dedupKey (AffectedFile.mk "B" "src/client.ts" "r1" None).
Proof.
  pose proof (proj2 (X19_dedup_key_normalization
                       (AffectedFile.mk "B" "SRC\Client.ts" "r1" None)
                       (AffectedFile.mk "B" "src/client.ts" "r2" None)) eq_refl eq_refl) as H.
  pose proof (proj2 (X19_dedup_key_normalization
                       (AffectedFile.mk "b" "src/client.ts" "r1" None)
                       (AffectedFile.mk "B" "src/client.ts" "r1" None)) eq_refl eq_refl) as H'.
  split.
  - apply H. split; reflexivity.
  - intros E. apply H' in E. destruct E as [E _]. discriminate E.
Defined.

End DedupMoreFacts.

Section ScanMoreFacts.
Import ImpactAnalyzer JsString AnalyzerExtra Sample.

Variable readRepoFile : string -> string -> option string.
Variable functionList : list string.

Lemma replaceChar_same (x : ascii) (s : string) : replaceChar x x s = s.
Proof.
  unfold replaceChar. induction s as [| c r IH]; simpl; [ reflexivity | ].
  rewrite IH. destruct (Ascii.eqb_spec c x) as [-> | _]; reflexivity.
Qed.

Lemma firstUsage_some (fn : string) (added : JsSet.t) (rest : list string) (j i : nat) :
  firstUsage fn added rest j = Some i ->
  j <= i < j + List.length rest
  /\ regexTest fn (nth (i - j) rest EmptyString) = true
  /\ JsSet.has (usageOf fn i) added = false.
Proof.
  revert j. induction rest as [| l r IH]; simpl; intros j; [ discriminate | ].
  destruct (regexTest fn l && negb (JsSet.has (usageOf fn j) added)) eqn:E.
  - intros [= <-]. apply andb_true_iff in E. destruct E as [E1 E2].
    apply negb_true_iff in E2. rewrite Nat.sub_diag. repeat split; auto; lia.
  - intros H. apply IH in H. destruct H as (H1 & H2 & H3).
    repeat split; auto; try lia.
    replace (i - j) with (S (i - S j)) by lia. exact H2.
Qed.

Section OneFile.
Variables fileRepoId filePathStr fileContent : string.

Local Abbreviation scanFn :=
  (scanFunction fileRepoId filePathStr fileContent (split newline fileContent)).

Local Abbreviation hitFor := (AnalyzerExtra.hitFor fileRepoId filePathStr fileContent).

Lemma scanFunction_hits (st : JsSet.t * list AffectedFile.t) (fn : string) :
  (snd (scanFn st fn) = snd st)
  \/ (exists h, snd (scanFn st fn) = snd st ++ [h] /\ hitFor fn h).
Proof.
  destruct st as [added hits]. unfold scanFunction.
  destruct (regexTest fn fileContent) eqn:E; [ | now left ].
  destruct (firstUsage fn added (split newline fileContent) 0) as [i |] eqn:F; [ | now left ].
  right. eexists. split; [ reflexivity | ].
  apply firstUsage_some in F. destruct F as (H1 & H2 & _). rewrite Nat.sub_0_r in H2.
  exists i. repeat split; auto. lia.
Qed.

Lemma fold_scanFunction_hits (fl : list string) (st : JsSet.t * list AffectedFile.t) :
  (forall h, In h (snd (fold_left scanFn fl st)) ->
             In h (snd st) \/ exists fn, In fn fl /\ hitFor fn h)
  /\ List.length (snd (fold_left scanFn fl st)) <= List.length (snd st) + List.length fl.
Proof.
  revert st. induction fl as [| fn fl IH]; intros st; simpl.
  - split; [ auto | lia ].
  - destruct (IH (scanFn st fn)) as (H1 & H2).
    destruct (scanFunction_hits st fn) as [E | (h0 & E & Hh0)]; rewrite E in *.
    + split; [ | lia ]. intros h Hh. apply H1 in Hh.
      destruct Hh as [Hh | (fn' & Hin & Hh)]; [ now left | right; eauto ].
    + split; [ | rewrite length_app in H2; simpl in H2; lia ].
      intros h Hh. apply H1 in Hh.
      destruct Hh as [Hh | (fn' & Hin & Hh)]; [ | right; eauto ].
      apply in_app_iff in Hh. destruct Hh as [Hh | [<- | []]]; [ now left | ].
      right. eauto.
Qed.

End OneFile.

Local Abbreviation scanStep := (scanFile readRepoFile functionList).

Lemma scanFile_hits (st : Scan) (file : GraphNode.t) :
  scanStep st file = st
  \/ (scanned (scanStep st file) = scanned st ++ [file]
      /\ (forall h, In h (affectedFiles (scanStep st file)) ->
                    In h (affectedFiles st)
                    \/ scanHitOf readRepoFile functionList file h)
      /\ List.length (affectedFiles (scanStep st file))
         <= List.length (affectedFiles st) + List.length functionList).
Proof.
  unfold scanFile.
  destruct (JsSet.has _ (processedFiles st)); [ now left | right ].
  rewrite replaceChar_same.
  destruct (readRepoFile _ _) as [content |] eqn:R.
  - destruct (fold_scanFunction_hits (repoOf (GraphNode.id file)) (pathOf (GraphNode.id file))
                content functionList (JsSet.empty, affectedFiles st)) as (H1 & H2).
    destruct (fold_left _ _ _) as [added found]. cbn [snd affectedFiles scanned] in *.
    split; [ reflexivity | split; [ | exact H2 ] ].
    intros h Hh. apply H1 in Hh.
    destruct Hh as [Hh | (fn & Hin & i & T & Hi & Hl & ->)]; [ now left | right ].
    exists fn, content, i. repeat split; auto.
  - cbn [affectedFiles scanned]. split; [ reflexivity | split; [ auto | lia ] ].
Qed.

Lemma fold_scanFile_hits (l : list GraphNode.t) (st : Scan) :
  (forall h, In h (affectedFiles st) ->
             exists n, In n (scanned st) /\ scanHitOf readRepoFile functionList n h) ->
  List.length (affectedFiles st) <= List.length (scanned st) * List.length functionList ->
  let st' := fold_left scanStep l st in
  (forall h, In h (affectedFiles st') ->
             exists n, In n (scanned st') /\ scanHitOf readRepoFile functionList n h)
  /\ List.length (affectedFiles st') <= List.length (scanned st') * List.length functionList
  /\ List.length (scanned st') <= List.length (scanned st) + List.length l.
Proof.
  revert st. induction l as [| file l IH]; intros st Hq Hlen; simpl.
  - repeat split; auto. lia.
  - destruct (scanFile_hits st file) as [E | (Es & H1 & H2)].
    + rewrite E. destruct (IH st Hq Hlen) as (I1 & I2 & I3). repeat split; auto. lia.
    + destruct (IH (scanStep st file)) as (I1 & I2 & I3).
      * intros h Hh. apply H1 in Hh. rewrite Es. destruct Hh as [Hh | Hh].
        -- destruct (Hq h Hh) as (n & Hn & Hs). exists n.
           split; [ apply in_app_iff; now left | exact Hs ].
        -- exists file. split; [ apply in_app_iff; right; now left | exact Hh ].
      * rewrite Es, length_app. cbn [List.length]. nia.
      * repeat split; auto. rewrite Es, length_app in I3. cbn [List.length] in I3. lia.
Qed.

End ScanMoreFacts.

Section ScanMoreTheorems.
Import ImpactAnalyzer JsString AnalyzerExtra Sample.

Lemma scanned_described (readRepoFile : string -> string -> option string)
      (graph : GraphData.t) (src : string) (changedFunctions : list string) (n : GraphNode.t) :
  In n (scanned (runScan readRepoFile graph src changedFunctions)) ->
  In n (GraphData.nodes graph) /\ Spec.describedCandidate src n = true.
Proof.
  unfold runScan. destruct (List.length (functionListOf changedFunctions) =? 0);
    [ intros [] | ].
  rewrite slice_0. intros Hn.
  pose proof (fold_scanFile readRepoFile (functionListOf changedFunctions)
                (firstn limit (filter (isOtherRepoFile src) (GraphData.nodes graph)))
                (mkScan [] JsSet.empty []) eq_refl (NoDup_nil _)) as (_ & _ & H3).
  cbv zeta in H3. apply H3 in Hn. destruct Hn as [[] | [_ Hn]].
  apply find_some in Hn. destruct Hn as [Hn _]. apply firstn_In in Hn.
  apply filter_In in Hn. destruct Hn as [Hn Hc]. split; [ exact Hn | ].
  now apply isOtherRepoFile_described.
Qed.

Lemma runScan_hits (readRepoFile : string -> string -> option string)
      (graph : GraphData.t) (src : string) (changedFunctions : list string) :
  let sc := runScan readRepoFile graph src changedFunctions in
  (forall h, In h (affectedFiles sc) ->
             exists n, In n (scanned sc)
                       /\ scanHitOf readRepoFile (functionListOf changedFunctions) n h)
  /\ List.length (affectedFiles sc)
     <= List.length (scanned sc) * List.length (functionListOf changedFunctions)
  /\ List.length (scanned sc) <= limit.
Proof.
  unfold runScan. destruct (List.length (functionListOf changedFunctions) =? 0).
  - cbn. repeat split; try lia.
  - rewrite slice_0.
    destruct (fold_scanFile_hits readRepoFile (functionListOf changedFunctions)
                (firstn limit (filter (isOtherRepoFile src) (GraphData.nodes graph)))
                (mkScan [] JsSet.empty [])) as (H1 & H2 & H3).
    + intros h [].
    + cbn. lia.
    + cbv zeta. split; [ exact H1 | split; [ exact H2 | ] ].
      etransitivity; [ exact H3 | ]. cbn [scanned List.length Nat.add].
      apply firstn_le_length.
Qed.

(** X20. The scanner's hits: every hit belongs to a FILE node of the graph
    with a source extension, owned by another repository than the source,
    whose file exists in the working copy and contains, on the line whose
    surroundings are shown, one of the identifiers kept after trimming; the
    hit never carries the source repository id. Identifiers of fewer than
    three characters after trimming are never searched for, and when no
    working copy file can be read there are no hits. *)
Theorem X20_scanner_hits (readRepoFile : string -> string -> option string)
        (graph : GraphData.t) (sourceRepoId : string) (changedFunctions : list string) :
  (forall h, In h (searchForAffectedFiles readRepoFile graph sourceRepoId changedFunctions) ->
             exists n, In n (GraphData.nodes graph)
                       /\ Spec.describedCandidate sourceRepoId n = true
                       /\ scanHitOf readRepoFile (functionListOf changedFunctions) n h
                       /\ AffectedFile.repoId h <> sourceRepoId)
  /\ (forall fn, In fn (functionListOf changedFunctions) ->
                 2 < String.length fn /\ exists raw, In raw changedFunctions /\ fn = trim raw)
  /\ ((forall repo path, readRepoFile repo path = None) ->
      searchForAffectedFiles readRepoFile graph sourceRepoId changedFunctions = []).
Proof.
  destruct (runScan_hits readRepoFile graph sourceRepoId changedFunctions) as (H1 & _).
  cbv zeta in H1.
  assert (Hall : forall h,
             In h (searchForAffectedFiles readRepoFile graph sourceRepoId changedFunctions) ->
             exists n, In n (GraphData.nodes graph)
                       /\ Spec.describedCandidate sourceRepoId n = true
                       /\ scanHitOf readRepoFile (functionListOf changedFunctions) n h
                       /\ AffectedFile.repoId h <> sourceRepoId).
  { intros h Hh. apply H1 in Hh. destruct Hh as (n & Hn & Hs).
    apply scanned_described in Hn. destruct Hn as [Hn Hd].
    exists n. repeat split; auto.
    destruct Hs as (fn & content & i & _ & _ & _ & _ & _ & ->). cbn.
    unfold Spec.describedCandidate in Hd. apply andb_true_iff in Hd. destruct Hd as [Hd _].
    apply andb_true_iff in Hd. destruct Hd as [_ Hd].
    now apply negb_true_iff, String.eqb_neq in Hd. }
  split; [ exact Hall | split ].
  - intros fn Hfn. unfold functionListOf in Hfn. apply filter_In in Hfn.
    destruct Hfn as [Hin Hlen]. apply Nat.ltb_lt in Hlen. split; [ exact Hlen | ].
    apply in_map_iff in Hin. destruct Hin as (raw & <- & Hraw). eauto.
  - intros Hnone.
    destruct (searchForAffectedFiles readRepoFile graph sourceRepoId changedFunctions)
      as [| h hs] eqn:E; [ reflexivity | exfalso ].
    destruct (Hall h (or_introl eq_refl)) as (n & _ & _ & Hs & _).
    destruct Hs as (fn & content & i & _ & R & _). now rewrite Hnone in R.
Qed.

Lemma X20_scanner_hits_witness :
  AffectedFile.repoId semanticHit <> "A"
  /\ searchForAffectedFiles (fun _ _ => None) scenarioGraph "A" ["getUser"] = [].
Proof.
  split.
  - destruct (proj1 (X20_scanner_hits workingCopies scenarioGraph "A" ["getUser"])
                semanticHit) as (n & _ & _ & _ & H); [ now left | exact H ].
  - apply (proj2 (proj2 (X20_scanner_hits (fun _ _ => None) scenarioGraph "A" ["getUser"]))).
    reflexivity.
Defined.


End ScanMoreTheorems.

Section RegexFacts.
Import ImpactAnalyzer JsString AnalyzerExtra Sample.

Lemma prefix_iff (a t : string) :
  String.prefix a t = true <-> exists post, t = (a ++ post)%string.
Proof.
  revert t. induction a as [| x a IH]; intros t.
  - destruct t; simpl; split; eauto.
  - destruct t as [| y t]; simpl.
    + split; [ discriminate | intros (post & H); discriminate H ].
    + destruct (ascii_dec x y) as [<- | Hne].
      * rewrite IH. split; intros (post & H); exists post; [ now rewrite H | now injection H ].
      * split; [ discriminate | intros (post & H); injection H; congruence ].
Qed.

Lemma get_after (a post : string) :
  String.get (String.length a) (a ++ post) = firstChar post.
Proof. induction a as [| x a IH]; simpl; [ reflexivity | exact IH ]. Qed.

Lemma firstChar_append (a post : string) :
  wordOpt (firstChar a) = true -> firstChar (a ++ post) = firstChar a.
Proof. destruct a; simpl; [ discriminate | reflexivity ]. Qed.

Lemma get0_append (a b : string) :
  String.get 0 (a ++ b)
  = match String.get 0 a with Some c => Some c | None => String.get 0 b end.
Proof. destruct a; reflexivity. Qed.

Lemma charBefore_cons (prev : option ascii) (c : ascii) (pre : string) :
  charBefore prev (String c pre) = charBefore (Some c) pre.
Proof.
  unfold charBefore, lastChar. cbn [rev_string]. rewrite get0_append.
  now destruct (String.get 0 (rev_string pre)).
Qed.

Lemma matchesHere_iff (fn : string) (prev : option ascii) (text : string) :
  matchesHere fn prev text = true
  <-> exists post, occursAt fn prev text EmptyString post.
Proof.
  unfold matchesHere, occursAt. rewrite !andb_true_iff, prefix_iff. split.
  - intros [[(post & ->) L] R]. exists post. split; [ reflexivity | split ].
    + intros W. rewrite W in L. rewrite firstChar_append in L by exact W.
      unfold boundary in L. rewrite W in L. cbn.
      now destruct (wordOpt prev).
    + intros W. rewrite W in R. rewrite get_after in R. unfold boundary in R.
      rewrite W in R. now destruct (wordOpt (firstChar post)).
  - intros (post & E & L & R). cbn in E. subst text.
    split; [ split; [ now exists post | ] | ].
    + destruct (wordOpt (firstChar fn)) eqn:W; [ | reflexivity ].
      rewrite firstChar_append by exact W. unfold boundary. rewrite W.
      cbn in L. now rewrite L.
    + destruct (wordOpt (lastChar fn)) eqn:W; [ | reflexivity ].
      rewrite get_after. unfold boundary. rewrite W. now rewrite R.
Qed.

Lemma searchFrom_iff (fn : string) (prev : option ascii) (text : string) :
  searchFrom fn prev text = true
  <-> exists pre post, occursAt fn prev text pre post.
Proof.
  revert prev. induction text as [| c r IH]; intros prev; cbn [searchFrom];
    rewrite orb_true_iff, matchesHere_iff.
  - split.
    + intros [(post & H) | H]; [ eauto | discriminate ].
    + intros (pre & post & E & L & R). left.
      destruct pre as [| x pre]; [ | cbn in E; discriminate E ].
      exists post. now split.
  - rewrite IH. split.
    + intros [(post & H) | (pre & post & E & L & R)]; [ eauto | ].
      exists (String c pre), post. unfold occursAt. rewrite charBefore_cons.
      split; [ cbn; now rewrite E | auto ].
    + intros (pre & post & E & L & R). destruct pre as [| x pre].
      * left. exists post. now split.
      * right. cbn in E. injection E as <- E. exists pre, post.
        unfold occursAt. rewrite charBefore_cons in L. auto.
Qed.

(** X22. What the usage pattern matches: [regexTest fn text] holds exactly
    when [fn] occurs in [text] at a place where, if [fn] begins with a word
    character (letter, digit, underscore), the character before is not one,
    and if [fn] ends with a word character, the character after is not one.
    So an identifier is not found inside a longer identifier. A side on
    which [fn] begins or ends with punctuation is not constrained, the other
    side still is: [/users] is found in [get('/users/1')], after a quote,
    and not in [get('/usersList')], before a letter. *)
Theorem X22_usage_pattern (fn text : string) :
  regexTest fn text = true
  <-> exists pre post,
      text = (pre ++ fn ++ post)%string
      /\ (wordOpt (firstChar fn) = true -> wordOpt (lastChar pre) = false)
      /\ (wordOpt (lastChar fn) = true -> wordOpt (firstChar post) = false).
Proof.
  unfold regexTest. rewrite searchFrom_iff. unfold occursAt, charBefore.
  split; intros (pre & post & E & L & R); exists pre, post; (split; [ exact E | split; [ | exact R ] ]);
    intros W; specialize (L W); destruct (lastChar pre); auto.
Qed.

Lemma X22_usage_pattern_witness :
  regexTest "getUser" "a.getUser(1)" = true
  /\ regexTest "getUser" "getUserById(1)" = false
  /\ regexTest "/users" "get('/users/1')" = true
  /\ regexTest "/users" "get('/usersList')" = false.
Proof.
  split; [ | split; [ | split ] ].
  - apply (X22_usage_pattern "getUser" "a.getUser(1)"). exists "a.", "(1)".
    repeat split; reflexivity.
  - reflexivity.
  - apply (X22_usage_pattern "/users" "get('/users/1')"). exists "get('", "/1')".
    repeat split; try reflexivity; discriminate.
  - reflexivity.
Defined.

End RegexFacts.

(* ================================================================== *)
(** * Properties of the webhook controller *)

Section WebhookFacts.
Import ImpactAnalyzer JsString WebhookController PushSample Sample.

Lemma In_pathsIn (p : string) (s : list Entry) : In p (pathsIn s) <-> In (Path p) s.
Proof.
  unfold pathsIn. rewrite in_flat_map. split.
  - intros ([q |] & Hin & Hq); simpl in Hq; [ | tauto ].
    destruct Hq as [<- | []]. exact Hin.
  - intros H. exists (Path p). split; [ exact H | now left ].
Qed.

Lemma pathsIn_app (a b : list Entry) : pathsIn (a ++ b) = pathsIn a ++ pathsIn b.
Proof. apply flat_map_app. Qed.

Lemma has_entry (f : Entry) (s : list Entry) :
  existsb (entry_eqb f) s = true -> In f s.
Proof.
  intros E. apply existsb_exists in E. destruct E as (y & Hin & Hy).
  destruct f as [p |], y as [q |]; simpl in Hy; try discriminate.
  apply String.eqb_eq in Hy. now subst.
Qed.

Lemma has_path (p : string) (s : list Entry) :
  In (Path p) s -> existsb (entry_eqb (Path p)) s = true.
Proof.
  intros H. apply existsb_exists. exists (Path p). split; [ exact H | apply String.eqb_refl ].
Qed.

Lemma addFile_In (x f : Entry) (s : list Entry) :
  In x (addFile f s) <-> x = f \/ In x s.
Proof.
  unfold addFile. destruct (existsb (entry_eqb f) s) eqn:E.
  - apply has_entry in E. split; [ auto | intros [-> | H]; auto ].
  - rewrite in_app_iff. simpl. split; [ intros [H | [<- | []]]; auto | intros [-> | H]; auto ].
Qed.

Lemma addFile_NoDup (f : Entry) (s : list Entry) :
  NoDup (pathsIn s) -> NoDup (pathsIn (addFile f s)).
Proof.
  intros H. unfold addFile. destruct (existsb (entry_eqb f) s) eqn:E; [ exact H | ].
  rewrite pathsIn_app. destruct f as [q |]; simpl.
  - apply NoDup_snoc; [ exact H | ].
    intros Hin. apply In_pathsIn, has_path in Hin. congruence.
  - now rewrite app_nil_r.
Qed.

Lemma fold_addFile (l s : list Entry) :
  (NoDup (pathsIn s) -> NoDup (pathsIn (fold_left (fun s f => addFile f s) l s)))
  /\ forall x, In x (fold_left (fun s f => addFile f s) l s) <-> In x l \/ In x s.
Proof.
  revert s. induction l as [| f l IH]; intros s; simpl.
  - split; [ auto | intros x; tauto ].
  - destruct (IH (addFile f s)) as (H1 & H2). split.
    + intros H. apply H1. now apply addFile_NoDup.
    + intros x. rewrite H2, addFile_In. intuition auto.
Qed.

Lemma addFiles_spec (files : Files) (s s' : list Entry) :
  addFiles files s = Ok s' ->
  (NoDup (pathsIn s) -> NoDup (pathsIn s'))
  /\ forall p, In (Path p) s' <-> In p (pathsOf files) \/ In (Path p) s.
Proof.
  destruct files as [| entries |]; simpl; [ | | discriminate ].
  - intros [= <-]. split; [ auto | intros p; tauto ].
  - intros [= <-]. destruct (fold_addFile entries s) as (H1 & H2).
    split; [ exact H1 | ]. intros p. now rewrite H2, In_pathsIn.
Qed.

Lemma collectInto_spec (commits : list Commit.t) (s s' : list Entry) :
  collectInto commits s = Ok s' ->
  (NoDup (pathsIn s) -> NoDup (pathsIn s'))
  /\ forall p, In (Path p) s' <-> In p (listedIn (CommitList commits)) \/ In (Path p) s.
Proof.
  revert s. induction commits as [| c commits IH]; intros s; cbn [collectInto].
  - intros [= <-]. split; [ auto | intros p; simpl; tauto ].
  - destruct c as [| modified added]; [ discriminate | ].
    destruct (addFiles modified s) as [s1 | e1] eqn:Hm; [ | discriminate ].
    cbn [bindExc].
    destruct (addFiles added s1) as [s2 | e2] eqn:Ha; [ | discriminate ].
    cbn [bindExc]. intros H.
    destruct (IH _ H) as (I1 & I2).
    destruct (addFiles_spec _ _ _ Hm) as (M1 & M2).
    destruct (addFiles_spec _ _ _ Ha) as (A1 & A2).
    split; [ auto | ].
    intros p. rewrite I2, A2, M2. cbn [listedIn flat_map]. rewrite !in_app_iff.
    cbn [listedIn]. tauto.
Qed.

(** The set of changed files holds each listed path once. *)
Lemma collectChangedFiles_spec (commits : Commits) (files : list Entry) :
  collectChangedFiles commits = Ok files ->
  NoDup (pathsIn files)
  /\ forall p, In (Path p) files <-> In p (listedIn commits).
Proof.
  destruct commits as [| l | z]; cbn [collectChangedFiles]; [ | | discriminate ].
  - intros [= <-]. split; [ constructor | intros p; simpl; tauto ].
  - intros H. destruct (collectInto_spec _ _ _ H) as (H1 & H2).
    split; [ apply H1; constructor | ].
    intros p. rewrite H2. simpl. tauto.
Qed.

Lemma addFiles_stringsOnly (files : Files) (s : list Entry) :
  stringsOnly files = true ->
  exists s', addFiles files s = Ok s' /\ (~ In NotAString s -> ~ In NotAString s').
Proof.
  destruct files as [| entries |]; simpl; [ eauto | | discriminate ].
  intros H. eexists. split; [ reflexivity | ].
  intros Hs Hin. apply fold_addFile in Hin. destruct Hin as [Hin | Hin]; [ | auto ].
  rewrite forallb_forall in H. apply H in Hin. discriminate.
Qed.

Lemma collectInto_wellFormed (commits : list Commit.t) (s : list Entry) :
  wellFormed (CommitList commits) = true -> ~ In NotAString s ->
  exists files, collectInto commits s = Ok files /\ ~ In NotAString files.
Proof.
  revert s. induction commits as [| c commits IH]; intros s; cbn [wellFormed forallb collectInto].
  - eauto.
  - destruct c as [| modified added]; [ discriminate | ].
    intros H Hs. apply andb_true_iff in H. destruct H as [H Hrest].
    apply andb_true_iff in H. destruct H as [Hm Ha].
    destruct (addFiles_stringsOnly modified s Hm) as (s1 & -> & H1). cbn [bindExc].
    destruct (addFiles_stringsOnly added s1 Ha) as (s2 & -> & H2). cbn [bindExc].
    apply IH; auto.
Qed.

(** Commits of the expected shape give a set of strings. *)
Lemma collectChangedFiles_wellFormed (commits : Commits) :
  wellFormed commits = true ->
  exists files, collectChangedFiles commits = Ok files /\ ~ In NotAString files.
Proof.
  destruct commits as [| l | z]; cbn [collectChangedFiles]; [ | | discriminate ].
  - intros _. exists []. split; [ reflexivity | intros [] ].
  - intros H. apply collectInto_wellFormed; [ exact H | intros [] ].
Qed.

(** What the caller can rely on for a result that has affected files. *)
Lemma reported_result (env : Env.t) (projectId repoId filePath : string)
      (oldContent newContent : option string) (r : ImpactResult.t) :
  analyzeFileChange env projectId repoId filePath oldContent newContent = Some (Ok r) ->
  ImpactResult.projectId r = projectId
  /\ ImpactResult.changedFile r = filePath
  /\ ImpactResult.changedRepo r = repoId
  /\ (0 < List.length (ImpactResult.affectedFiles r) ->
      ImpactResult.isBreaking r = true
      /\ (ImpactResult.severity r = HIGH \/ ImpactResult.severity r = CRITICAL)).
Proof.
  unfold analyzeFileChange.
  destruct (GraphService.new _ _) as [[g | stored file | file] | e];
    [ | | discriminate | discriminate ].
  2: { destruct (resolveNode _ _); [ discriminate | ].
       intros [= <-]. cbn. repeat split; auto; lia. }
  destruct (resolveNode _ _) as [changedNodeId |].
  - destruct (findAffectedFiles _ _ _) as [hits |]; [ | discriminate ].
    destruct (classify _ _ _ _ _) as [[isBreaking explanation] semantic].
    destruct isBreaking; cbn [negb]; intros [= <-]; cbn.
    + repeat split; auto.
      generalize dependent (List.length (uniqueAffectedFiles (hits ++ semantic))).
      intros n Hn. unfold determineSeverity. cbn [andb].
      destruct (Nat.ltb_spec 5 n); [ now right | ].
      destruct (Nat.ltb_spec 0 n); [ now left | lia ].
    + repeat split; auto; lia.
  - intros [= <-]. cbn. repeat split; auto; lia.
Qed.

Lemma analyzeFileChange_some (env : Env.t) (projectId repoId filePath : string)
      (oldContent newContent : option string) :
  (exists r, analyzeFileChange env projectId repoId filePath oldContent newContent
             = Some (Ok r))
  \/ (exists e, analyzeFileChange env projectId repoId filePath oldContent newContent
                = Some (Throw e)
                /\ unusableGraph env projectId)
  \/ (analyzeFileChange env projectId repoId filePath oldContent newContent = None
      /\ opaqueGraph env projectId).
Proof.
  destruct (GraphService.new (Some projectId) (Env.disk env))
    as [[g | stored file | file] | e] eqn:E.
  - left. now apply (analyzeFileChange_returns _ _ _ _ _ _ g).
  - unfold analyzeFileChange. rewrite E.
    destruct (resolveNode _ _); [ right; left | left; eauto ].
    exists TypeError. split; [ reflexivity | right; eauto ].
  - right. right. unfold analyzeFileChange. rewrite E. split; [ reflexivity | ].
    exists file. exact E.
  - right. left. exists e. unfold analyzeFileChange. rewrite E.
    split; [ reflexivity | left; eauto ].
Qed.

Lemma impactsOf_app (a b : list Event) : impactsOf (a ++ b) = impactsOf a ++ impactsOf b.
Proof. unfold impactsOf. apply flat_map_app. Qed.

Section Loop.
Variable env : Env.t.
Variable db : Db.t.
Variable contents : string -> option string * option string.
Variable targetProject : Project.t.
Variable targetRepo : Repo.t.

Local Abbreviation loop := (analyzeFiles env db contents targetProject targetRepo).

Lemma analyzeFiles_step (filePath : string) (rest : list Entry)
      (events : list Event) (status : PushStatus) :
  loop (Path filePath :: rest) = Some (events, status) ->
  loop rest = Some (events, status)
  \/ (events = [] /\ status = Rejected /\ unusableGraph env (Project.id targetProject))
  \/ exists impact,
      hasSourceExtension filePath = true
      /\ analyzeFileChange env (Project.id targetProject) (Repo.id targetRepo) filePath
           (fst (contents filePath)) (snd (contents filePath)) = Some (Ok impact)
      /\ 0 < List.length (ImpactResult.affectedFiles impact)
      /\ ((events = [ImpactDetected impact] /\ status = Rejected
           /\ Db.getRepo db (Repo.id targetRepo) = None)
          \/ exists updated later,
              impactsOf updated = []
              /\ events = ImpactDetected impact :: updated ++ later
              /\ loop rest = Some (later, status)).
Proof.
  cbn [analyzeFiles].
  destruct (hasSourceExtension filePath) eqn:X; cbn [negb]; [ | now left ].
  destruct (contents filePath) as [oldContent newContent]. cbn [fst snd].
  destruct (analyzeFileChange_some env (Project.id targetProject) (Repo.id targetRepo)
              filePath oldContent newContent) as [(r & E) | [(e & E & Hnew) | (E & _)]];
    rewrite E; [ | | discriminate ].
  - destruct (Nat.ltb_spec 0 (List.length (ImpactResult.affectedFiles r))) as [Hpos | _];
      [ | now left ].
    intros H. right. right. exists r.
    split; [ reflexivity | split; [ reflexivity | split; [ exact Hpos | ] ] ].
    destruct (Db.getRepo db (Repo.id targetRepo)) as [updatedRepo |].
    + destruct (loop rest) as [[later st] |]; [ | discriminate ].
      injection H as <- <-. right.
      exists (match updatedRepo with
              | Some r0 => [RepositoryUpdated (Project.id targetProject) r0]
              | None => []
              end), later.
      split; [ now destruct updatedRepo | split; reflexivity ].
    + injection H as <- <-. now left.
  - intros [= <- <-]. right. left. auto.
Qed.

Lemma analyzeFiles_returns (files : list Entry) :
  ~ opaqueGraph env (Project.id targetProject) ->
  exists events status, loop files = Some (events, status).
Proof.
  intros Hop.
  induction files as [| [filePath |] rest IH]; cbn [analyzeFiles]; [ eauto | | eauto ].
  destruct (negb (hasSourceExtension filePath)); [ exact IH | ].
  destruct (contents filePath) as [oldContent newContent].
  destruct (analyzeFileChange_some env (Project.id targetProject) (Repo.id targetRepo)
              filePath oldContent newContent) as [(r & E) | [(e & E & _) | (_ & E)]];
    [ rewrite E | rewrite E; eauto | contradiction ].
  destruct (0 <? _); [ | exact IH ].
  destruct (Db.getRepo db (Repo.id targetRepo)); [ | eauto ].
  destruct IH as (events & status & ->). eauto.
Qed.

Lemma analyzeFiles_impacts (files : list Entry) (events : list Event) (status : PushStatus) :
  loop files = Some (events, status) ->
  (forall impact, In impact (impactsOf events) ->
      In (Path (ImpactResult.changedFile impact)) files
      /\ hasSourceExtension (ImpactResult.changedFile impact) = true
      /\ ImpactResult.affectedFiles impact <> []
      /\ ImpactResult.isBreaking impact = true
      /\ (ImpactResult.severity impact = HIGH \/ ImpactResult.severity impact = CRITICAL)
      /\ ImpactResult.projectId impact = Project.id targetProject
      /\ ImpactResult.changedRepo impact = Repo.id targetRepo)
  /\ (NoDup (pathsIn files) -> NoDup (map ImpactResult.changedFile (impactsOf events)))
  /\ (status = Rejected ->
      In NotAString files
      \/ unusableGraph env (Project.id targetProject)
      \/ Db.getRepo db (Repo.id targetRepo) = None).
Proof.
  revert events status. induction files as [| [filePath |] rest IH]; intros events status H.
  - injection H as <- <-. split; [ intros impact [] | split; [ constructor | discriminate ] ].
  - assert (Hone : forall impact,
               hasSourceExtension filePath = true ->
               analyzeFileChange env (Project.id targetProject) (Repo.id targetRepo) filePath
                 (fst (contents filePath)) (snd (contents filePath)) = Some (Ok impact) ->
               0 < List.length (ImpactResult.affectedFiles impact) ->
               ImpactResult.changedFile impact = filePath
               /\ hasSourceExtension (ImpactResult.changedFile impact) = true
               /\ ImpactResult.affectedFiles impact <> []
               /\ ImpactResult.isBreaking impact = true
               /\ (ImpactResult.severity impact = HIGH
                   \/ ImpactResult.severity impact = CRITICAL)
               /\ ImpactResult.projectId impact = Project.id targetProject
               /\ ImpactResult.changedRepo impact = Repo.id targetRepo).
    { intros impact X E Hpos. apply reported_result in E.
      destruct E as (E1 & E2 & E3 & E4). destruct (E4 Hpos) as (E5 & E6).
      rewrite E2. repeat split; auto.
      intros Hnil. rewrite Hnil in Hpos. simpl in Hpos. lia. }
    apply analyzeFiles_step in H.
    destruct H as [H | [(-> & -> & Hthrow) | (impact & X & E & Hpos & H)]].
    + destruct (IH _ _ H) as (I1 & I2 & I3). split; [ | split ].
      * intros impact Hin. destruct (I1 impact Hin) as (J & Js). split; [ now right | exact Js ].
      * intros Hn. apply I2. cbn in Hn. apply NoDup_cons_iff in Hn. tauto.
      * intros Hr. destruct (I3 Hr) as [J | J]; [ left; now right | now right ].
    + split; [ intros impact [] | split; [ constructor | auto ] ].
    + destruct (Hone impact X E Hpos) as (O1 & O2).
      destruct H as [(-> & -> & Hrepo) | (updated & later & Hu & -> & Hrest)].
      * split; [ | split; [ | auto ] ].
        -- intros i [<- | []]. split; [ left; now rewrite O1 | exact O2 ].
        -- intros _. cbn. constructor; [ intros [] | constructor ].
      * destruct (IH _ _ Hrest) as (I1 & I2 & I3).
        assert (Himp : impactsOf (ImpactDetected impact :: updated ++ later)
                       = impact :: impactsOf later).
        { change (ImpactDetected impact :: updated ++ later)
            with ([ImpactDetected impact] ++ updated ++ later).
          rewrite !impactsOf_app, Hu. reflexivity. }
        rewrite Himp. split; [ | split ].
        -- intros i [<- | Hin]; [ split; [ left; now rewrite O1 | exact O2 ] | ].
           destruct (I1 i Hin) as (J & Js). split; [ now right | exact Js ].
        -- intros Hn. cbn in Hn. apply NoDup_cons_iff in Hn. destruct Hn as [Hnot Hn']. cbn.
           constructor.
           ++ intros Hin. apply in_map_iff in Hin. destruct Hin as (i & Hi & Hin).
              apply I1 in Hin. destruct Hin as (J & _). rewrite Hi, O1 in J.
              apply In_pathsIn in J. contradiction.
           ++ now apply I2.
        -- intros Hr. destruct (I3 Hr) as [J | J]; [ left; now right | now right ].
  - injection H as <- <-.
    split; [ intros impact [] | split; [ constructor | intros _; left; now left ] ].
Qed.

End Loop.

Lemma findTarget_some (repoUrl : string) (repoName : option string)
      (allProjects : list Project.t) (project : Project.t) (repo : Repo.t) :
  findTarget repoUrl repoName allProjects = Some (project, repo) ->
  In project allProjects /\ In repo (Project.repos project)
  /\ matchesRepo repoUrl repoName repo = true.
Proof.
  induction allProjects as [| p rest IH]; simpl; [ discriminate | ].
  destruct (find _ (Project.repos p)) as [r |] eqn:F.
  - intros [= <- <-]. apply find_some in F. tauto.
  - intros H. apply IH in H. tauto.
Qed.

(** X23. A push announces breaking impacts only: every impact emitted as
    'impact:detected' is breaking, has at least one affected file and
    severity HIGH or CRITICAL, and concerns a file with a source extension
    that some commit of the push lists as modified or added, in a repository
    of the database whose url or name is that of the payload. A change that
    is not breaking is never announced. *)
Theorem X23_push_announces_breaking_impacts_only
        (env : Env.t) (db : Db.t) (contents : string -> option string * option string)
        (payload : Payload.t) (events : list Event) (status : PushStatus) :
  processGitHubPush env db contents payload = Some (events, status) ->
  forall impact, In impact (impactsOf events) ->
    ImpactResult.isBreaking impact = true
    /\ ImpactResult.affectedFiles impact <> []
    /\ (ImpactResult.severity impact = HIGH \/ ImpactResult.severity impact = CRITICAL)
    /\ hasSourceExtension (ImpactResult.changedFile impact) = true
    /\ In (ImpactResult.changedFile impact) (listedFiles payload)
    /\ exists allProjects project repo url,
        Db.getProjects db = Some allProjects
        /\ In project allProjects /\ In repo (Project.repos project)
        /\ repoUrlOf payload = Some url
        /\ matchesRepo url (repoNameOf payload) repo = true
        /\ ImpactResult.projectId impact = Project.id project
        /\ ImpactResult.changedRepo impact = Repo.id repo.
Proof.
  unfold processGitHubPush.
  destruct (repoUrlOf payload) as [url |] eqn:U; [ | intros [= <- <-] impact [] ].
  destruct (negb (truthy (Some url)) || _); [ intros [= <- <-] impact [] | ].
  destruct (Db.getProjects db) as [allProjects |] eqn:P; [ | intros [= <- <-] impact [] ].
  destruct (findTarget url (repoNameOf payload) allProjects) as [[project repo] |] eqn:T;
    [ | intros [= <- <-] impact [] ].
  destruct (collectChangedFiles (Payload.commits payload)) as [files | e] eqn:C;
    [ | intros [= <- <-] impact [] ].
  intros H impact Hin. apply findTarget_some in T. destruct T as (T1 & T2 & T3).
  apply analyzeFiles_impacts in H. destruct H as (H1 & _).
  destruct (H1 impact Hin) as (J1 & J2 & J3 & J4 & J5 & J6 & J7).
  repeat split; auto.
  - apply (collectChangedFiles_spec _ _ C) in J1. exact J1.
  - exists allProjects, project, repo, url. repeat split; auto.
Qed.

Lemma X23_push_announces_breaking_impacts_only_witness :
  exists events status impact,
    processGitHubPush breakingEnv db bothContents (push ["README.md"; "src/api.ts"])
    = Some (events, status)
    /\ In impact (impactsOf events)
    /\ ImpactResult.isBreaking impact = true
    /\ ImpactResult.changedFile impact = "src/api.ts".
Proof.
  eexists. eexists. eexists. split; [ reflexivity | ].
  split; [ left; reflexivity | ].
  split; [ | reflexivity ].
  exact (proj1 (X23_push_announces_breaking_impacts_only
                  breakingEnv db bothContents (push ["README.md"; "src/api.ts"])
                  _ _ eq_refl _ (or_introl eq_refl))).
Defined.

(** X24. A push analyzes each file once: however often a path is listed in
    the commits of the push, as modified or as added, at most one impact is
    announced for it. *)
Theorem X24_push_announces_each_file_once
        (env : Env.t) (db : Db.t) (contents : string -> option string * option string)
        (payload : Payload.t) (events : list Event) (status : PushStatus) :
  processGitHubPush env db contents payload = Some (events, status) ->
  NoDup (map ImpactResult.changedFile (impactsOf events)).
Proof.
  unfold processGitHubPush.
  destruct (repoUrlOf payload) as [url |]; [ | intros [= <- <-]; constructor ].
  destruct (negb (truthy (Some url)) || _); [ intros [= <- <-]; constructor | ].
  destruct (Db.getProjects db) as [allProjects |]; [ | intros [= <- <-]; constructor ].
  destruct (findTarget url (repoNameOf payload) allProjects) as [[project repo] |];
    [ | intros [= <- <-]; constructor ].
  destruct (collectChangedFiles (Payload.commits payload)) as [files | e] eqn:C;
    [ | intros [= <- <-]; constructor ].
  intros H. apply analyzeFiles_impacts in H. destruct H as (_ & H2 & _).
  apply H2. now apply (collectChangedFiles_spec _ _ C).
Qed.

Lemma X24_push_announces_each_file_once_witness :
  exists events status,
    processGitHubPush breakingEnv db bothContents (push ["src/api.ts"; "src/api.ts"])
    = Some (events, status)
    /\ NoDup (map ImpactResult.changedFile (impactsOf events)).
Proof.
  eexists. eexists. split; [ reflexivity | ].
  exact (X24_push_announces_each_file_once breakingEnv db bothContents
           (push ["src/api.ts"; "src/api.ts"]) _ _ eq_refl).
Defined.

(** X25. How a push ends. A payload without repository url or without
    commits, and a repository the database does not know, end it at once
    with no event, whatever the commits hold and whatever state the graph
    document is in. When the database rejects the project list, the push
    fails with no event. When the repository is found, the push fails with
    no event if the commits cannot be read (they are not an array, one of
    them is [null], or what one of them holds as modified or added is
    neither empty nor an array). Unless the graph document of the project
    found has ill-typed nodes or edges, the push comes to an end, and it
    fails only for one of these reasons: the commits do not have the
    expected shape (which includes a listed file that is not a string), the
    database rejects the lookup of the repository found, or the graph
    document of the project found cannot be loaded or has no edge array.
    With commits of the expected shape, a graph document that loads with an
    edge array and a database that answers, the push completes. *)
Theorem X25_push_outcomes
        (env : Env.t) (db : Db.t) (contents : string -> option string * option string)
        (payload : Payload.t) :
  (truthy (repoUrlOf payload) = false ->
   processGitHubPush env db contents payload = Some ([], Completed))
  /\ (hasNoCommits (Payload.commits payload) = true ->
      processGitHubPush env db contents payload = Some ([], Completed))
  /\ (forall url,
         repoUrlOf payload = Some url -> url <> EmptyString ->
         hasNoCommits (Payload.commits payload) = false ->
         (Db.getProjects db = None ->
          processGitHubPush env db contents payload = Some ([], Rejected))
         /\ forall allProjects,
             Db.getProjects db = Some allProjects ->
             match findTarget url (repoNameOf payload) allProjects with
             | None => processGitHubPush env db contents payload = Some ([], Completed)
             | Some (project, repo) =>
                 ((exists e, collectChangedFiles (Payload.commits payload) = Throw e) ->
                  processGitHubPush env db contents payload = Some ([], Rejected))
                 /\ (~ opaqueGraph env (Project.id project) ->
                     exists events status,
                       processGitHubPush env db contents payload = Some (events, status))
                 /\ (forall events,
                        processGitHubPush env db contents payload = Some (events, Rejected) ->
                        wellFormed (Payload.commits payload) = false
                        \/ Db.getRepo db (Repo.id repo) = None
                        \/ (exists e, GraphService.new (Some (Project.id project))
                                                       (Env.disk env) = Throw e)
                        \/ (exists stored file,
                               GraphService.new (Some (Project.id project)) (Env.disk env)
                               = Ok (GraphService.Untyped stored file)))
                 /\ (forall g : GraphService.t,
                        wellFormed (Payload.commits payload) = true ->
                        Db.getRepo db (Repo.id repo) <> None ->
                        GraphService.new (Some (Project.id project)) (Env.disk env) = Ok g ->
                        exists events,
                          processGitHubPush env db contents payload
                          = Some (events, Completed))
             end).
Proof.
  assert (Hcause : forall project repo files events,
             analyzeFiles env db contents project repo files = Some (events, Rejected) ->
             In NotAString files
             \/ Db.getRepo db (Repo.id repo) = None
             \/ (exists e, GraphService.new (Some (Project.id project)) (Env.disk env)
                           = Throw e)
             \/ (exists stored file,
                    GraphService.new (Some (Project.id project)) (Env.disk env)
                    = Ok (GraphService.Untyped stored file))).
  { intros project repo files events E. apply analyzeFiles_impacts in E.
    destruct E as (_ & _ & E). destruct (E eq_refl) as [J | [[J | J] | J]]; auto. }
  split; [ | split ].
  - intros H. unfold processGitHubPush.
    destruct (repoUrlOf payload) as [url |]; [ | reflexivity ]. now rewrite H.
  - intros Hc. unfold processGitHubPush.
    destruct (repoUrlOf payload) as [url |]; [ | reflexivity ].
    now rewrite Hc, orb_true_r.
  - intros url U Hurl Hc.
    assert (Hgo : negb (truthy (Some url)) || hasNoCommits (Payload.commits payload)
                  = false).
    { rewrite Hc. unfold truthy. apply String.eqb_neq in Hurl. now rewrite Hurl. }
    split.
    + intros P. unfold processGitHubPush. now rewrite U, Hgo, P.
    + intros allProjects P.
      destruct (findTarget url (repoNameOf payload) allProjects) as [[project repo] |] eqn:T.
      * split; [ | split; [ | split ] ].
        -- intros (e & C). unfold processGitHubPush. now rewrite U, Hgo, P, T, C.
        -- intros Hop. unfold processGitHubPush. rewrite U, Hgo, P, T.
           destruct (collectChangedFiles (Payload.commits payload)) as [files | e];
             [ | eauto ].
           now apply analyzeFiles_returns.
        -- intros events. unfold processGitHubPush. rewrite U, Hgo, P, T.
           destruct (wellFormed (Payload.commits payload)) eqn:W; [ | auto ].
           destruct (collectChangedFiles_wellFormed _ W) as (files & -> & Hs).
           intros E. apply Hcause in E. destruct E as [E | E]; [ contradiction | auto ].
        -- intros g W R G. unfold processGitHubPush. rewrite U, Hgo, P, T.
           destruct (collectChangedFiles_wellFormed _ W) as (files & -> & Hs).
           destruct (analyzeFiles_returns env db contents project repo files)
             as (events & [|] & E); [ | eauto | exfalso ].
           ++ intros (file & Hop). rewrite G in Hop. discriminate.
           ++ apply Hcause in E.
              destruct E as [E | [E | [(e & E) | (stored & file & E)]]]; try contradiction;
                rewrite G in E; discriminate.
      * unfold processGitHubPush. now rewrite U, Hgo, P, T.
Qed.

Lemma X25_push_outcomes_witness :
  processGitHubPush (Env.mk corruptDisk (fun _ _ => CallFails) workingCopies "now")
                    db bothContents
                    (Payload.mk None (CommitList [Commit.mk (Listed [NotAString]) NotAnArray]))
  = Some ([], Completed)
  /\ processGitHubPush breakingEnv db bothContents (pushOf (NotIterable false))
     = Some ([], Rejected)
  /\ processGitHubPush breakingEnv db bothContents
       (pushOf (CommitList [Commit.mk (Listed [Path "src/api.ts"]) NotAnArray]))
     = Some ([], Rejected)
  /\ exists events,
      processGitHubPush breakingEnv db bothContents (push ["src/api.ts"])
      = Some (events, Completed).
Proof.
  split; [ | split; [ | split ] ].
  - apply (proj1 (X25_push_outcomes
                    (Env.mk corruptDisk (fun _ _ => CallFails) workingCopies "now")
                    db bothContents
                    (Payload.mk None
                       (CommitList [Commit.mk (Listed [NotAString]) NotAnArray])))).
    reflexivity.
  - pose proof (proj2 (proj2 (proj2 (X25_push_outcomes breakingEnv db bothContents
                                        (pushOf (NotIterable false))))
                          "https://example.org/server.git" eq_refl ltac:(discriminate)
                          eq_refl)
                       [project1] eq_refl) as T.
    hnf in T. destruct T as (T & _).
    apply T. exists TypeError. reflexivity.
  - pose proof (proj2 (proj2 (proj2 (X25_push_outcomes breakingEnv db bothContents
                  (pushOf (CommitList [Commit.mk (Listed [Path "src/api.ts"]) NotAnArray]))))
                          "https://example.org/server.git" eq_refl ltac:(discriminate)
                          eq_refl)
                       [project1] eq_refl) as T.
    hnf in T. destruct T as (T & _).
    apply T. exists TypeError. reflexivity.
  - pose proof (proj2 (proj2 (proj2 (X25_push_outcomes breakingEnv db bothContents
                                        (push ["src/api.ts"])))
                          "https://example.org/server.git" eq_refl ltac:(discriminate)
                          eq_refl)
                       [project1] eq_refl) as T.
    hnf in T. destruct T as (_ & _ & _ & T).
    apply (T (GraphService.mk
                [("A:src/api.ts", apiNode); ("B:src/client.ts", clientNode)]
                [clientImportsApi] "data/graph-p1.json"));
      [ reflexivity | discriminate | reflexivity ].
Defined.

End WebhookFacts.

(* ================================================================== *)
(** * The context snippet of a usage *)

Section SnippetFacts.
Import ImpactAnalyzer JsString AnalyzerExtra Sample.

Lemma hasChar_append (c : ascii) (a b : string) :
  hasChar c (a ++ b) = hasChar c a || hasChar c b.
Proof.
  induction a as [| x a IH]; simpl; [ reflexivity | ].
  now rewrite IH, orb_assoc.
Qed.

Lemma split_parts_no_sep (sep : ascii) (s p : string) :
  In p (split sep s) -> hasChar sep p = false.
Proof.
  revert p. induction s as [| c r IH]; simpl; intros p.
  - intros [<- | []]. reflexivity.
  - destruct (Ascii.eqb c sep) eqn:E.
    + intros [<- | H]; [ reflexivity | now apply IH ].
    + destruct (split sep r) as [| q qs]; simpl.
      * intros [<- | []]. simpl. now rewrite E.
      * intros [<- | H].
        -- simpl. rewrite E. apply IH. now left.
        -- apply IH. now right.
Qed.

Lemma split_join (sep : ascii) (l : list string) :
  l <> [] -> (forall p, In p l -> hasChar sep p = false) ->
  split sep (join (String sep EmptyString) l) = l.
Proof.
  unfold join. induction l as [| x l IH]; [ congruence | ]. intros _ H.
  destruct l as [| y l].
  - simpl. apply split_no_sep. apply H. now left.
  - rewrite concat_cons by discriminate.
    change (x ++ String sep EmptyString ++ String.concat (String sep EmptyString) (y :: l))%string
      with (x ++ String sep (String.concat (String sep EmptyString) (y :: l)))%string.
    rewrite split_app by (apply H; now left).
    rewrite IH; [ reflexivity | discriminate | ].
    intros p Hp. apply H. now right.
Qed.

Lemma digits_no_newline (d : Decimal.uint) :
  hasChar newline (NilEmpty.string_of_uint d) = false.
Proof. induction d; simpl; auto. Qed.

Lemma contextLine_no_newline (lines : list string) (i k : nat) :
  (forall l, In l lines -> hasChar newline l = false) ->
  hasChar newline (contextLine lines i k) = false.
Proof.
  intros H. unfold contextLine, ofNat. rewrite !hasChar_append, digits_no_newline.
  assert (Hn : hasChar newline (nth k lines EmptyString) = false).
  { destruct (Nat.lt_ge_cases k (List.length lines)) as [Hk | Hk].
    - apply H. now apply nth_In.
    - now rewrite nth_overflow. }
  rewrite Hn. now destruct (k + 1 =? i + 1).
Qed.

Lemma combine_seq_slice {A} (d : A) (m o s : nat) (l : list A) :
  s + m <= List.length l ->
  combine (seq o m) (firstn m (skipn s l))
  = map (fun idx => (idx, nth (s + (idx - o)) l d)) (seq o m).
Proof.
  revert o s. induction m as [| m IH]; intros o s H; [ reflexivity | ].
  assert (Hs : skipn s l = nth s l d :: skipn (S s) l).
  { clear IH. revert s H. induction l as [| a l IHl]; intros s H; simpl in H; [ lia | ].
    destruct s as [| s]; [ reflexivity | ]. simpl. apply IHl. lia. }
  rewrite Hs. cbn [seq firstn combine map]. rewrite Nat.sub_diag, Nat.add_0_r. f_equal.
  rewrite IH by lia. apply map_ext_in. intros idx Hidx. apply in_seq in Hidx.
  do 2 f_equal. lia.
Qed.

Lemma map_seq_offset {B} (f : nat -> B) (s m : nat) :
  map (fun idx => f (s + idx)) (seq 0 m) = map f (seq s m).
Proof.
  revert s. induction m as [| m IH]; intros s; [ reflexivity | ].
  cbn [seq map]. rewrite Nat.add_0_r. f_equal.
  rewrite <- seq_shift, map_map. rewrite <- (IH (S s)).
  apply map_ext. intros idx. f_equal. lia.
Qed.

Lemma contextSnippet_lines (lines : list string) (i : nat) :
  i < List.length lines ->
  contextSnippet lines i
  = join (String newline EmptyString)
         (map (contextLine lines i)
              (seq (i - 2) (Nat.min (List.length lines - 1) (i + 2) + 1 - (i - 2)))).
Proof.
  intros Hi. unfold contextSnippet. cbn zeta. f_equal.
  rewrite Nat.max_0_l. unfold slice.
  set (s := i - 2). set (m := Nat.min (List.length lines - 1) (i + 2) + 1 - s).
  assert (Hm : s + m <= List.length lines) by (subst s m; lia).
  assert (Hlen : List.length (firstn m (skipn s lines)) = m).
  { rewrite length_firstn, length_skipn. lia. }
  rewrite Hlen, (combine_seq_slice EmptyString) by exact Hm.
  rewrite map_map. cbn [fst snd].
  rewrite <- (map_seq_offset (contextLine lines i) s m).
  apply map_ext. intros idx. unfold contextLine. now rewrite Nat.sub_0_r.
Qed.

(** X26. The context of a hit on line [i] (counted from 0) of a file: read
    line by line, it consists of the lines from two before to two after
    line [i], as far as the file has them, each as marker, line number
    counted from 1, colon, blank and the line itself; so it has between one
    and five lines, and the line of the usage is among them, marked with
    [>]. *)
Theorem X26_context_snippet (content : string) (i : nat) :
  let lines := split newline content in
  let first := i - 2 in
  let count := Nat.min (List.length lines - 1) (i + 2) + 1 - first in
  i < List.length lines ->
  split newline (contextSnippet lines i) = map (contextLine lines i) (seq first count)
  /\ 1 <= count <= 5
  /\ In ("> " ++ ofNat (i + 1) ++ ": " ++ nth i lines EmptyString)%string
        (split newline (contextSnippet lines i)).
Proof.
  intros lines first count Hi.
  assert (Hc : 1 <= count <= 5) by (subst count first; lia).
  assert (E : split newline (contextSnippet lines i)
              = map (contextLine lines i) (seq first count)).
  { rewrite contextSnippet_lines by exact Hi. fold first. fold count.
    apply split_join.
    - destruct count; [ lia | discriminate ].
    - intros p Hp. apply in_map_iff in Hp. destruct Hp as (k & <- & _).
      apply contextLine_no_newline. intros l Hl. subst lines.
      now apply split_parts_no_sep in Hl. }
  split; [ exact E | split; [ exact Hc | ] ].
  rewrite E. apply in_map_iff. exists i. split.
  - unfold contextLine. now rewrite Nat.eqb_refl.
  - apply in_seq. subst count first. lia.
Qed.

Lemma X26_context_snippet_witness :
  split newline (contextSnippet (split newline clientSource) 1)
  = ["  1: import x"; "> 2:   getUser(1);"; "  3: done"].
Proof.
  pose proof (X26_context_snippet clientSource 1) as H. cbv zeta in H.
  destruct H as (H & _); [ simpl; lia | ].
  exact (eq_trans H eq_refl).
Defined.

End SnippetFacts.

(* ================================================================== *)
(** * The graph file of a project *)

Section PathFacts.
Import GraphService Sample StoreSample JsString AnalyzerExtra.

Lemma rev_string_append (a b : string) :
  rev_string (a ++ b) = (rev_string b ++ rev_string a)%string.
Proof.
  induction a as [| x a IH]; simpl.
  - induction (rev_string b) as [| y r IHr]; simpl; [ reflexivity | now rewrite <- IHr ].
  - rewrite IH. generalize (rev_string b) (rev_string a). intros u v.
    induction u as [| y u IHu]; simpl; [ reflexivity | now rewrite IHu ].
Qed.

(** A project id without a slash is one segment of the path: the graph
    file is [data/graph-<id>.json], whatever else the id holds. *)
Lemma fileOf_plain (p : string) :
  p <> EmptyString -> hasChar slash p = false ->
  fileOf (Some p) = ("data/graph-" ++ p ++ ".json")%string.
Proof.
  intros Hp Hs. unfold fileOf, truthy. apply String.eqb_neq in Hp. rewrite Hp. cbn [negb].
  set (name := ("graph-" ++ p ++ ".json")%string).
  assert (Hname : hasChar slash name = false).
  { unfold name. rewrite !hasChar_append, Hs. reflexivity. }
  unfold JsPath.joinPaths.
  assert (Hj : join "/" (filter (fun part => negb (String.eqb part EmptyString))
                                ["data"; name])
               = ("data" ++ String slash name)%string) by reflexivity.
  rewrite Hj. unfold JsPath.normalize.
  assert (Hlast : lastChar ("data" ++ String slash name) = Some "n"%char).
  { unfold lastChar, name.
    change ("data" ++ String slash ("graph-" ++ p ++ ".json"))%string
      with (("data/graph-" ++ p) ++ ".json")%string at 1.
    rewrite rev_string_append. reflexivity. }
  rewrite Hlast, split_app by reflexivity.
  rewrite split_no_sep by exact Hname.
  reflexivity.
Qed.

Lemma fileOf_injective (p q : string) :
  p <> EmptyString -> q <> EmptyString ->
  hasChar slash p = false -> hasChar slash q = false ->
  fileOf (Some p) = fileOf (Some q) -> p = q.
Proof.
  intros Hp Hq Sp Sq. rewrite !fileOf_plain by assumption.
  intros H. apply (append_cancel_l "data/graph-") in H.
  now apply append_cancel_r in H.
Qed.

(** X8. An instance writes to its own graph file only: no sequence of calls
    changes any other file. The graph file of a project is
    [data/graph-<id>.json] when the id has no slash, so the document of
    another project is never touched when both ids are non-empty, different
    and free of slashes. An id with a slash is read as a path: [path.join]
    resolves [..] in it, and two different ids can then name one file. *)
Theorem X8_projects_are_isolated (ops : list Extra.Op) (w : World) :
  (forall f, f <> graphFile (this w) -> disk (Extra.run ops w) f = disk w f)
  /\ (forall p, p <> EmptyString -> hasChar slash p = false ->
                fileOf (Some p) = ("data/graph-" ++ p ++ ".json")%string)
  /\ (forall p q, graphFile (this w) = fileOf (Some p) ->
                  p <> EmptyString -> q <> EmptyString ->
                  hasChar slash p = false -> hasChar slash q = false ->
                  p <> q ->
                  disk (Extra.run ops w) (fileOf (Some q)) = disk w (fileOf (Some q)))
  /\ fileOf (Some "x/../graph-p2") = fileOf (Some "p2")
  /\ fileOf (Some "x/../../notes") = "notes.json"
  /\ fileOf None = "data/graph.json"
  /\ fileOf (Some EmptyString) = "data/graph.json".
Proof.
  split; [ intros f; apply run_disk_other | ].
  split; [ exact fileOf_plain | ].
  split; [ | repeat split ].
  intros p q Hw Hp Hq Sp Sq Hpq. apply run_disk_other. rewrite Hw. intros E.
  apply Hpq. symmetry. now apply fileOf_injective.
Qed.

Lemma X8_projects_are_isolated_witness :
  disk (removeNodesByRepoId "B" indexed) (fileOf (Some "p2")) = None.
Proof.
  pose proof (proj1 (proj2 (proj2
                (X8_projects_are_isolated [Extra.OpRemoveNodesByRepoId "B"] indexed)))
                "p1" "p2" eq_refl) as H.
  exact (eq_trans (H ltac:(discriminate) ltac:(discriminate) eq_refl eq_refl
                     ltac:(discriminate))
                  eq_refl).
Defined.

End PathFacts.
